(** * go-dedupe: a shallow embedding of the cache codec, the glob
      compiler, the scan grouping and the replacement engine.

    Conventions.  A Go [byte] and a Go [rune] are [Z]; a [[]byte] and a
    Go [string] holding arbitrary bytes are [list Z]; a path or an
    attribute name is a Rocq [string].  [int64] and [uint64] values are
    [Z] with the wrap-around written where the code can reach it.  A Go
    [map] is a [gmap].  A run-time panic is an explicit outcome. *)

From Stdlib Require Import ZArith Lia Bool Ascii String OrderedTypeEx.
From stdpp Require Import gmap strings list fin_maps sorting vector.

Local Open Scope Z_scope.

(** ** Bytes and literals *)

Definition bytes_of_string (s : string) : list Z :=
  map (fun a => Z.of_nat (nat_of_ascii a)) (list_ascii_of_string s).

Definition is_byte (b : Z) : Prop := 0 <= b < 256.

Definition wrap64 (z : Z) : Z := (z + 2 ^ 63) mod 2 ^ 64 - 2 ^ 63.

Definition in_int64 (z : Z) : Prop := - 2 ^ 63 <= z < 2 ^ 63.

(** A panic of the Go run time is an outcome of its own. *)
Inductive Res (A : Type) : Type :=
| Ret (a : A)
| Panicked.
Arguments Ret {A} a.
Arguments Panicked {A}.

Definition bindR {A B} (r : Res A) (k : A -> Res B) : Res B :=
  match r with
  | Ret a => k a
  | Panicked => Panicked
  end.

Notation "'run' x <-- r 'next' k" := (bindR r (fun x => k))
  (at level 10, x name, r at level 99, k at level 200).

(** ** The Go standard library, as far as the program calls it *)

Module GoLib.

(** *** strconv *)

Definition is_digit (c : Z) : bool := (48 <=? c) && (c <=? 57).

Definition maxUint64 : Z := 2 ^ 64 - 1.

(** The loop of [strconv.ParseUint(s, 10, 64)] over the bytes of [s],
    from the value [n] read so far.  A letter is a digit of value 10 or
    more, which base 10 refuses like any other byte. *)
Fixpoint parseUint_loop (s : list Z) (n : Z) : option Z :=
  match s with
  | [] => Some n
  | c :: s' =>
      if negb (is_digit c) then None else
      let d := c - 48 in
      if maxUint64 / 10 + 1 <=? n then None else
      let n := n * 10 in
      let n1 := (n + d) mod 2 ^ 64 in
      if (n1 <? n) || (maxUint64 <? n1) then None else
      parseUint_loop s' n1
  end.

Definition ParseUint (s : list Z) : option Z :=
  match s with
  | [] => None
  | _ => parseUint_loop s 0
  end.

(** [strconv.ParseInt(s, 10, 64)]: [None] is any error, of syntax or
    of range. *)
Definition ParseInt (s : list Z) : option Z :=
  match s with
  | [] => None
  | c :: s' =>
      let neg := c =? 45 in
      let s1 := if (c =? 43) || neg then s' else s in
      match ParseUint s1 with
      | None => None
      | Some un =>
          let cutoff := 2 ^ 63 in
          if negb neg && (cutoff <=? un) then None
          else if neg && (cutoff <? un) then None
          else Some (if neg then - un else un)
      end
  end.

(** The decimal digits of [u], most significant first, in front of
    [acc]; twenty rounds cover every [uint64]. *)
Fixpoint formatBits (fuel : nat) (u : Z) (acc : list Z) : list Z :=
  match fuel with
  | O => acc
  | S k =>
      if u <? 10 then (48 + u) :: acc
      else formatBits k (u / 10) ((48 + u mod 10) :: acc)
  end.

(** [strconv.AppendInt(dst, value, 10)]. *)
Definition AppendInt (dst : list Z) (value : Z) : list Z :=
  dst ++ (if value <? 0 then 45 :: formatBits 20 (- value) []
          else formatBits 20 value []).

(** *** encoding/binary *)

(** [binary.BigEndian.Uint64] of the first eight bytes. *)
Definition BigEndian_Uint64 (b : list Z) : Z :=
  foldl (fun acc x => Z.lor (Z.shiftl acc 8) x) 0 (take 8 b).

(** The conversion [int64(u)] of a [uint64]. *)
Definition to_int64 (u : Z) : Z := if u <? 2 ^ 63 then u else u - 2 ^ 64.

(** *** encoding/hex *)

Definition hex_EncodedLen (n : nat) : nat := (n * 2)%nat.

Definition fromHexChar (c : Z) : option Z :=
  if (48 <=? c) && (c <=? 57) then Some (c - 48)
  else if (97 <=? c) && (c <=? 102) then Some (c - 97 + 10)
  else if (65 <=? c) && (c <=? 70) then Some (c - 65 + 10)
  else None.

(** What a decoder that writes into a caller's buffer can do: return
    [n] and an error, return [n] and no error, or index past the end of
    the buffer.  [out] is [dst[:n]], the bytes it wrote. *)
Inductive dec_result :=
| DecPanic
| DecError (out : list Z)
| DecOk (out : list Z).

(** [hex.Decode(dst, src)] with [len(dst) = cap]; [out] is [dst[:i]].
    The loop stores [dst[i]] with no check of its own, so a source
    longer than twice the buffer runs off its end. *)
Fixpoint hex_Decode (cap : nat) (src : list Z) (out : list Z) : dec_result :=
  match src with
  | p :: q :: src' =>
      match fromHexChar p, fromHexChar q with
      | Some a, Some b =>
          if (cap <=? length out)%nat then DecPanic
          else hex_Decode cap src' (out ++ [Z.lor (Z.shiftl a 4) b])
      | _, _ => DecError out
      end
  | [_] => DecError out
  | [] => DecOk out
  end.

Definition hextable : list Z := bytes_of_string "0123456789abcdef".

Definition table_at (t : list Z) (i : Z) : Z := nth (Z.to_nat i) t 0.

(** [hex.Encode]. *)
Fixpoint hex_Encode (src : list Z) : list Z :=
  match src with
  | [] => []
  | v :: src' =>
      table_at hextable (Z.shiftr v 4)
        :: table_at hextable (Z.land v 15) :: hex_Encode src'
  end.

(** *** encoding/base64 *)

Definition encodeStd : list Z := bytes_of_string
  "ABCDEFGHIJKLMNOPQRSTUVWXYZabcdefghijklmnopqrstuvwxyz0123456789+/".
Definition encodeURL : list Z := bytes_of_string
  "ABCDEFGHIJKLMNOPQRSTUVWXYZabcdefghijklmnopqrstuvwxyz0123456789-_".

Definition padChar : Z := 61.

(** [EncodedLen] of a padded encoding. *)
Definition b64_EncodedLen (n : nat) : nat := ((n + 2) / 3 * 4)%nat.

(** [enc.decodeMap[c]]: the position of [c] in the alphabet, [None]
    for the 0xff entries. *)
Fixpoint index_of (c : Z) (alpha : list Z) (i : Z) : option Z :=
  match alpha with
  | [] => None
  | a :: alpha' => if a =? c then Some i else index_of c alpha' (i + 1)
  end.

Definition decodeMap (alpha : list Z) (c : Z) : option Z := index_of c alpha 0.

(** [Encode] of a padded encoding with alphabet [alpha]. *)
Fixpoint b64_Encode (alpha : list Z) (src : list Z) : list Z :=
  match src with
  | b0 :: b1 :: b2 :: src' =>
      let val := Z.lor (Z.shiftl b0 16) (Z.lor (Z.shiftl b1 8) b2) in
      table_at alpha (Z.land (Z.shiftr val 18) 63)
        :: table_at alpha (Z.land (Z.shiftr val 12) 63)
        :: table_at alpha (Z.land (Z.shiftr val 6) 63)
        :: table_at alpha (Z.land val 63)
        :: b64_Encode alpha src'
  | [b0; b1] =>
      let val := Z.lor (Z.shiftl b0 16) (Z.shiftl b1 8) in
      [table_at alpha (Z.land (Z.shiftr val 18) 63);
       table_at alpha (Z.land (Z.shiftr val 12) 63);
       table_at alpha (Z.land (Z.shiftr val 6) 63);
       padChar]
  | [b0] =>
      let val := Z.shiftl b0 16 in
      [table_at alpha (Z.land (Z.shiftr val 18) 63);
       table_at alpha (Z.land (Z.shiftr val 12) 63);
       padChar; padChar]
  | [] => []
  end.

Definition is_newline (c : Z) : bool := (c =? 10) || (c =? 13).

Fixpoint skip_newlines (src : list Z) : list Z :=
  match src with
  | c :: src' => if is_newline c then skip_newlines src' else src
  | [] => []
  end.

(** The end of [decodeQuantum]: the sextets of [dbuf] (absent ones are
    zero) packed into three bytes, of which [dlen - 1] are stored. *)
Definition quantum_bytes (dbuf : list Z) (dlen : nat) : list Z :=
  let d i := nth i dbuf 0 in
  let val := Z.lor (Z.shiftl (d 0%nat) 18)
               (Z.lor (Z.shiftl (d 1%nat) 12)
                  (Z.lor (Z.shiftl (d 2%nat) 6) (d 3%nat))) in
  take (dlen - 1)
    [Z.land (Z.shiftr val 16) 255; Z.land (Z.shiftr val 8) 255;
     Z.land val 255].

(** After the padding of a quantum: newlines are skipped, the bytes are
    stored (past the end of a short buffer, a panic), and anything left
    is trailing garbage. *)
Definition pad_finish (cap : nat) (dbuf : list Z) (dlen : nat)
    (rest out : list Z) : dec_result :=
  if (cap - length out <? dlen - 1)%nat then DecPanic else
  match skip_newlines rest with
  | [] => DecOk (out ++ quantum_bytes dbuf dlen)
  | _ => DecError (out ++ quantum_bytes dbuf dlen)
  end.

(** [Decode(dst, src)] of a padded, non-strict encoding with
    [len(dst) = cap]: the quanta of [decodeQuantum] one after the
    other.  [dbuf] holds the sextets of the quantum being read and
    [out] is [dst[:n]].  The fast paths of the library decode eight and
    four characters at once only where the buffer has room, and agree
    with this loop. *)
Fixpoint b64_Decode_from (alpha : list Z) (cap : nat) (src dbuf out : list Z)
  : dec_result :=
  match src with
  | [] => match dbuf with [] => DecOk out | _ => DecError out end
  | c :: rest =>
      match decodeMap alpha c with
      | Some v =>
          let dbuf' := dbuf ++ [v] in
          if (length dbuf' =? 4)%nat then
            if (cap - length out <? 3)%nat then DecPanic
            else b64_Decode_from alpha cap rest [] (out ++ quantum_bytes dbuf' 4)
          else b64_Decode_from alpha cap rest dbuf' out
      | None =>
          if is_newline c then b64_Decode_from alpha cap rest dbuf out
          else if negb (c =? padChar) then DecError out
          else match length dbuf with
               | 0%nat | 1%nat => DecError out
               | 2%nat =>
                   match skip_newlines rest with
                   | [] => DecError out
                   | c2 :: rest2 =>
                       if c2 =? padChar then pad_finish cap dbuf 2 rest2 out
                       else DecError out
                   end
               | _ => pad_finish cap dbuf 3 rest out
               end
      end
  end.

Definition b64_Decode (alpha : list Z) (cap : nat) (src : list Z) : dec_result :=
  b64_Decode_from alpha cap src [] [].

(** An alphabet the decoder inverts: 64 characters, each found at its
    own position, none of them a newline or the padding. *)
Definition alphabet_ok (alpha : list Z) : bool :=
  forallb (fun s => bool_decide (decodeMap alpha (table_at alpha s) = Some s))
          (seqZ 0 64)
  && forallb (fun c => negb (is_newline c) && negb (c =? padChar)
                       && negb (c =? 44) && negb (c =? 58)) alpha
  && (length alpha =? 64)%nat.

(** A character the decoder of an alphabet refuses: not in its
    decoding map, not a newline and not the padding. *)
Definition refused (alpha : list Z) (c : Z) : bool :=
  bool_decide (decodeMap alpha c = None) && negb (is_newline c)
  && negb (c =? padChar).

(** *** bytes *)

(** [bytes.Split(s, sep)] for a separator of one byte. *)
Fixpoint Split (s : list Z) (sep : Z) : list (list Z) :=
  match s with
  | [] => [[]]
  | c :: s' =>
      if c =? sep then [] :: Split s' sep
      else match Split s' sep with
           | h :: t => (c :: h) :: t
           | [] => [[c]]
           end
  end.

(** [bytes.Cut(s, sep)] for a separator of one byte. *)
Fixpoint Cut (s : list Z) (sep : Z) : list Z * list Z * bool :=
  match s with
  | [] => ([], [], false)
  | c :: s' =>
      if c =? sep then ([], s', true)
      else let '(before, after, found) := Cut s' sep in
           (c :: before, after, found)
  end.

Section EqualFold.

(** The general case of [bytes.EqualFold], entered at the first byte
    of either side that is not ASCII: it decodes runes and walks the
    orbits of [unicode.SimpleFold]. *)
Variable foldUnicode : list Z -> list Z -> bool.

(** [bytes.EqualFold]. *)
Fixpoint EqualFold (s t : list Z) : bool :=
  match s, t with
  | sr :: s', tr :: t' =>
      if 128 <=? Z.lor sr tr then foldUnicode s t
      else if tr =? sr then EqualFold s' t'
      else
        let lo := Z.min sr tr in
        let hi := Z.max sr tr in
        if (65 <=? lo) && (lo <=? 90) && (hi =? lo + 97 - 65)
        then EqualFold s' t'
        else false
  | [], [] => true
  | _, _ => false
  end.

End EqualFold.

End GoLib.

(** ** internal/item: an open filesystem entry *)

Module ItemPkg.

(** The operating system as [Item.Close] sees it: the descriptors that
    are open, the [f.Close()] calls made so far (most recent first),
    and the number of error records logged. *)
Record World := mkWorld {
  open_fds : gset nat;
  close_calls : list nat;
  error_logs : nat
}.

(** The fields of [Item] the embedded code reads.  [File] is the
    [*os.File]: [None] is the nil handle. *)
Record Item := mkItem {
  Path : string;
  File : option nat;
  Size : Z;
  Time : Z;
  Dev : Z;
  Ino : Z;
  Nlink : Z;
  Priority : Z;
  IsSymlink : bool
}.

Definition set_File (f : option nat) (it : Item) : Item :=
  mkItem (Path it) f (Size it) (Time it) (Dev it) (Ino it) (Nlink it)
         (Priority it) (IsSymlink it).

(** [os.File.Close]: succeeds on an open descriptor, and fails with
    [os.ErrClosed] otherwise. *)
Definition os_Close (fd : nat) (w : World) : bool * World :=
  let ok := bool_decide (fd ∈ open_fds w) in
  (ok, mkWorld (open_fds w ∖ {[fd]}) (fd :: close_calls w) (error_logs w)).

Definition log_error (w : World) : World :=
  mkWorld (open_fds w) (close_calls w) (S (error_logs w)).

(** [func (item *Item) Close()].  The receiver is a pointer: [None] is
    the nil [*Item]; the result is the pointee after the call. *)
Definition Close (item : option Item) (w : World) : option Item * World :=
  match item with
  | None => (None, w)
  | Some it =>
      let f := File it in
      let it' := set_File None it in
      match f with
      | Some fd =>
          let '(ok, w') := os_Close fd w in
          (Some it', if ok then w' else log_error w')
      | None => (Some it', w)
      end
  end.

(** [n] calls of [Close] in a row on the same receiver. *)
Fixpoint Close_n (n : nat) (item : option Item) (w : World)
  : option Item * World :=
  match n with
  | O => (item, w)
  | S k => let '(item', w') := Close item w in Close_n k item' w'
  end.

End ItemPkg.

(** ** internal/metadata: presence bits *)

Module Metadata.

Definition SizeBit : Z := 1.
Definition TimeBit : Z := 2.
Definition MD5Bit : Z := 4.
Definition SHA1Bit : Z := 8.
Definition SHA256Bit : Z := 16.
Definition NumBits : Z := 5.
Definition AllBits : Z := Z.shiftl 1 NumBits - 1.

Definition Has (bits x : Z) : bool := negb (Z.land bits x =? 0).
Definition HasAll (bits x : Z) : bool := Z.land bits x =? x.

Record Metadata := mkMeta {
  Bits : Z;
  Size : Z;
  Time : Z;
  MD5 : list Z;
  SHA1 : list Z;
  SHA256 : list Z
}.

(** The zero value [Metadata{}]: the three digests are arrays of 16, 20
    and 32 zero bytes. *)
Definition zero : Metadata :=
  mkMeta 0 0 0 (replicate 16 0) (replicate 20 0) (replicate 32 0).

Definition Reset (meta : Metadata) : Metadata := zero.

Definition set_Bits (b : Z) (m : Metadata) : Metadata :=
  mkMeta b (Size m) (Time m) (MD5 m) (SHA1 m) (SHA256 m).
Definition set_Size (v : Z) (m : Metadata) : Metadata :=
  mkMeta (Bits m) v (Time m) (MD5 m) (SHA1 m) (SHA256 m).
Definition set_Time (v : Z) (m : Metadata) : Metadata :=
  mkMeta (Bits m) (Size m) v (MD5 m) (SHA1 m) (SHA256 m).
Definition set_MD5 (v : list Z) (m : Metadata) : Metadata :=
  mkMeta (Bits m) (Size m) (Time m) v (SHA1 m) (SHA256 m).
Definition set_SHA1 (v : list Z) (m : Metadata) : Metadata :=
  mkMeta (Bits m) (Size m) (Time m) (MD5 m) v (SHA256 m).
Definition set_SHA256 (v : list Z) (m : Metadata) : Metadata :=
  mkMeta (Bits m) (Size m) (Time m) (MD5 m) (SHA1 m) v.

Definition Check (meta : Metadata) (size modTime : Z) : bool :=
  if HasAll (Bits meta) (Z.lor SizeBit TimeBit)
  then (size =? Size meta) && (modTime =? Time meta)
  else false.

(** *** Compute *)

(** What one [file.Read] returned: the bytes [buf[:n]] and the error. *)
Inductive read_err := ErrNil | ErrEOF | ErrOther.

(** An open file as [Compute] observes it: whether [Seek] fails, and
    the results of the successive [Read] calls.  A history that runs
    out reads as [(0, io.EOF)]. *)
Record FileReads := mkFileReads {
  seek_fails : bool;
  reads : list (list Z * read_err)
}.

(** The [for] loop of [Compute]: the observed byte count (an [int64])
    and the bytes written to the three hashers, or [None] on a read
    error. *)
Fixpoint read_loop (rs : list (list Z * read_err)) (computedSize : Z)
    (written : list Z) : option (Z * list Z) :=
  match rs with
  | [] => Some (computedSize, written)
  | (p, err) :: rs' =>
      let n := Z.of_nat (length p) in
      let computedSize' :=
        if 0 <? n then wrap64 (computedSize + n) else computedSize in
      let written' := if 0 <? n then written ++ p else written in
      match err with
      | ErrEOF => Some (computedSize', written')
      | ErrOther => None
      | ErrNil => read_loop rs' computedSize' written'
      end
  end.

(** The bytes a reader sees up to the first end of file. *)
Fixpoint content_to_eof (rs : list (list Z * read_err)) : list Z :=
  match rs with
  | [] => []
  | (p, ErrNil) :: rs' => p ++ content_to_eof rs'
  | (p, _) :: _ => p
  end.

(** Whether the history ends in an error other than [io.EOF]. *)
Fixpoint read_fails (rs : list (list Z * read_err)) : bool :=
  match rs with
  | [] => false
  | (_, ErrNil) :: rs' => read_fails rs'
  | (_, ErrEOF) :: _ => false
  | (_, ErrOther) :: _ => true
  end.

Section Hashing.

(** [crypto/md5], [crypto/sha1] and [crypto/sha256]: the digest of the
    bytes written to a hasher. *)
Variables md5sum sha1sum sha256sum : list Z -> list Z.

Definition Compute (meta : Metadata) (file : FileReads) (size modTime : Z)
  : Metadata * bool :=
  if seek_fails file then (meta, false) else
  match read_loop (reads file) 0 [] with
  | None => (meta, false)
  | Some (computedSize, written) =>
      if negb (size =? computedSize) then (meta, false) else
      let meta := Reset meta in
      let meta := set_Bits AllBits meta in
      let meta := set_Size size meta in
      let meta := set_Time modTime meta in
      let meta := set_MD5 (md5sum written) meta in
      let meta := set_SHA1 (sha1sum written) meta in
      let meta := set_SHA256 (sha256sum written) meta in
      (meta, true)
  end.

End Hashing.

(** *** The codec *)

Import GoLib.

Definition kSplit : Z := 44.
Definition kCut : Z := 58.
Definition kSize : list Z := bytes_of_string "size".
Definition kModTime : list Z := bytes_of_string "modTime".
Definition kMD5 : list Z := bytes_of_string "md5".
Definition kSHA1 : list Z := bytes_of_string "sha1".
Definition kSHA256 : list Z := bytes_of_string "sha256".

Definition decodeInt (input : list Z) : option Z :=
  match ParseInt input with
  | Some i64 => Some i64
  | None =>
      if (length input =? 8)%nat then Some (to_int64 (BigEndian_Uint64 input))
      else None
  end.

(** The test [n == outputLen && err == nil] on what a library decoder
    returned; [Some out] is the buffer it filled. *)
Definition accepted (outputLen : nat) (r : dec_result) : Res (option (list Z)) :=
  match r with
  | DecPanic => Panicked
  | DecError _ => Ret None
  | DecOk out => Ret (if (length out =? outputLen)%nat then Some out else None)
  end.

(** [decodeHash(output, input)] with [len(output) = outputLen]:
    [Ret (Some out)] is [true] with [out] left in [output], and
    [Ret None] is [false]. *)
Definition decodeHash (outputLen : nat) (input : list Z)
  : Res (option (list Z)) :=
  let inputLen := length input in
  if (inputLen =? outputLen)%nat then Ret (Some input) else
  run viaHex <-- (if (hex_EncodedLen outputLen <=? inputLen)%nat
                  then accepted outputLen (hex_Decode outputLen input [])
                  else Ret None) next
  match viaHex with
  | Some out => Ret (Some out)
  | None =>
      if (b64_EncodedLen outputLen <=? inputLen)%nat then
        run viaStd <-- accepted outputLen (b64_Decode encodeStd outputLen input) next
        match viaStd with
        | Some out => Ret (Some out)
        | None => accepted outputLen (b64_Decode encodeURL outputLen input)
        end
      else Ret None
  end.

Definition decodeSize (meta : Metadata) (raw : list Z) : Metadata :=
  match decodeInt raw with
  | Some i64 => set_Bits (Z.lor (Bits meta) SizeBit) (set_Size i64 meta)
  | None => meta
  end.

Definition decodeModTime (meta : Metadata) (raw : list Z) : Metadata :=
  match decodeInt raw with
  | Some i64 => set_Bits (Z.lor (Bits meta) TimeBit) (set_Time i64 meta)
  | None => meta
  end.

Definition decodeMD5 (meta : Metadata) (raw : list Z) : Res Metadata :=
  run r <-- decodeHash 16 raw next
  match r with
  | Some sum => Ret (set_Bits (Z.lor (Bits meta) MD5Bit) (set_MD5 sum meta))
  | None => Ret meta
  end.

Definition decodeSHA1 (meta : Metadata) (raw : list Z) : Res Metadata :=
  run r <-- decodeHash 20 raw next
  match r with
  | Some sum => Ret (set_Bits (Z.lor (Bits meta) SHA1Bit) (set_SHA1 sum meta))
  | None => Ret meta
  end.

Definition decodeSHA256 (meta : Metadata) (raw : list Z) : Res Metadata :=
  run r <-- decodeHash 32 raw next
  match r with
  | Some sum => Ret (set_Bits (Z.lor (Bits meta) SHA256Bit) (set_SHA256 sum meta))
  | None => Ret meta
  end.

Definition appendInt (out : list Z) (value : Z) : list Z := AppendInt out value.

Definition appendHash (out : list Z) (wantHex : bool) (raw : list Z) : list Z :=
  out ++ (if wantHex then hex_Encode raw else b64_Encode encodeStd raw).

Definition Append (meta : Metadata) (out : list Z) : list Z :=
  let out := out ++ kSize in
  let out := out ++ [kCut] in
  let out := appendInt out (Size meta) in
  let out := out ++ [kSplit] in
  let out := out ++ kModTime in
  let out := out ++ [kCut] in
  let out := appendInt out (Time meta) in
  let out := out ++ [kSplit] in
  let out := out ++ kMD5 in
  let out := out ++ [kCut] in
  let out := appendHash out false (MD5 meta) in
  let out := out ++ [kSplit] in
  let out := out ++ kSHA1 in
  let out := out ++ [kCut] in
  let out := appendHash out false (SHA1 meta) in
  let out := out ++ [kSplit] in
  let out := out ++ kSHA256 in
  let out := out ++ [kCut] in
  let out := appendHash out false (SHA256 meta) in
  out.

(** What the types of the fields promise: two [int64] values and
    arrays of 16, 20 and 32 bytes. *)
Definition digest_ok (n : nat) (d : list Z) : bool :=
  (length d =? n)%nat && forallb (fun b => (0 <=? b) && (b <? 256)) d.

Definition well_formed (m : Metadata) : bool :=
  (- 2 ^ 63 <=? Size m) && (Size m <? 2 ^ 63)
  && (- 2 ^ 63 <=? Time m) && (Time m <? 2 ^ 63)
  && digest_ok 16 (MD5 m) && digest_ok 20 (SHA1 m) && digest_ok 32 (SHA256 m).

(** One piece of the stamp: a key, the colon, a value. *)
Definition piece (k v : list Z) : list Z := k ++ kCut :: v.

(** *** Attribute names and the attribute store *)

Record Names := mkNames {
  nStamp : string;
  nSize : string;
  nTime : string;
  nMD5 : string;
  nSHA1 : string;
  nSHA256 : string
}.

Definition DefaultNames : Names :=
  mkNames "user.dedupe.stamp" "user.size" "user.mtime" "user.md5sum"
          "user.sha1sum" "user.sha256sum".

Definition set_Stamp (v : string) (n : Names) : Names :=
  mkNames v (nSize n) (nTime n) (nMD5 n) (nSHA1 n) (nSHA256 n).

(** The extended attributes of one file.  A name that is absent reads
    as [ENOATTR]; other failures of the system calls are left out. *)
Abbreviation xattrs := (gmap string (list Z)).

Definition MaybeFGet (file : xattrs) (name : string) : option (list Z) :=
  file !! name.

Definition MaybeFSet (file : xattrs) (name : string) (value : list Z) : xattrs :=
  match file !! name with
  | Some existing =>
      if bool_decide (value = existing) then file else <[name := value]> file
  | None => <[name := value]> file
  end.

Definition Save (meta : Metadata) (file : xattrs) (names : Names) : xattrs :=
  let file := MaybeFSet file (nStamp names) (Append meta []) in
  let file := MaybeFSet file (nSize names) (appendInt [] (Size meta)) in
  let file := MaybeFSet file (nTime names) (appendInt [] (Time meta)) in
  let file := MaybeFSet file (nMD5 names) (appendHash [] true (MD5 meta)) in
  let file := MaybeFSet file (nSHA1 names) (appendHash [] true (SHA1 meta)) in
  let file := MaybeFSet file (nSHA256 names) (appendHash [] true (SHA256 meta)) in
  file.

Section Decode.

Variable foldUnicode : list Z -> list Z -> bool.

Definition keyIs (found : bool) (key k : list Z) : bool :=
  found && EqualFold foldUnicode key k.

(** The body of the loop of [Decode] for one piece of the input. *)
Definition decode_piece (meta : Metadata) (raw : list Z) : Res Metadata :=
  let '(key, value, found) := Cut raw kCut in
  if keyIs found key kSize then Ret (decodeSize meta value)
  else if keyIs found key kModTime then Ret (decodeModTime meta value)
  else if keyIs found key kMD5 then decodeMD5 meta value
  else if keyIs found key kSHA1 then decodeSHA1 meta value
  else if keyIs found key kSHA256 then decodeSHA256 meta value
  else Ret meta.

Definition Decode (meta : Metadata) (input : list Z) : Res (Metadata * bool) :=
  run meta <-- foldl (fun acc raw => run m <-- acc next decode_piece m raw)
                 (Ret meta) (Split input kSplit) next
  Ret (meta, HasAll (Bits meta) AllBits).

Definition Load (meta : Metadata) (file : xattrs) (names : Names)
  : Res (Metadata * bool) :=
  run meta <-- match MaybeFGet file (nStamp names) with
               | Some raw => run r <-- Decode meta raw next Ret (fst r)
               | None => Ret meta
               end next
  let meta :=
    if negb (Has (Bits meta) SizeBit) then
      match MaybeFGet file (nSize names) with
      | Some raw => decodeSize meta raw
      | None => meta
      end
    else meta in
  let meta :=
    if negb (Has (Bits meta) TimeBit) then
      match MaybeFGet file (nTime names) with
      | Some raw => decodeModTime meta raw
      | None => meta
      end
    else meta in
  run meta <-- (if negb (Has (Bits meta) MD5Bit) then
                  match MaybeFGet file (nMD5 names) with
                  | Some raw => decodeMD5 meta raw
                  | None => Ret meta
                  end
                else Ret meta) next
  run meta <-- (if negb (Has (Bits meta) SHA1Bit) then
                  match MaybeFGet file (nSHA1 names) with
                  | Some raw => decodeSHA1 meta raw
                  | None => Ret meta
                  end
                else Ret meta) next
  run meta <-- (if negb (Has (Bits meta) SHA256Bit) then
                  match MaybeFGet file (nSHA256 names) with
                  | Some raw => decodeSHA256 meta raw
                  | None => Ret meta
                  end
                else Ret meta) next
  Ret (meta, HasAll (Bits meta) AllBits).

End Decode.

End Metadata.

(** ** cmd/find-duplicate-files/metadata.go: the codec of the first
       version of the scanner, which guards each decoder by a regular
       expression *)

Module LegacyMetadata.

Import GoLib.

Definition is_nonzero_digit (c : Z) : bool := (49 <=? c) && (c <=? 57).

(** [reInt.Match]: the expression [^(?:0|[1-9][0-9]+)$]. *)
Definition reInt_Match (input : list Z) : bool :=
  match input with
  | [48] => true
  | c :: d :: rest => is_nonzero_digit c && forallb is_digit (d :: rest)
  | _ => false
  end.

(** [DecodeInt(output, input)]: [Some v] is [true] with [v] stored in
    [output], and [None] is [false] with [output] as it was. *)
Definition DecodeInt (input : list Z) : option Z :=
  match (if reInt_Match input then ParseInt input else None) with
  | Some i64 => Some i64
  | None =>
      if (length input =? 8)%nat then Some (to_int64 (BigEndian_Uint64 input))
      else None
  end.

Definition EncodeInt (value : Z) : list Z := AppendInt [] value.

Definition is_upper (c : Z) : bool := (65 <=? c) && (c <=? 90).
Definition is_lower (c : Z) : bool := (97 <=? c) && (c <=? 122).

(** The two classes of [reHex], [[0-9A-FA-f]] and [[0-9A-Fa-f]]: the
    first has the range from [A] to [f]. *)
Definition reHex_first (c : Z) : bool :=
  is_digit c || ((65 <=? c) && (c <=? 70)) || ((65 <=? c) && (c <=? 102)).
Definition reHex_second (c : Z) : bool :=
  is_digit c || ((65 <=? c) && (c <=? 70)) || ((97 <=? c) && (c <=? 102)).

(** [reHex.Match]: the expression [^([0-9A-FA-f][0-9A-Fa-f])*$]. *)
Fixpoint reHex_Match (input : list Z) : bool :=
  match input with
  | [] => true
  | p :: q :: rest => reHex_first p && reHex_second q && reHex_Match rest
  | [_] => false
  end.

Definition rxB64StdLetter (c : Z) : bool :=
  is_digit c || is_upper c || is_lower c || (c =? 43) || (c =? 47).
Definition rxB64URLLetter (c : Z) : bool :=
  is_digit c || is_upper c || is_lower c || (c =? 95) || (c =? 45).

(** [reB64Std.Match] and [reB64URL.Match] for their class of letters:
    words of four letters, of which the last may end in one or two
    [=]. *)
Fixpoint rxB64_Match (letter : Z -> bool) (input : list Z) : bool :=
  match input with
  | [] => true
  | a :: b :: c :: d :: rest =>
      letter a && letter b &&
      match rest with
      | [] => (letter c && (letter d || (d =? padChar)))
              || ((c =? padChar) && (d =? padChar))
      | _ => letter c && letter d && rxB64_Match letter rest
      end
  | _ => false
  end.

Definition reB64Std_Match : list Z -> bool := rxB64_Match rxB64StdLetter.
Definition reB64URL_Match : list Z -> bool := rxB64_Match rxB64URLLetter.

(** The buffer [output] once a decoder has written [out], the bytes
    it counts, at its start.  The base64 decoder of the library stores
    whole words of eight and of four bytes where it can, so that after
    an attempt that fails or comes up short it may also have stored
    zero bytes just after the bytes it counts; these are left out.
    After an attempt that succeeds the bytes counted fill the
    buffer. *)
Definition written (out output : list Z) : list Z :=
  out ++ drop (length out) output.

(** One [Decode(output, input)] of the library and the test
    [n == outputLen && err == nil] on it: the answer and the buffer. *)
Definition attempt (r : dec_result) (output : list Z) : Res (bool * list Z) :=
  match r with
  | DecPanic => Panicked
  | DecError out => Ret (false, written out output)
  | DecOk out => Ret ((length out =? length output)%nat, written out output)
  end.

(** [DecodeHash(output, input)]: the answer and what [output] holds
    afterwards.  The callers pass the digest field itself, so what a
    failed attempt wrote stays in it. *)
Definition DecodeHash (output input : list Z) : Res (bool * list Z) :=
  let inputLen := length input in
  let outputLen := length output in
  if (inputLen =? outputLen)%nat then Ret (true, input) else
  run r <-- (if (hex_EncodedLen outputLen <=? inputLen)%nat && reHex_Match input
             then attempt (hex_Decode outputLen input []) output
             else Ret (false, output)) next
  let '(ok, output) := r in
  if ok then Ret (true, output) else
  if (b64_EncodedLen outputLen <=? inputLen)%nat then
    run r <-- (if reB64Std_Match input
               then attempt (b64_Decode encodeStd outputLen input) output
               else Ret (false, output)) next
    let '(ok, output) := r in
    if ok then Ret (true, output) else
    run r <-- (if reB64URL_Match input
               then attempt (b64_Decode encodeURL outputLen input) output
               else Ret (false, output)) next
    let '(ok, output) := r in
    if ok then Ret (true, output) else Ret (false, output)
  else Ret (false, output).

(** [EncodeHash(tmp, raw)]. *)
Definition EncodeHash (raw : list Z) : list Z := b64_Encode encodeStd raw.

Record Metadata := mkMetadata {
  Size : Z;
  ModTime : Z;
  MD5 : list Z;
  SHA1 : list Z;
  SHA256 : list Z
}.

(** [Metadata{}]. *)
Definition zero : Metadata :=
  mkMetadata 0 0 (replicate 16 0) (replicate 20 0) (replicate 32 0).

Definition kSplit : Z := 44.
Definition kCut : Z := 58.
Definition kSize : list Z := bytes_of_string "size".
Definition kModTime : list Z := bytes_of_string "modTime".
Definition kMD5 : list Z := bytes_of_string "md5".
Definition kSHA1 : list Z := bytes_of_string "sha1".
Definition kSHA256 : list Z := bytes_of_string "sha256".

(** [md.Encode(out)]. *)
Definition Encode (md : Metadata) (out : list Z) : list Z :=
  out ++ kSize ++ [kCut] ++ EncodeInt (Size md) ++ [kSplit]
      ++ kModTime ++ [kCut] ++ EncodeInt (ModTime md) ++ [kSplit]
      ++ kMD5 ++ [kCut] ++ EncodeHash (MD5 md) ++ [kSplit]
      ++ kSHA1 ++ [kCut] ++ EncodeHash (SHA1 md) ++ [kSplit]
      ++ kSHA256 ++ [kCut] ++ EncodeHash (SHA256 md).

(** The five [has...] variables of [Decode]. *)
Record Found := mkFound {
  hasSize : bool;
  hasModTime : bool;
  hasMD5 : bool;
  hasSHA1 : bool;
  hasSHA256 : bool
}.

Section Decode.

Variable foldUnicode : list Z -> list Z -> bool.

(** The body of the loop of [Decode] for one piece of the input. *)
Definition decode_piece (st : Metadata * Found) (raw : list Z)
  : Res (Metadata * Found) :=
  let '(md, has) := st in
  let '(key, value, found) := Cut raw kCut in
  if found && EqualFold foldUnicode key kSize then
    match DecodeInt value with
    | Some v =>
        Ret (mkMetadata v (ModTime md) (MD5 md) (SHA1 md) (SHA256 md),
             mkFound true (hasModTime has) (hasMD5 has) (hasSHA1 has)
                     (hasSHA256 has))
    | None => Ret st
    end
  else if found && EqualFold foldUnicode key kModTime then
    match DecodeInt value with
    | Some v =>
        Ret (mkMetadata (Size md) v (MD5 md) (SHA1 md) (SHA256 md),
             mkFound (hasSize has) true (hasMD5 has) (hasSHA1 has)
                     (hasSHA256 has))
    | None => Ret st
    end
  else if found && EqualFold foldUnicode key kMD5 then
    run r <-- DecodeHash (MD5 md) value next
    Ret (mkMetadata (Size md) (ModTime md) r.2 (SHA1 md) (SHA256 md),
         mkFound (hasSize has) (hasModTime has) (r.1 || hasMD5 has)
                 (hasSHA1 has) (hasSHA256 has))
  else if found && EqualFold foldUnicode key kSHA1 then
    run r <-- DecodeHash (SHA1 md) value next
    Ret (mkMetadata (Size md) (ModTime md) (MD5 md) r.2 (SHA256 md),
         mkFound (hasSize has) (hasModTime has) (hasMD5 has)
                 (r.1 || hasSHA1 has) (hasSHA256 has))
  else if found && EqualFold foldUnicode key kSHA256 then
    run r <-- DecodeHash (SHA256 md) value next
    Ret (mkMetadata (Size md) (ModTime md) (MD5 md) (SHA1 md) r.2,
         mkFound (hasSize has) (hasModTime has) (hasMD5 has) (hasSHA1 has)
                 (r.1 || hasSHA256 has))
  else Ret st.

(** [md.Decode(input)]: the value it leaves in [md] and its answer. *)
Definition Decode (input : list Z) : Res (Metadata * bool) :=
  run st <-- foldl (fun acc raw => run st <-- acc next decode_piece st raw)
               (Ret (zero, mkFound false false false false false))
               (Split input kSplit) next
  let has := st.2 in
  Ret (st.1, hasSize has && hasModTime has && hasMD5 has && hasSHA1 has
             && hasSHA256 has).

End Decode.

End LegacyMetadata.

(** ** cmd/find-duplicate-files: the first version of [Item] *)

Module LegacyItem.

Import ItemPkg.

(** The fields of the first [Item] that [Close] reads or writes. *)
Record Item := mkItem {
  File : option nat;
  Path : string
}.

(** [func (item *Item) Close() error], with [None] the nil [*Item]:
    the pointee after the call and whether an error was returned.
    The method reads [item.File] with no test of [item]; this version
    holds its Items by value and calls [Close] on Item variables. *)
Definition Close (item : option Item) (w : World) : Res (Item * bool * World) :=
  match item with
  | None => Panicked
  | Some it =>
      match File it with
      | Some fd =>
          let '(ok, w') := os_Close fd w in
          Ret (mkItem None (Path it), negb ok, w')
      | None => Ret (it, false, w)
      end
  end.

(** [n] calls of [Close] in a row on the same Item variable. *)
Fixpoint Close_n (n : nat) (it : Item) (w : World) : Res (Item * World) :=
  match n with
  | O => Ret (it, w)
  | S k => run r <-- Close (Some it) w next Close_n k r.1.1 r.2
  end.

End LegacyItem.

(** ** cmd/find-duplicate-files: the scanner, as far as it names the
       attributes *)

Module FindDuplicateFiles.

Import Metadata.

(** The default of the [-ns] flag. *)
Definition flagNS_default : string := "user.dedupe.".

(** [gNames] once [main] has parsed the flags: it starts as
    [metadata.DefaultNames()] and [main] assigns [gNames.Stamp]. *)
Definition gNames (flagNS : string) : Names :=
  set_Stamp (flagNS ++ "stamp") DefaultNames.

(** The name [Rules.Exclude] reads. *)
Definition exclude_name (flagNS : string) : string := flagNS ++ "exclude".

(** The six names [Save] writes under. *)
Definition saved_names (n : Names) : list string :=
  [nStamp n; nSize n; nTime n; nMD5 n; nSHA1 n; nSHA256 n].

End FindDuplicateFiles.

(** ** sort.Sort *)

(** The order a [Less] method induces: [a] may stand before [b] when
    [b] is not less than [a]. *)
Definition not_after {A} (less : A -> A -> bool) : relation A :=
  fun a b => less b a = false.

(** What [sort.Sort] promises of its result for a [Less] that orders
    the elements: the same elements, in order.  It promises nothing
    about the order of elements that compare equal. *)
Definition sort_contract (sort_Sort : forall A, (A -> A -> bool) -> list A -> list A)
  : Prop :=
  forall A (less : A -> A -> bool) (l : list A),
    sort_Sort A less l ≡ₚ l
    /\ (Transitive (not_after less) -> Total (not_after less) ->
        Sorted (not_after less) (sort_Sort A less l)).

#[global] Instance not_after_dec {A} (less : A -> A -> bool) (a b : A)
  : Decision (not_after less a b).
Proof. unfold not_after. apply _. Defined.

(** One sorting function that keeps the promise. *)
Definition merge_sort_by (A : Type) (less : A -> A -> bool) (l : list A) : list A :=
  merge_sort (not_after less) l.

(** ** cmd/find-duplicate-files/main.go: grouping by digest, device and
       inode, then by digest *)

Module ScanByInode.

Abbreviation SHA256Sum := (vec Z 32).

(** Digests are keys of maps: they are counted through their bytes. *)
Definition SHA256Sum_of_list (l : list Z) : option SHA256Sum :=
  match decide (length l = 32%nat) with
  | left H => Some (eq_rect _ (vec Z) (list_to_vec l) _ H)
  | right _ => None
  end.

Lemma SHA256Sum_of_list_to_list (v : SHA256Sum) :
  SHA256Sum_of_list (vec_to_list v) = Some v.
Proof.
  unfold SHA256Sum_of_list.
  destruct (decide _) as [H|H]; [|by rewrite length_vec_to_list in H].
  f_equal. apply vec_to_list_inj2.
  transitivity (vec_to_list (list_to_vec (vec_to_list v)));
    [|apply vec_to_list_to_vec].
  generalize (list_to_vec (vec_to_list v)). revert H.
  generalize (length (vec_to_list v)). intros n H. by destruct H.
Qed.

#[global] Instance SHA256Sum_countable : Countable SHA256Sum | 0 :=
  inj_countable vec_to_list SHA256Sum_of_list SHA256Sum_of_list_to_list.

Record Key := mkKey {
  Hash : SHA256Sum;
  Dev : Z;
  Ino : Z
}.

#[global] Instance Key_eq_dec : EqDecision Key.
Proof. solve_decision. Defined.

#[global] Instance Key_countable : Countable Key :=
  inj_countable' (fun k => (Hash k, Dev k, Ino k))
                 (fun t => mkKey t.1.1 t.1.2 t.2)
                 (fun k => match k with mkKey _ _ _ => eq_refl end).

Definition CompareByte (a b : Z) : Z :=
  if a <? b then -1 else if b <? a then 1 else 0.

Definition CompareUint64 (a b : Z) : Z :=
  if a <? b then -1 else if b <? a then 1 else 0.

(** The loop of [CompareSHA256] over the bytes of the two arrays. *)
Fixpoint CompareBytes (a b : list Z) : Z :=
  match a, b with
  | ai :: a', bi :: b' =>
      let cmp := CompareByte ai bi in
      if negb (cmp =? 0) then cmp else CompareBytes a' b'
  | _, _ => 0
  end.

Definition CompareSHA256 (a b : SHA256Sum) : Z :=
  CompareBytes (vec_to_list a) (vec_to_list b).

Definition CompareTo (key other : Key) : Z :=
  let cmp := CompareSHA256 (Hash key) (Hash other) in
  let cmp := if cmp =? 0 then CompareUint64 (Dev key) (Dev other) else cmp in
  let cmp := if cmp =? 0 then CompareUint64 (Ino key) (Ino other) else cmp in
  cmp.

Definition KeyList_Less (a b : Key) : bool := CompareTo a b <? 0.

Definition SHA256List_Less (a b : SHA256Sum) : bool := CompareSHA256 a b <? 0.

(** [sort.Strings] orders Go strings byte by byte. *)
Definition string_Less (a b : string) : bool := String.ltb a b.

(** What [ScanFile] holds when it records a file: [item.Path],
    [md.SHA256], [item.Dev] and [item.Ino]. *)
Record Scanned := mkScanned {
  sPath : string;
  sHash : SHA256Sum;
  sDev : Z;
  sIno : Z
}.

Definition key_of (f : Scanned) : Key := mkKey (sHash f) (sDev f) (sIno f).

(** The last lines of [ScanFile]: the path joins the list of its key. *)
Definition record_file (seen : gmap Key (list string)) (f : Scanned)
  : gmap Key (list string) :=
  let key := key_of f in
  let list := default [] (seen !! key) in
  <[key := list ++ [sPath f]]> seen.

(** The map [seen] after a scan that recorded [files] in this order. *)
Definition scan (files : list Scanned) : gmap Key (list string) :=
  foldl record_file ∅ files.

(** The paths recorded under a key, in the order of the scan. *)
Definition paths_of (k : Key) (files : list Scanned) : list string :=
  sPath <$> filter (fun f => key_of f = k) files.

Section Main.

Variable sort_Sort : forall A, (A -> A -> bool) -> list A -> list A.

(** The path a key contributes: the first of its paths once sorted. *)
Definition rep_of (seen : gmap Key (list string)) (key : Key) : string :=
  hd ""%string (sort_Sort string string_Less (default [] (seen !! key))).

(** The first loop of [main] over the sorted keys: each key gives its
    smallest path to the list of its digest.  [subPaths[0]] of an empty
    list is a panic. *)
Definition collapse_step (seen : gmap Key (list string))
    (acc : Res (gmap SHA256Sum (list string))) (key : Key)
  : Res (gmap SHA256Sum (list string)) :=
  run seenByHash <-- acc next
  let subPaths := sort_Sort string string_Less (default [] (seen !! key)) in
  match subPaths with
  | [] => Panicked
  | first :: _ =>
      let paths := default [] (seenByHash !! Hash key) in
      Ret (<[Hash key := paths ++ [first]]> seenByHash)
  end.

Definition collapse (seen : gmap Key (list string)) (keys : list Key)
  : Res (gmap SHA256Sum (list string)) :=
  foldl (collapse_step seen) (Ret ∅) keys.

(** The second loop: the lists of two paths or more, in the order of
    their digests.  Each group carries its digest here; [results] drops
    it. *)
Definition groups (seenByHash : gmap SHA256Sum (list string))
    (hashes : list SHA256Sum) : list (SHA256Sum * list string) :=
  filter (fun g => (1 < length g.2)%nat)
         (map (fun hash => (hash, default [] (seenByHash !! hash))) hashes).

(** [main] from the end of the scan to [results].  The keys of a Go map
    come in no fixed order; they are sorted before use. *)
Definition main_groups (seen : gmap Key (list string))
  : Res (list (SHA256Sum * list string)) :=
  let keys := sort_Sort Key KeyList_Less (map_to_list seen).*1 in
  run seenByHash <-- collapse seen keys next
  let hashes := sort_Sort SHA256Sum SHA256List_Less (map_to_list seenByHash).*1 in
  Ret (groups seenByHash hashes).

Definition main_results (seen : gmap Key (list string))
  : Res (list (list string)) :=
  run gs <-- main_groups seen next Ret (gs.*2).

End Main.

End ScanByInode.

(** ** cmd/clean-duplicate-files: choosing the survivor of a group *)

Module CleanDuplicateFiles.

Import ItemPkg.

(** [cmp.Compare] on integers and on strings. *)
Definition cmp_Compare (a b : Z) : Z :=
  if a <? b then -1 else if b <? a then 1 else 0.

Definition cmp_Compare_string (a b : string) : Z :=
  match String.compare a b with
  | Lt => -1
  | Eq => 0
  | Gt => 1
  end.

Definition CompareItems (a b : Item) : Z :=
  let order := cmp_Compare (Priority a) (Priority b) in
  let order := if order =? 0 then - cmp_Compare (Nlink a) (Nlink b) else order in
  let order := if order =? 0 then cmp_Compare (Time a) (Time b) else order in
  let order := if order =? 0 then cmp_Compare_string (Path a) (Path b) else order in
  order.

Definition Items_Less (a b : Item) : bool := CompareItems a b <? 0.

(** The order of the specification: priority rank ascending, then
    hardlink count descending, then modification time ascending, then
    path ascending. *)
Definition spec_before (a b : Item) : Prop :=
  Priority a < Priority b
  \/ (Priority a = Priority b
      /\ (Nlink a > Nlink b
          \/ (Nlink a = Nlink b
              /\ (Time a < Time b
                  \/ (Time a = Time b
                      /\ String.compare (Path a) (Path b) <> Gt))))).

(** [os.SameFile] on the two [FileInfo] values: same device and same
    inode. *)
Definition os_SameFile (a b : Item) : bool :=
  (Dev a =? Dev b) && (Ino a =? Ino b).

(** How [processBatch] ends: it returns, with or without a survivor; or
    it exits after a link and a symlink both failed; or it panics. *)
Inductive BatchEnd :=
| Returned (survivor : option Item) (replaced : list string)
| Fatal (survivor : Item) (replaced : list string) (failed : string)
| Panic.

(** The loop that looks for the survivor from [index] on: the first
    item that is not a symlink, with its position. *)
Fixpoint pick_best (items : list Item) (index : nat) : option (nat * Item) :=
  match items with
  | [] => None
  | best :: rest =>
      if negb (IsSymlink best) then Some (index, best)
      else pick_best rest (S index)
  end.

Section ProcessBatch.

Variable sort_Sort : forall A, (A -> A -> bool) -> list A -> list A.

(** The file system as the replacement engine uses it.  [Open] is the
    [Open] of this command, [None] for its nil result; [tryLink] and
    [trySymlink] change the file system and report success. *)
Variable FS : Type.
Variable Open : string -> option Item.
Variable tryLink trySymlink : string -> string -> FS -> bool * FS.

(** The last loop of [processBatch], over the items at positions
    [index] and up.  [it == best] compares pointers: it holds at the
    position of the survivor only. *)
Fixpoint replace_loop (best : Item) (bestIndex : nat) (items : list Item)
    (index : nat) (replaced : list string) (fs : FS) : BatchEnd * FS :=
  match items with
  | [] => (Returned (Some best) replaced, fs)
  | it :: rest =>
      if (index =? bestIndex)%nat
      then replace_loop best bestIndex rest (S index) replaced fs
      else if os_SameFile it best && negb (IsSymlink it)
      then replace_loop best bestIndex rest (S index) replaced fs
      else
        let '(ok, fs) := tryLink (Path best) (Path it) fs in
        let '(ok, fs) := if negb ok then trySymlink (Path best) (Path it) fs
                         else (ok, fs) in
        if negb ok then (Fatal best replaced (Path it), fs)
        else replace_loop best bestIndex rest (S index) (replaced ++ [Path it]) fs
  end.

(** [processBatch].  An item that failed to open is a nil pointer in
    [items]; sorting two items or more compares every one of them, and
    [CompareItems] reads the fields of both its arguments, so a nil
    item is a nil dereference.  The deferred [Close] calls are left
    out. *)
Definition processBatch (paths : list string) (fs : FS) : BatchEnd * FS :=
  if (length paths <=? 1)%nat then (Returned None [], fs) else
  let opened := map Open paths in
  match mapM id opened with
  | None => (Panic, fs)
  | Some items =>
      let items := sort_Sort Item Items_Less items in
      match pick_best items 0 with
      | None => (Returned None [], fs)
      | Some (index, best) => replace_loop best index items 0 [] fs
      end
  end.

End ProcessBatch.

(** The survivor a batch ended with, if any. *)
Definition survivor_of (e : BatchEnd) : option Item :=
  match e with
  | Returned s _ => s
  | Fatal s _ _ => Some s
  | Panic => None
  end.

Definition replaced_by (e : BatchEnd) : list string :=
  match e with
  | Returned _ r => r
  | Fatal _ r _ => r
  | Panic => []
  end.

End CleanDuplicateFiles.

(** ** unicode/utf8, regexp.QuoteMeta *)

Module Utf8.

Definition RuneError : Z := 65533.

(** The entry of the table [first] for a leading byte: [None] for an
    ASCII or an invalid byte, else the length of the sequence and the
    range its second byte must lie in. *)
Definition first (s0 : Z) : option (nat * Z * Z) :=
  if s0 <? 194 then None
  else if s0 <=? 223 then Some (2%nat, 128, 191)
  else if s0 =? 224 then Some (3%nat, 160, 191)
  else if s0 <=? 236 then Some (3%nat, 128, 191)
  else if s0 =? 237 then Some (3%nat, 128, 159)
  else if s0 <=? 239 then Some (3%nat, 128, 191)
  else if s0 =? 240 then Some (4%nat, 144, 191)
  else if s0 <=? 243 then Some (4%nat, 128, 191)
  else if s0 =? 244 then Some (4%nat, 128, 143)
  else None.

Definition continuation (b : Z) : bool := (128 <=? b) && (b <=? 191).

(** [utf8.DecodeRuneInString]: the rune and its width in bytes. *)
Definition DecodeRuneInString (s : list Z) : Z * nat :=
  match s with
  | [] => (RuneError, 0%nat)
  | s0 :: rest =>
      match first s0 with
      | None => if s0 <? 128 then (s0, 1%nat) else (RuneError, 1%nat)
      | Some (sz, lo, hi) =>
          if (length s <? sz)%nat then (RuneError, 1%nat) else
          match rest with
          | [] => (RuneError, 1%nat)
          | s1 :: rest1 =>
              if (s1 <? lo) || (hi <? s1) then (RuneError, 1%nat)
              else if (sz <=? 2)%nat
              then (Z.lor (Z.shiftl (Z.land s0 31) 6) (Z.land s1 63), 2%nat)
              else
                match rest1 with
                | [] => (RuneError, 1%nat)
                | s2 :: rest2 =>
                    if negb (continuation s2) then (RuneError, 1%nat)
                    else if (sz <=? 3)%nat
                    then (Z.lor (Z.shiftl (Z.land s0 15) 12)
                            (Z.lor (Z.shiftl (Z.land s1 63) 6) (Z.land s2 63)),
                          3%nat)
                    else
                      match rest2 with
                      | [] => (RuneError, 1%nat)
                      | s3 :: _ =>
                          if negb (continuation s3) then (RuneError, 1%nat)
                          else (Z.lor (Z.shiftl (Z.land s0 7) 18)
                                  (Z.lor (Z.shiftl (Z.land s1 63) 12)
                                     (Z.lor (Z.shiftl (Z.land s2 63) 6)
                                        (Z.land s3 63))),
                                4%nat)
                      end
                end
          end
      end
  end.

(** [utf8.AppendRune]. *)
Definition AppendRune (p : list Z) (r : Z) : list Z :=
  let three r :=
    [Z.lor 224 (Z.land (Z.shiftr r 12) 255);
     Z.lor 128 (Z.land (Z.shiftr r 6) 63);
     Z.lor 128 (Z.land r 63)] in
  if (0 <=? r) && (r <=? 127) then p ++ [r]
  else if (0 <=? r) && (r <=? 2047)
  then p ++ [Z.lor 192 (Z.land (Z.shiftr r 6) 255); Z.lor 128 (Z.land r 63)]
  else if (r <? 0) || (1114111 <? r) || ((55296 <=? r) && (r <=? 57343))
  then p ++ three RuneError
  else if r <=? 65535 then p ++ three r
  else p ++ [Z.lor 240 (Z.land (Z.shiftr r 18) 255);
             Z.lor 128 (Z.land (Z.shiftr r 12) 63);
             Z.lor 128 (Z.land (Z.shiftr r 6) 63);
             Z.lor 128 (Z.land r 63)].

(** The bytes [regexp.QuoteMeta] escapes. *)
Definition special (b : Z) : bool :=
  bool_decide (b ∈ bytes_of_string "\.+*?()|[]{}^$").

(** [regexp.QuoteMeta]. *)
Fixpoint QuoteMeta (s : list Z) : list Z :=
  match s with
  | [] => []
  | b :: s' => (if special b then [92; b] else [b]) ++ QuoteMeta s'
  end.

End Utf8.

(** ** internal/glob: the pattern compiler *)

Module Glob.

Import Utf8.

Definition rxSlash : list Z := bytes_of_string "/+".
Definition rxQuestion : list Z := bytes_of_string "[^/]".
Definition rxStar : list Z := bytes_of_string "[^/]*".
Definition rxStarStar : list Z := bytes_of_string ".*".

Inductive compilerState :=
| stateDone
| stateReady
| stateSlash
| stateOpenBracket
| stateQuestion
| stateStar
| stateOpenBrace
| stateComma
| stateCloseBrace.

(** The errors the compiler stores in [gc.err]. *)
Inductive error :=
| io_EOF
| errBackslash
| errInvalidUTF8
| errDepth (depth : Z)
| errCharacterMatch.

#[global] Instance error_eq_dec : EqDecision error.
Proof. solve_decision. Defined.

Record Compiler := mkCompiler {
  err : option error;
  input : list Z;
  output : list Z;
  depth : Z;
  char : Z;
  hasChar : bool;
  state : compilerState
}.

Definition set_state (s : compilerState) (gc : Compiler) : Compiler :=
  mkCompiler (err gc) (input gc) (output gc) (depth gc) (char gc) (hasChar gc) s.
Definition set_output (o : list Z) (gc : Compiler) : Compiler :=
  mkCompiler (err gc) (input gc) o (depth gc) (char gc) (hasChar gc) (state gc).
Definition set_depth (d : Z) (gc : Compiler) : Compiler :=
  mkCompiler (err gc) (input gc) (output gc) d (char gc) (hasChar gc) (state gc).

(** [uint] arithmetic. *)
Definition wrap_uint (z : Z) : Z := z mod 2 ^ 64.

Definition peekRune (gc : Compiler) : Z * bool * Compiler :=
  let gc :=
    if bool_decide (err gc = None) && negb (hasChar gc) then
      let '(ch, size) := DecodeRuneInString (input gc) in
      if (1 <? size)%nat
         || ((size =? 1)%nat && (0 <=? ch) && negb (ch =? RuneError))
      then mkCompiler (err gc) (drop size (input gc)) (output gc) (depth gc)
                      ch true (state gc)
      else gc
    else gc in
  (char gc, hasChar gc, gc).

(** [consumeRune]: each of its three checks panics. *)
Definition consumeRune (expect : Z) (gc : Compiler) : Res Compiler :=
  if negb (bool_decide (err gc = None)) then Panicked else
  let '(ch, ok, gc) := peekRune gc in
  if negb ok then Panicked else
  if negb (ch =? expect) then Panicked else
  Ret (mkCompiler (err gc) (input gc) (output gc) (depth gc) (-1) false (state gc)).

Definition fail (e : error) (gc : Compiler) : Res (bool * Compiler) :=
  if negb (bool_decide (err gc = None)) then Panicked else
  Ret (false, mkCompiler (Some e) [] (output gc) 0 (-1) false stateDone).

(** [requireEOF].  The message for invalid UTF-8 takes [gc.input[:8]],
    which is out of range for an input shorter than eight bytes. *)
Definition requireEOF (gc : Compiler) : Res (bool * Compiler) :=
  if negb (bool_decide (err gc = None)) then Ret (false, gc) else
  if (0 <? length (input gc))%nat then
    if (length (input gc) <? 8)%nat then Panicked else fail errInvalidUTF8 gc
  else if 0 <? depth gc then fail (errDepth (depth gc)) gc
  else fail io_EOF (set_output (output gc ++ [36]) gc).

Definition onReady (gc : Compiler) : Res (bool * Compiler) :=
  let '(ch, ok, gc) := peekRune gc in
  if negb ok then requireEOF gc else
  if ch =? 92 then fail errBackslash gc
  else if ch =? 47 then Ret (true, set_state stateSlash gc)
  else if ch =? 42 then Ret (true, set_state stateStar gc)
  else if ch =? 63 then Ret (true, set_state stateQuestion gc)
  else if ch =? 91 then Ret (true, set_state stateOpenBracket gc)
  else if ch =? 123 then Ret (true, set_state stateOpenBrace gc)
  else if (ch =? 44) && (0 <? depth gc) then Ret (true, set_state stateComma gc)
  else if (ch =? 125) && (0 <? depth gc) then Ret (true, set_state stateCloseBrace gc)
  else
    run gc <-- consumeRune ch gc next
    let quoted := QuoteMeta (AppendRune [] ch) in
    Ret (true, set_output (output gc ++ quoted) gc).

(** The loop of [onSlash] over the slashes that follow the first. *)
Fixpoint onSlash_loop (fuel : nat) (gc : Compiler) : Res Compiler :=
  match fuel with
  | O => Ret gc
  | S fuel' =>
      let '(ch, ok, gc) := peekRune gc in
      if ok && (ch =? 47) then
        run gc <-- consumeRune ch gc next onSlash_loop fuel' gc
      else Ret gc
  end.

Definition onSlash (gc : Compiler) : Res (bool * Compiler) :=
  run gc <-- consumeRune 47 gc next
  run gc <-- onSlash_loop (S (length (input gc))) gc next
  Ret (true, set_state stateReady (set_output (output gc ++ rxSlash) gc)).

(** The loop of [onBracket], up to the closing bracket. *)
Fixpoint onBracket_loop (fuel : nat) (inEscape : bool) (gc : Compiler)
  : Res (bool * Compiler) :=
  match fuel with
  | O => Ret (true, set_state stateReady gc)
  | S fuel' =>
      let '(ch, ok, gc) := peekRune gc in
      if negb ok then fail errCharacterMatch gc else
      if inEscape then
        run gc <-- consumeRune ch gc next
        onBracket_loop fuel' false
          (set_output (AppendRune (output gc ++ [92]) ch) gc)
      else if ch =? 92 then
        run gc <-- consumeRune 92 gc next onBracket_loop fuel' true gc
      else if ch =? 93 then
        run gc <-- consumeRune 93 gc next
        Ret (true, set_state stateReady (set_output (output gc ++ [93]) gc))
      else
        run gc <-- consumeRune ch gc next
        onBracket_loop fuel' false (set_output (AppendRune (output gc) ch) gc)
  end.

Definition onBracket (gc : Compiler) : Res (bool * Compiler) :=
  run gc <-- consumeRune 91 gc next
  let gc := set_output (output gc ++ [91]) gc in
  let '(ch, ok, gc) := peekRune gc in
  run gc <-- (if ok && (ch =? 94)
              then run gc <-- consumeRune 94 gc next
                   Ret (set_output (output gc ++ [94]) gc)
              else Ret gc) next
  onBracket_loop (S (S (length (input gc)))) false gc.

Definition onQuestion (gc : Compiler) : Res (bool * Compiler) :=
  run gc <-- consumeRune 63 gc next
  Ret (true, set_state stateReady (set_output (output gc ++ rxQuestion) gc)).

Definition onStar (gc : Compiler) : Res (bool * Compiler) :=
  run gc <-- consumeRune 42 gc next
  let '(ch, ok, gc) := peekRune gc in
  run r <-- (if ok && (ch =? 42)
             then run gc <-- consumeRune 42 gc next Ret (rxStarStar, gc)
             else Ret (rxStar, gc)) next
  let '(pattern, gc) := r in
  Ret (true, set_state stateReady (set_output (output gc ++ pattern) gc)).

Definition onOpenBrace (gc : Compiler) : Res (bool * Compiler) :=
  run gc <-- consumeRune 123 gc next
  let gc := set_output (output gc ++ [40; 63; 58]) gc in
  let gc := set_depth (wrap_uint (depth gc + 1)) gc in
  Ret (true, set_state stateReady gc).

Definition onComma (gc : Compiler) : Res (bool * Compiler) :=
  run gc <-- consumeRune 44 gc next
  Ret (true, set_state stateReady (set_output (output gc ++ [124]) gc)).

Definition onCloseBrace (gc : Compiler) : Res (bool * Compiler) :=
  run gc <-- consumeRune 125 gc next
  let gc := set_output (output gc ++ [41]) gc in
  let gc := set_depth (wrap_uint (depth gc - 1)) gc in
  Ret (true, set_state stateReady gc).

Definition step (gc : Compiler) : Res (bool * Compiler) :=
  match state gc with
  | stateDone => Ret (false, gc)
  | stateReady => onReady gc
  | stateSlash => onSlash gc
  | stateOpenBracket => onBracket gc
  | stateQuestion => onQuestion gc
  | stateStar => onStar gc
  | stateOpenBrace => onOpenBrace gc
  | stateComma => onComma gc
  | stateCloseBrace => onCloseBrace gc
  end.

(** [Reset] of a fresh compiler. *)
Definition Reset (input : list Z) : Compiler :=
  mkCompiler None input [94] 0 (-1) false stateReady.

(** [Run]: at most [fuel] steps; [None] when they do not suffice. *)
Fixpoint Run (fuel : nat) (gc : Compiler) : Res (option Compiler) :=
  match fuel with
  | O => Ret None
  | S fuel' =>
      run r <-- step gc next
      let '(continue, gc) := r in
      if continue then Run fuel' gc else Ret (Some gc)
  end.

(** What [Compile] returns: what [regexp.Compile] makes of a pattern,
    or no expression and an error. *)
Inductive Compiled :=
| FromRegexp (pattern : list Z)
| Failed (e : error)
| Unfinished.

(** [(gc *Compiler) Compile]. *)
Definition Compiler_Compile (gc : Compiler) : Res Compiled :=
  match err gc with
  | None => Panicked
  | Some io_EOF => Ret (FromRegexp (output gc))
  | Some e => Ret (Failed e)
  end.

Section Compile.

(** [norm.NFD.String]. *)
Variable NFD : list Z -> list Z.

Definition HasPrefix_caret (s : list Z) : bool :=
  match s with
  | 94 :: _ => true
  | _ => false
  end.

(** [Compile].  Two steps for each byte of the input, and two more,
    are enough for [Run] to finish. *)
Definition Compile (input : list Z) : Res Compiled :=
  let input := NFD input in
  if HasPrefix_caret input then Ret (FromRegexp input) else
  let gc := Reset input in
  run final <-- Run (2 * length input + 2) gc next
  match final with
  | None => Ret Unfinished
  | Some gc => Compiler_Compile gc
  end.

End Compile.

(** *** The grammar of the specification, on decoded text *)

(** The next rune of the input and what follows it, if the input
    starts with well-formed UTF-8. *)
Definition next_rune (s : list Z) : option (Z * list Z) :=
  let '(ch, size) := DecodeRuneInString s in
  if (1 <? size)%nat || ((size =? 1)%nat && (0 <=? ch) && negb (ch =? RuneError))
  then Some (ch, drop size s) else None.

(** The runes of the input up to its end or to the first byte that is
    not well-formed, and whether the end was reached. *)
Fixpoint decode_all (fuel : nat) (s : list Z) : list Z * bool :=
  match fuel with
  | O => ([], bool_decide (s = []))
  | S fuel' =>
      match next_rune s with
      | None => ([], bool_decide (s = []))
      | Some (ch, rest) =>
          let '(rs, clean) := decode_all fuel' rest in (ch :: rs, clean)
      end
  end.

Inductive scan_mode := Outside | ClassFirst | InClass | InEscape.

Inductive scan_result :=
| EndOfInput (depth : nat)
| UnterminatedClass
| StrayBackslash
| InvalidText.

(** Reading a pattern as the grammar describes it: a class runs from
    [[] to the next []] that no backslash escapes, and may start with
    [^]; outside a class [{] opens a group and [}] closes the innermost
    open one. *)
Fixpoint scan (m : scan_mode) (d : nat) (rs : list Z) (clean : bool)
  : scan_result :=
  match rs with
  | [] =>
      match m with
      | Outside => if clean then EndOfInput d else InvalidText
      | _ => UnterminatedClass
      end
  | ch :: rs' =>
      match m with
      | Outside =>
          if ch =? 92 then StrayBackslash
          else if ch =? 91 then scan ClassFirst d rs' clean
          else if ch =? 123 then scan Outside (S d) rs' clean
          else if (ch =? 125) && (0 <? d)%nat then scan Outside (pred d) rs' clean
          else scan Outside d rs' clean
      | ClassFirst =>
          if ch =? 94 then scan InClass d rs' clean
          else if ch =? 92 then scan InEscape d rs' clean
          else if ch =? 93 then scan Outside d rs' clean
          else scan InClass d rs' clean
      | InClass =>
          if ch =? 92 then scan InEscape d rs' clean
          else if ch =? 93 then scan Outside d rs' clean
          else scan InClass d rs' clean
      | InEscape => scan InClass d rs' clean
      end
  end.

Definition scan_pattern (s : list Z) : scan_result :=
  let '(rs, clean) := decode_all (length s) s in scan Outside 0 rs clean.

(** The runes of an input and whether it ends well, as a relation. *)
Inductive decodes : list Z -> list Z -> bool -> Prop :=
| decodes_end s :
    next_rune s = None -> decodes s [] (bool_decide (s = []))
| decodes_step s ch rest rs clean :
    next_rune s = Some (ch, rest) -> decodes rest rs clean ->
    decodes s (ch :: rs) clean.

(** A compiler that has not failed: its state, depth, output and
    input, and the rune it has peeked at, if any. *)
Definition cfg (st : compilerState) (d : Z) (out inp : list Z)
    (pend : option Z) : Compiler :=
  mkCompiler None inp out d (default (-1) pend)
             (match pend with Some _ => true | None => false end) st.

(** The runes the compiler has still to read. *)
Definition remaining (inp : list Z) (pend : option Z) (rs : list Z)
    (clean : bool) : Prop :=
  match pend with
  | None => decodes inp rs clean
  | Some c => exists rs', rs = c :: rs' /\ decodes inp rs' clean
  end.

Definition class_mode (esc : bool) : scan_mode :=
  if esc then InEscape else InClass.

(** How a run of the compiler and the reading of the grammar go
    together: the run ends with [io.EOF] exactly on a text that ends
    outside a class with every group closed. *)
Definition agrees (r : Res (option Compiler)) (s : scan_result) : Prop :=
  match s with
  | EndOfInput O => exists final, r = Ret (Some final) /\ err final = Some io_EOF
  | EndOfInput (S _) | UnterminatedClass | StrayBackslash =>
      exists final e,
        r = Ret (Some final) /\ err final = Some e /\ e <> io_EOF
  | InvalidText =>
      r = Panicked
      \/ exists final e,
           r = Ret (Some final) /\ err final = Some e /\ e <> io_EOF
  end.

End Glob.

(** ** regexp: the part of the syntax the compiler writes *)

Module Regexp.

Import Utf8.

(** Expressions over runes.  A class is a list of ranges, taken as it
    is or complemented. *)
Inductive re :=
| Never
| Eps
| Class (neg : bool) (ranges : list (Z * Z))
| Cat (a b : re)
| Alt (a b : re)
| Star (a : re).

Definition lit (c : Z) : re := Class false [(c, c)].

(** [.] matches any rune but a newline. *)
Definition dot : re := Class true [(10, 10)].

Definition in_ranges (c : Z) (ranges : list (Z * Z)) : bool :=
  existsb (fun r => (fst r <=? c) && (c <=? snd r)) ranges.

Fixpoint nullable (r : re) : bool :=
  match r with
  | Never => false
  | Eps => true
  | Class _ _ => false
  | Cat a b => nullable a && nullable b
  | Alt a b => nullable a || nullable b
  | Star _ => true
  end.

Definition cat (a b : re) : re :=
  match a, b with
  | Never, _ => Never
  | _, Never => Never
  | Eps, _ => b
  | _, Eps => a
  | _, _ => Cat a b
  end.

Definition alt (a b : re) : re :=
  match a, b with
  | Never, _ => b
  | _, Never => a
  | _, _ => Alt a b
  end.

(** What is left of [r] to match after the rune [c]. *)
Fixpoint deriv (c : Z) (r : re) : re :=
  match r with
  | Never => Never
  | Eps => Never
  | Class neg ranges => if xorb neg (in_ranges c ranges) then Eps else Never
  | Cat a b =>
      alt (cat (deriv c a) b) (if nullable a then deriv c b else Never)
  | Alt a b => alt (deriv c a) (deriv c b)
  | Star a => cat (deriv c a) (Star a)
  end.

Definition matches (r : re) (text : list Z) : bool :=
  nullable (foldl (fun r c => deriv c r) r text).

Definition is_meta (c : Z) : bool :=
  bool_decide (c ∈ bytes_of_string "\.+*?()|[]{}^$").

Definition is_repeat (c : Z) : bool := (c =? 42) || (c =? 43) || (c =? 63).

(** A repetition operator after an atom.  A second operator in a row
    is outside the part of the syntax modelled here. *)
Definition postfix (a : re) (rs : list Z) : option (re * list Z) :=
  match rs with
  | op :: rs' =>
      if is_repeat op then
        match rs' with
        | op2 :: _ => if is_repeat op2 then None else
            Some (if op =? 42 then Star a
                  else if op =? 43 then Cat a (Star a) else Alt Eps a, rs')
        | [] =>
            Some (if op =? 42 then Star a
                  else if op =? 43 then Cat a (Star a) else Alt Eps a, rs')
        end
      else Some (a, rs)
  | [] => Some (a, rs)
  end.

(** One member of a class: a rune, or a backslash and a punctuation
    rune. *)
Definition class_char (rs : list Z) : option (Z * list Z) :=
  match rs with
  | 92 :: c :: rs' => if is_meta c || (c =? 45) then Some (c, rs') else None
  | 92 :: [] => None
  | c :: rs' => Some (c, rs')
  | [] => None
  end.

(** The members of a class up to its closing bracket.  A bracket that
    comes first is a member. *)
Fixpoint parse_class (fuel : nat) (rs : list Z) (first : bool)
    (acc : list (Z * Z)) : option (list (Z * Z) * list Z) :=
  match fuel with
  | O => None
  | S fuel' =>
      match rs with
      | [] => None
      | 93 :: rs' =>
          if first then parse_class fuel' rs' false (acc ++ [(93, 93)])
          else Some (acc, rs')
      | 91 :: 58 :: _ => None
      | _ =>
          match class_char rs with
          | None => None
          | Some (lo, rest) =>
              match rest with
              | 45 :: 93 :: _ => parse_class fuel' rest false (acc ++ [(lo, lo)])
              | 45 :: rest1 =>
                  match class_char rest1 with
                  | None => None
                  | Some (hi, rest2) =>
                      if hi <? lo then None
                      else parse_class fuel' rest2 false (acc ++ [(lo, hi)])
                  end
              | _ => parse_class fuel' rest false (acc ++ [(lo, lo)])
              end
          end
      end
  end.

(** Alternations, concatenations and atoms, up to a closing
    parenthesis or the end. *)
Fixpoint parse_alt (fuel : nat) (rs : list Z) : option (re * list Z) :=
  match fuel with
  | O => None
  | S fuel' =>
      match parse_cat fuel' rs Eps with
      | Some (r, 124 :: rest) =>
          match parse_alt fuel' rest with
          | Some (r2, rest2) => Some (Alt r r2, rest2)
          | None => None
          end
      | other => other
      end
  end
with parse_cat (fuel : nat) (rs : list Z) (acc : re) : option (re * list Z) :=
  match fuel with
  | O => None
  | S fuel' =>
      match rs with
      | [] => Some (acc, [])
      | c :: _ =>
          if (c =? 124) || (c =? 41) then Some (acc, rs) else
          match parse_atom fuel' rs with
          | None => None
          | Some (a, rest) =>
              match postfix a rest with
              | None => None
              | Some (a, rest) => parse_cat fuel' rest (cat acc a)
              end
          end
      end
  end
with parse_atom (fuel : nat) (rs : list Z) : option (re * list Z) :=
  match fuel with
  | O => None
  | S fuel' =>
      match rs with
      | 40 :: 63 :: 58 :: rs' =>
          match parse_alt fuel' rs' with
          | Some (r, 41 :: rest) => Some (r, rest)
          | _ => None
          end
      | 91 :: 94 :: rs' =>
          match parse_class fuel' rs' true [] with
          | Some (ranges, rest) => Some (Class true ranges, rest)
          | None => None
          end
      | 91 :: rs' =>
          match parse_class fuel' rs' true [] with
          | Some (ranges, rest) => Some (Class false ranges, rest)
          | None => None
          end
      | 46 :: rs' => Some (dot, rs')
      | 92 :: c :: rs' => if is_meta c then Some (lit c, rs') else None
      | c :: rs' => if is_meta c then None else Some (lit c, rs')
      | [] => None
      end
  end.

(** The runes of a text that is well-formed UTF-8. *)
Definition runes (s : list Z) : option (list Z) :=
  let '(rs, clean) := Glob.decode_all (length s) s in
  if clean then Some rs else None.

(** [regexp.Compile] on a pattern of the form [^...$] whose body has
    no alternation outside a group: the expression the whole text has
    to match.  [None] is a pattern outside this part of the syntax. *)
Definition Compile (pattern : list Z) : option re :=
  match runes pattern with
  | Some (94 :: body) =>
      match parse_cat (S (length body)) (removelast body) Eps with
      | Some (r, []) => if bool_decide (last body = Some 36) then Some r else None
      | _ => None
      end
  | _ => None
  end.

(** [MatchString] of the expression compiled from [pattern]. *)
Definition MatchString (pattern : list Z) (s : list Z) : option bool :=
  match Compile pattern, runes s with
  | Some r, Some text => Some (matches r text)
  | _, _ => None
  end.

End Regexp.

(** ** Rules: a compiled pattern matched against a normalized path *)

Module Rules.

(** [Rule.Matches] for the pattern [glob.Compile] returned. *)
Definition Matches (compiled : Res Glob.Compiled) (path : list Z) : option bool :=
  match compiled with
  | Ret (Glob.FromRegexp pattern) => Regexp.MatchString pattern path
  | _ => None
  end.

End Rules.

(** ** internal/stack *)

Module StackPkg.

(** [Stack[T]]: a slice whose last element is the top.  [Pop] also
    writes the zero value into the slot it gives up, which lies past
    the end of the slice it leaves. *)
Definition Stack (T : Type) : Type := list T.

Definition IsEmpty {T} (st : Stack T) : bool := (length st <=? 0)%nat.

Definition Len {T} (st : Stack T) : Z := Z.of_nat (length st).

Definition Peek {T} (st : Stack T) : Res T :=
  if IsEmpty st then Panicked else
  match st !! (length st - 1)%nat with
  | Some item => Ret item
  | None => Panicked
  end.

Definition Push {T} (st : Stack T) (item : T) : Stack T := st ++ [item].

Definition Pop {T} (st : Stack T) : Res (T * Stack T) :=
  if IsEmpty st then Panicked else
  let n := (length st - 1)%nat in
  match st !! n with
  | Some item => Ret (item, take n st)
  | None => Panicked
  end.

(** [n] calls of [Pop] in a row: the items in the order they came off,
    and the stack that is left. *)
Fixpoint Pop_n {T} (n : nat) (st : Stack T) : Res (list T * Stack T) :=
  match n with
  | O => Ret ([], st)
  | S k =>
      run r <-- Pop st next
      run r' <-- Pop_n k r.2 next
      Ret (r.1 :: r'.1, r'.2)
  end.

End StackPkg.

(** ** The rule lists of the two commands *)

Module RuleLists.

Section Rules.

(** A compiled [*regexp.Regexp] and its [MatchString]; paths after
    [glob.Normalize]. *)
Variable Regexp : Type.
Variable MatchString : Regexp -> list Z -> bool.
Variable Normalize : string -> list Z.

(** The [Rule] of cmd/find-duplicate-files; the one of
    cmd/clean-duplicate-files has the pattern only. *)
Record Rule := mkRule {
  Pattern : Regexp;
  Exclude : bool
}.

Definition Matches (rule : Rule) (path : list Z) : bool :=
  MatchString (Pattern rule) path.

(** The loop of [Rules.Priority] from position [i] on. *)
Fixpoint Priority_from (rules : list Regexp) (path : list Z) (i : nat) : nat :=
  match rules with
  | [] => i
  | rule :: rest =>
      if MatchString rule path then i else Priority_from rest path (S i)
  end.

(** [Rules.Priority] of cmd/clean-duplicate-files. *)
Definition Priority (rules : list Regexp) (path : string) : nat :=
  Priority_from rules (Normalize path) 0.

(** The values of the exclude attribute that mean yes. *)
Definition exclude_yes (raw : list Z) : bool :=
  (length raw <=? 0)%nat
  || bool_decide (raw = bytes_of_string "1")
  || bool_decide (raw = bytes_of_string "y")
  || bool_decide (raw = bytes_of_string "yes")
  || bool_decide (raw = bytes_of_string "t")
  || bool_decide (raw = bytes_of_string "true").

(** The loop of [Rules.Exclude] over the rules. *)
Fixpoint Exclude_rules (rules : list Rule) (path : list Z) : bool :=
  match rules with
  | [] => false
  | rule :: rest =>
      if Matches rule path then Exclude rule else Exclude_rules rest path
  end.

(** [Rules.Exclude] of cmd/find-duplicate-files, for an item with the
    attributes [file] and the path [path]. *)
Definition Rules_Exclude (flagNS : string) (rules : list Rule)
    (file : Metadata.xattrs) (path : string) : bool :=
  match Metadata.MaybeFGet file (FindDuplicateFiles.exclude_name flagNS) with
  | Some raw => exclude_yes raw
  | None => Exclude_rules rules (Normalize path)
  end.

End Rules.

Arguments mkRule {Regexp}.
Arguments Pattern {Regexp}.
Arguments Exclude {Regexp}.
Arguments Matches {Regexp}.
Arguments Priority_from {Regexp}.
Arguments Priority {Regexp}.
Arguments Exclude_rules {Regexp}.
Arguments Rules_Exclude {Regexp}.

End RuleLists.

(** ** cmd/find-duplicate-files: the scanner that groups by digest *)

Module ScanByDigest.

Import Metadata ScanByInode.

(** The last lines of [ScanFile]: the path joins the list of its
    digest. *)
Definition record_path (seen : gmap SHA256Sum (list string))
    (hash : SHA256Sum) (path : string) : gmap SHA256Sum (list string) :=
  let list := default [] (seen !! hash) in
  <[hash := list ++ [path]]> seen.

(** The map [seen] after the files of [files], each a digest and a
    path, were recorded in this order. *)
Definition recorded (files : list (SHA256Sum * string))
  : gmap SHA256Sum (list string) :=
  foldl (fun seen f => record_path seen f.1 f.2) ∅ files.

(** The paths recorded with a digest, in the order of the scan. *)
Definition paths_with (h : SHA256Sum) (files : list (SHA256Sum * string))
  : list string :=
  snd <$> filter (fun f => f.1 = h) files.

(** What the type of [meta.SHA256] promises: 32 bytes. *)
Definition sha256_sized (m : Metadata) : Prop := length (SHA256 m) = 32%nat.

Section Scan.

Variable foldUnicode : list Z -> list Z -> bool.
Variables md5sum sha1sum sha256sum : list Z -> list Z.
Variable Regexp : Type.
Variable MatchString : Regexp -> list Z -> bool.
Variable Normalize : string -> list Z.

(** The flags [ScanFile] reads. *)
Record Flags := mkFlags {
  flagRescan : bool;
  flagMinSize : Z;
  flagNS : string;
  flagRules : list (RuleLists.Rule Regexp)
}.

(** [ScanFile] for an item whose handle has the attributes [file] and
    reads as [data]: the map [seen] and the attributes afterwards.
    [meta.SHA256] is an array of 32 bytes; the last case is for a list
    of another length, which the array cannot be. *)
Definition ScanFile (flags : Flags) (seen : gmap SHA256Sum (list string))
    (it : ItemPkg.Item) (file : xattrs) (data : FileReads)
  : Res (gmap SHA256Sum (list string) * xattrs) :=
  if ItemPkg.Size it <? flagMinSize flags then Ret (seen, file) else
  if RuleLists.Rules_Exclude MatchString Normalize (flagNS flags)
       (flagRules flags) file (ItemPkg.Path it)
  then Ret (seen, file) else
  let gNames := FindDuplicateFiles.gNames (flagNS flags) in
  run loaded <-- Load foldUnicode zero file gNames next
  let '(meta, hasAll) := loaded in
  let needRescan := flagRescan flags in
  let needRescan :=
    if negb needRescan && negb hasAll then true else needRescan in
  let needRescan :=
    if negb needRescan && negb (Check meta (ItemPkg.Size it) (ItemPkg.Time it)) then true
    else needRescan in
  let '(meta, hasAll) :=
    if needRescan
    then Compute md5sum sha1sum sha256sum meta data (ItemPkg.Size it) (ItemPkg.Time it)
    else (meta, hasAll) in
  if negb hasAll then Ret (seen, file) else
  let file := Save meta file gNames in
  match SHA256Sum_of_list (SHA256 meta) with
  | Some hash => Ret (record_path seen hash (ItemPkg.Path it), file)
  | None => Ret (seen, file)
  end.

End Scan.

Arguments mkFlags {Regexp}.
Arguments flagRescan {Regexp}.
Arguments flagMinSize {Regexp}.
Arguments flagNS {Regexp}.
Arguments flagRules {Regexp}.
Arguments ScanFile foldUnicode md5sum sha1sum sha256sum {Regexp}.

Section Main.

Variable sort_Sort : forall A, (A -> A -> bool) -> list A -> list A.

(** The loop of [main] over the sorted digests: the lists of two paths
    or more. *)
Fixpoint results_loop (seen : gmap SHA256Sum (list string))
    (hashes : list SHA256Sum) (results : list (list string))
  : list (list string) :=
  match hashes with
  | [] => results
  | hash :: rest =>
      let paths := default [] (seen !! hash) in
      if (length paths <=? 1)%nat then results_loop seen rest results
      else results_loop seen rest (results ++ [paths])
  end.

(** [main] from the end of the scan to [results].  The digests come
    out of the map in no fixed order and are sorted. *)
Definition main_results (seen : gmap SHA256Sum (list string))
  : list (list string) :=
  let hashes := sort_Sort SHA256Sum SHA256List_Less (map_to_list seen).*1 in
  results_loop seen hashes [].

End Main.

End ScanByDigest.

(** ** cmd/clean-duplicate-files: the members a batch replaces *)

Module Replacement.

Import ItemPkg CleanDuplicateFiles.

(** The paths of the items at positions [index] and up that are
    neither the survivor nor a file, not a symlink, that is already the
    survivor's file: what the last loop of [processBatch] hands to
    [tryLink], in this order. *)
Fixpoint candidates (best : Item) (bestIndex : nat) (items : list Item)
    (index : nat) : list string :=
  match items with
  | [] => []
  | it :: rest =>
      if (index =? bestIndex)%nat || (os_SameFile it best && negb (IsSymlink it))
      then candidates best bestIndex rest (S index)
      else Path it :: candidates best bestIndex rest (S index)
  end.

Section Links.

Variable FS : Type.
Variable tryLink trySymlink : string -> string -> FS -> bool * FS.

(** The file system once each of the paths [dsts], one after the
    other, has been replaced by a link to [src]: by the hardlink of
    [tryLink], or, when that failed, by the symlink of [trySymlink],
    tried on what the failed [tryLink] left. *)
Inductive replaced_from (src : string) : list string -> FS -> FS -> Prop :=
| replaced_none fs : replaced_from src [] fs fs
| replaced_link dst dsts fs fs1 fs' :
    tryLink src dst fs = (true, fs1) ->
    replaced_from src dsts fs1 fs' ->
    replaced_from src (dst :: dsts) fs fs'
| replaced_symlink dst dsts fs fs1 fs2 fs' :
    tryLink src dst fs = (false, fs1) ->
    trySymlink src dst fs1 = (true, fs2) ->
    replaced_from src dsts fs2 fs' ->
    replaced_from src (dst :: dsts) fs fs'.

End Links.

End Replacement.

(** ** internal/glob: what the compiler writes, rune by rune *)

Module GlobSpec.

Import Utf8 Glob.

(** The runes at the start of a text, and the bytes from the first one
    that is not well-formed UTF-8 on; no bytes when all of it is. *)
Fixpoint split_runes (fuel : nat) (s : list Z) : list Z * list Z :=
  match fuel with
  | O => ([], s)
  | S fuel' =>
      match next_rune s with
      | None => ([], s)
      | Some (ch, rest) =>
          let '(rs, tail) := split_runes fuel' rest in (ch :: rs, tail)
      end
  end.

Inductive decodes_to : list Z -> list Z -> list Z -> Prop :=
| decodes_to_end s :
    next_rune s = None -> decodes_to s [] s
| decodes_to_step s ch rest rs tail :
    next_rune s = Some (ch, rest) -> decodes_to rest rs tail ->
    decodes_to s (ch :: rs) tail.

(** Where the translation stands: between tokens, and then whether the
    last token was a run of slashes that may go on; just after the [[]
    of a class; or inside a class, and then whether after a
    backslash. *)
Inductive mode :=
| Plain (afterSlash : bool)
| ClassStart
| ClassBody (escaped : bool).

(** What comes of a pattern: the text of an expression, an error, or
    bytes that are not UTF-8 met between two tokens. *)
Inductive outcome :=
| Expr (text : list Z)
| Rejected (e : error)
| BadUTF8.

Definition emit (out : list Z) (o : outcome) : outcome :=
  match o with
  | Expr text => Expr (out ++ text)
  | _ => o
  end.

(** The translation of the runes [rs] of a pattern, [d] groups being
    open; [clean] says whether the runes are the whole pattern. *)
Fixpoint translate (m : mode) (d : nat) (rs : list Z) (clean : bool)
  : outcome :=
  match rs with
  | [] =>
      match m with
      | Plain _ =>
          if negb clean then BadUTF8
          else if (0 <? d)%nat then Rejected (errDepth (Z.of_nat d))
          else Expr [36]
      | _ => Rejected errCharacterMatch
      end
  | ch :: rs' =>
      match m with
      | Plain afterSlash =>
          if ch =? 92 then Rejected errBackslash
          else if ch =? 47 then
            if afterSlash then translate (Plain true) d rs' clean
            else emit rxSlash (translate (Plain true) d rs' clean)
          else if ch =? 42 then
            match rs' with
            | 42 :: rs'' => emit rxStarStar (translate (Plain false) d rs'' clean)
            | _ => emit rxStar (translate (Plain false) d rs' clean)
            end
          else if ch =? 63 then
            emit rxQuestion (translate (Plain false) d rs' clean)
          else if ch =? 91 then emit [91] (translate ClassStart d rs' clean)
          else if ch =? 123 then
            emit [40; 63; 58] (translate (Plain false) (S d) rs' clean)
          else if (ch =? 44) && (0 <? d)%nat then
            emit [124] (translate (Plain false) d rs' clean)
          else if (ch =? 125) && (0 <? d)%nat then
            emit [41] (translate (Plain false) (pred d) rs' clean)
          else
            emit (QuoteMeta (AppendRune [] ch))
                 (translate (Plain false) d rs' clean)
      | ClassStart =>
          if ch =? 94 then emit [94] (translate (ClassBody false) d rs' clean)
          else if ch =? 92 then translate (ClassBody true) d rs' clean
          else if ch =? 93 then emit [93] (translate (Plain false) d rs' clean)
          else emit (AppendRune [] ch) (translate (ClassBody false) d rs' clean)
      | ClassBody escaped =>
          if escaped then
            emit (AppendRune [92] ch) (translate (ClassBody false) d rs' clean)
          else if ch =? 92 then translate (ClassBody true) d rs' clean
          else if ch =? 93 then emit [93] (translate (Plain false) d rs' clean)
          else emit (AppendRune [] ch) (translate (ClassBody false) d rs' clean)
      end
  end.

(** The translation of a whole pattern. *)
Definition translate_pattern (s : list Z) : outcome :=
  let '(rs, tail) := split_runes (length s) s in
  translate (Plain false) 0 rs (bool_decide (tail = [])).

(** The bytes of a pattern that are left where its UTF-8 breaks. *)
Definition undecoded (s : list Z) : list Z := (split_runes (length s) s).2.

(** The runes the compiler has still to read, and the bytes after
    them. *)
Definition unread (inp : list Z) (pend : option Z) (rs tail : list Z) : Prop :=
  match pend with
  | None => decodes_to inp rs tail
  | Some c => exists rs', rs = c :: rs' /\ decodes_to inp rs' tail
  end.

(** How a run of the compiler that has written [out] so far ends, for
    what is left to translate. *)
Definition ends_as (r : Res (option Compiler)) (out : list Z) (o : outcome)
    (tail : list Z) : Prop :=
  match o with
  | Expr text =>
      exists final, r = Ret (Some final) /\ err final = Some io_EOF
                    /\ output final = out ++ text
  | Rejected e =>
      e <> io_EOF /\ exists final, r = Ret (Some final) /\ err final = Some e
  | BadUTF8 =>
      if (length tail <? 8)%nat then r = Panicked
      else exists final, r = Ret (Some final) /\ err final = Some errInvalidUTF8
  end.

End GlobSpec.

(** ** The grammar on the runes of a pattern *)

Module GlobGrammar.

Import Utf8 Glob GlobSpec.

(** What the grammar makes of the runes of a pattern, read to the end
    of the text or to the first byte that is not well-formed UTF-8. *)
Definition scan_runes (s : list Z) : scan_result :=
  scan Outside 0 (split_runes (length s) s).1 true.

(** Where the translation stands, as a mode of the grammar. *)
Definition grammar_mode (m : mode) : scan_mode :=
  match m with
  | Plain _ => Outside
  | ClassStart => ClassFirst
  | ClassBody false => InClass
  | ClassBody true => InEscape
  end.

(** What the translation answers where the grammar finds a backslash
    outside a class, a class that is not closed or, at the end of the
    runes, a group that is still open; [clean] says whether the runes
    are the whole pattern. *)
Definition refusal (r : scan_result) (clean : bool) : outcome :=
  match r with
  | StrayBackslash => Rejected errBackslash
  | UnterminatedClass => Rejected errCharacterMatch
  | EndOfInput d =>
      if clean then Rejected (errDepth (Z.of_nat d)) else BadUTF8
  | InvalidText => BadUTF8
  end.

End GlobGrammar.

(** ** Sample data *)

Module Samples.

Definition is_ascii (s : list Z) : bool :=
  forallb (fun b => (0 <=? b) && (b <? 128)) s.

Import ScanByInode.

Definition digest1 : SHA256Sum := vreplicate 32 7.
Definition digest2 : SHA256Sum := vreplicate 32 9.
Definition fileA := mkScanned "/x/b" digest1 1 10.
Definition fileB := mkScanned "/x/a" digest1 1 10.
Definition fileC := mkScanned "/y/c" digest1 1 11.
Definition fileD := mkScanned "/y/d" digest2 1 12.

Import ItemPkg.

Definition itemA := mkItem "/a" None 1 10 1 5 1 0 false.
Definition itemB := mkItem "/b" None 1 5 1 6 2 0 false.

Definition open_two (p : string) : option Item :=
  if String.eqb p "/a" then Some itemA
  else if String.eqb p "/b" then Some itemB else None.

Definition link_ok (src dst : string) (fs : list (string * string))
  : bool * list (string * string) := (true, (src, dst) :: fs).

Import Metadata.

Definition meta1 : Metadata :=
  mkMeta AllBits 100 1700000000 (replicate 16 7) (replicate 20 255)
         (map Z.of_nat (seq 224 32)).

(** The record of a file of five bytes in the first version of the
    scanner. *)
Definition legacy5 : LegacyMetadata.Metadata :=
  LegacyMetadata.mkMetadata 5 1700000000 (map Z.of_nat (seq 1 16))
    (map Z.of_nat (seq 101 20)) (map Z.of_nat (seq 201 32)).

Definition world0 : World := mkWorld ∅ [] 0.

End Samples.

(** ** More sample data *)

Module Fixtures.

Import Samples.
Import GoLib Metadata ScanByInode ScanByDigest RuleLists.

(** Hash functions of the three widths. *)
Definition flat_md5 (_ : list Z) : list Z := replicate 16 1.
Definition flat_sha1 (_ : list Z) : list Z := replicate 20 2.
Definition flat_sha256 (_ : list Z) : list Z := replicate 32 3.

(** Rules whose patterns are the paths they match. *)
Definition same_bytes (pattern path : list Z) : bool :=
  bool_decide (pattern = path).

Definition flags1 : Flags (list Z) := mkFlags false 1 "user.dedupe." [].

(** A file of three bytes, read in one piece. *)
Definition item3 : ItemPkg.Item :=
  ItemPkg.mkItem "/a" None 3 1700000000 1 5 1 0 false.
Definition reads3 : FileReads :=
  mkFileReads false [([1; 2; 3], ErrNil); ([], ErrEOF)].
Definition meta3 : Metadata :=
  mkMeta AllBits 3 1700000000 (replicate 16 1) (replicate 20 2)
         (replicate 32 3).

Definition recorded3 : list (SHA256Sum * string) :=
  [(digest1, "/a"); (digest2, "/b"); (digest1, "/c")]%string.

(** The record of a file of twelve bytes in the first version of the
    scanner. *)
Definition legacy12 : LegacyMetadata.Metadata :=
  LegacyMetadata.mkMetadata 12 1700000000 (map Z.of_nat (seq 1 16))
    (map Z.of_nat (seq 101 20)) (map Z.of_nat (seq 201 32)).

(** Attributes with the stamp of [meta1] and, under [user.md5sum], 34
    hexadecimal digits, which [decodeHash] does not survive. *)
Definition stamped1 : xattrs :=
  <["user.md5sum"%string := replicate 34 48]>
    {["user.dedupe.stamp"%string := Append meta1 []]}.

End Fixtures.

(** * Part II: the properties *)


Module GoLibFacts.
Import GoLib.

Lemma wrap64_id z : in_int64 z -> wrap64 z = z.
Proof.
  unfold in_int64, wrap64. intros H.
  rewrite Z.mod_small by lia. lia.
Qed.

Lemma wrap64_add_l a b : wrap64 (wrap64 a + b) = wrap64 (a + b).
Proof.
  unfold wrap64.
  replace ((a + 2 ^ 63) mod 2 ^ 64 - 2 ^ 63 + b + 2 ^ 63)
    with ((a + 2 ^ 63) mod 2 ^ 64 + b) by lia.
  rewrite Z.add_mod_idemp_l by lia.
  f_equal. f_equal. lia.
Qed.

(** *** strconv *)

Lemma formatBits_digits fuel : forall u acc,
  0 <= u -> Forall (fun c => is_digit c = true) acc ->
  Forall (fun c => is_digit c = true) (formatBits fuel u acc).
Proof.
  induction fuel as [|k IH]; intros u acc Hu Hacc; simpl; [done|].
  destruct (Z.ltb_spec u 10).
  - constructor; [|done]. unfold is_digit. lia.
  - apply IH.
    + apply Z.div_pos; lia.
    + constructor; [|done]. unfold is_digit.
      pose proof (Z.mod_pos_bound u 10). lia.
Qed.

Lemma formatBits_nonempty fuel u acc :
  (0 < fuel)%nat -> formatBits fuel u acc <> [].
Proof.
  revert u acc. induction fuel as [|k IH]; intros u acc Hf; [lia|].
  simpl. destruct (u <? 10); [done|].
  destruct k; [done|]. apply IH. lia.
Qed.

(** Reading back what [formatBits] wrote in front of [acc] is reading
    [acc] from the value [u]. *)
Lemma parseUint_formatBits fuel : forall u acc,
  0 <= u < 10 ^ Z.of_nat fuel -> u <= maxUint64 ->
  parseUint_loop (formatBits fuel u acc) 0 = parseUint_loop acc u.
Proof.
  induction fuel as [|k IH]; intros u acc Hu Hmax.
  - simpl in Hu. assert (u = 0) by lia. subst u.
    simpl. reflexivity.
  - simpl formatBits. destruct (Z.ltb_spec u 10).
    + cbn [parseUint_loop]. 
      replace (is_digit (48 + u)) with true by (unfold is_digit; lia).
      cbn [negb]. unfold maxUint64 in *.
      replace (48 + u - 48) with u by lia.
      change ((2 ^ 64 - 1) / 10 + 1 <=? 0) with false. cbn iota.
      rewrite Z.mul_0_l, Z.add_0_l.
      rewrite Z.mod_small by lia.
      replace (u <? 0) with false by lia.
      replace (2 ^ 64 - 1 <? u) with false by lia.
      reflexivity.
    + rewrite IH.
      2:{ rewrite Nat2Z.inj_succ, Z.pow_succ_r in Hu by lia.
          split; [apply Z.div_pos; lia|].
          apply Z.div_lt_upper_bound; lia. }
      2:{ pose proof (Z.div_le_upper_bound u 10 u). 
          assert (u / 10 <= u) by (apply Z.div_le_upper_bound; lia). lia. }
      cbn [parseUint_loop].
      pose proof (Z.mod_pos_bound u 10 ltac:(lia)) as Hm.
      replace (is_digit (48 + u mod 10)) with true by (unfold is_digit; lia).
      cbn [negb]. unfold maxUint64 in *.
      replace (48 + u mod 10 - 48) with (u mod 10) by lia.
      assert (Hq : u / 10 * 10 + u mod 10 = u).
      { pose proof (Z.div_mod u 10 ltac:(lia)). lia. }
      change ((2 ^ 64 - 1) / 10 + 1) with 1844674407370955162.
      change (2 ^ 64 - 1) with 18446744073709551615 in *.
      replace (1844674407370955162 <=? u / 10) with false by lia.
      cbn iota. rewrite Hq.
      rewrite Z.mod_small by lia.
      replace (u <? u / 10 * 10) with false by lia.
      replace (18446744073709551615 <? u) with false by lia.
      reflexivity.
Qed.

Lemma ParseUint_formatBits u :
  0 <= u <= maxUint64 -> ParseUint (formatBits 20 u []) = Some u.
Proof.
  intros Hu. unfold ParseUint.
  destruct (formatBits 20 u []) eqn:E.
  - exfalso. eapply formatBits_nonempty; [|exact E]. lia.
  - rewrite <- E. rewrite parseUint_formatBits; [done| |lia].
    unfold maxUint64 in Hu. split; [lia|].
    change (10 ^ Z.of_nat 20) with 100000000000000000000. lia.
Qed.

Lemma formatBits_head_digit u :
  0 <= u -> exists c s, formatBits 20 u [] = c :: s /\ is_digit c = true.
Proof.
  intros Hu.
  pose proof (formatBits_digits 20 u [] Hu ltac:(constructor)) as HF.
  destruct (formatBits 20 u []) as [|c s] eqn:E.
  - exfalso. eapply formatBits_nonempty; [|exact E]. lia.
  - exists c, s. split; [done|]. by inversion HF.
Qed.

Lemma ParseInt_AppendInt z :
  in_int64 z -> ParseInt (AppendInt [] z) = Some z.
Proof.
  unfold in_int64, AppendInt. intros Hz. rewrite app_nil_l.
  destruct (Z.ltb_spec z 0).
  - unfold ParseInt. change (45 =? 45) with true.
    rewrite orb_true_r.
    rewrite ParseUint_formatBits by (unfold maxUint64; lia).
    cbn [negb andb].
    replace (2 ^ 63 <? - z) with false by lia.
    f_equal. lia.
  - destruct (formatBits_head_digit z ltac:(lia)) as (c & s & E & Hc).
    unfold ParseInt. rewrite E.
    unfold is_digit in Hc.
    replace (c =? 45) with false by lia.
    replace (c =? 43) with false by lia.
    cbn [orb]. rewrite <- E.
    rewrite ParseUint_formatBits by (unfold maxUint64; lia).
    cbn [negb andb].
    replace (2 ^ 63 <=? z) with false by lia.
    reflexivity.
Qed.

End GoLibFacts.


Module Base64Facts.
Import GoLib.

Lemma land_shiftl_small a b k :
  0 <= k -> 0 <= b < 2 ^ k -> Z.land (Z.shiftl a k) b = 0.
Proof.
  intros Hk Hb. apply Z.bits_inj'. intros n Hn.
  rewrite Z.land_spec, Z.bits_0.
  destruct (Z.lt_ge_cases n k).
  - rewrite Z.shiftl_spec_low by lia. reflexivity.
  - replace b with (b mod 2 ^ k) by (apply Z.mod_small; lia).
    rewrite Z.mod_pow2_bits_high by lia. apply andb_false_r.
Qed.

Lemma lor_shiftl_add a b k :
  0 <= k -> 0 <= b < 2 ^ k -> Z.lor (Z.shiftl a k) b = a * 2 ^ k + b.
Proof.
  intros Hk Hb. rewrite <- Z.add_nocarry_lor by (apply land_shiftl_small; lia).
  rewrite Z.shiftl_mul_pow2 by lia. reflexivity.
Qed.

Lemma sextet_range x : 0 <= Z.land x 63 < 64.
Proof.
  change 63 with (Z.ones 6). rewrite Z.land_ones by lia.
  apply Z.mod_pos_bound. lia.
Qed.

(** The four sextets of a 24-bit value pack back into it. *)
Lemma sextets_pack val :
  0 <= val < 2 ^ 24 ->
  Z.lor (Z.shiftl (Z.land (Z.shiftr val 18) 63) 18)
    (Z.lor (Z.shiftl (Z.land (Z.shiftr val 12) 63) 12)
       (Z.lor (Z.shiftl (Z.land (Z.shiftr val 6) 63) 6) (Z.land val 63))) = val.
Proof.
  intros Hv.
  pose proof (sextet_range val). pose proof (sextet_range (Z.shiftr val 6)).
  pose proof (sextet_range (Z.shiftr val 12)).
  pose proof (sextet_range (Z.shiftr val 18)).
  rewrite (lor_shiftl_add _ (Z.land val 63) 6) by lia.
  rewrite (lor_shiftl_add _ _ 12) by lia.
  rewrite (lor_shiftl_add _ _ 18) by lia.
  change 63 with (Z.ones 6).
  rewrite !Z.land_ones by lia. rewrite !Z.shiftr_div_pow2 by lia.
  change (2 ^ 6) with 64; change (2 ^ 12) with 4096;
    change (2 ^ 18) with 262144; change (2 ^ 24) with 16777216 in Hv.
  Z.div_mod_to_equations. lia.
Qed.

Lemma bytes3_val b0 b1 b2 :
  is_byte b0 -> is_byte b1 -> is_byte b2 ->
  Z.lor (Z.shiftl b0 16) (Z.lor (Z.shiftl b1 8) b2) = b0 * 65536 + b1 * 256 + b2.
Proof.
  unfold is_byte. intros.
  rewrite (lor_shiftl_add b1 b2 8) by lia.
  rewrite (lor_shiftl_add b0 _ 16) by lia. lia.
Qed.

Lemma unpack3 val b0 b1 b2 :
  is_byte b0 -> is_byte b1 -> is_byte b2 ->
  val = b0 * 65536 + b1 * 256 + b2 ->
  [Z.land (Z.shiftr val 16) 255; Z.land (Z.shiftr val 8) 255; Z.land val 255]
  = [b0; b1; b2].
Proof.
  unfold is_byte. intros H0 H1 H2 ->.
  change 255 with (Z.ones 8).
  rewrite !Z.land_ones by lia. rewrite !Z.shiftr_div_pow2 by lia.
  change (2 ^ 8) with 256; change (2 ^ 16) with 65536.
  repeat f_equal; Z.div_mod_to_equations; lia.
Qed.


Lemma alphabet_ok_std : alphabet_ok encodeStd = true.
Proof. vm_compute. reflexivity. Qed.

Lemma alphabet_ok_url : alphabet_ok encodeURL = true.
Proof. vm_compute. reflexivity. Qed.

Lemma index_of_notin c l : forall i,
  Forall (fun a => a <> c) l -> index_of c l i = None.
Proof.
  induction l as [|a l IH]; intros i Hf; [done|].
  inversion Hf; subst. cbn [index_of].
  replace (a =? c) with false by lia. by apply IH.
Qed.

Section Alphabet.

Variable alpha : list Z.
Hypothesis Halpha : alphabet_ok alpha = true.

Lemma decodeMap_table s :
  0 <= s < 64 -> decodeMap alpha (table_at alpha s) = Some s.
Proof.
  intros Hs. unfold alphabet_ok in Halpha.
  apply andb_prop in Halpha as [Ha _]. apply andb_prop in Ha as [Ha _].
  rewrite forallb_forall in Ha.
  specialize (Ha s). rewrite <- list_elem_of_In, elem_of_seqZ in Ha.
  specialize (Ha ltac:(lia)). by apply bool_decide_eq_true in Ha.
Qed.

Lemma table_at_char s :
  0 <= s < 64 ->
  let c := table_at alpha s in
  is_newline c = false /\ c <> padChar /\ c <> 44 /\ c <> 58.
Proof.
  intros Hs c. unfold alphabet_ok in Halpha.
  apply andb_prop in Halpha as [Ha Hl]. apply andb_prop in Ha as [_ Ha].
  rewrite forallb_forall in Ha. apply Nat.eqb_eq in Hl.
  assert (Hin : In c alpha).
  { unfold c, table_at. apply nth_In. lia. }
  specialize (Ha c Hin).
  repeat (apply andb_prop in Ha as [Ha ?]).
  repeat match goal with H : negb _ = true |- _ => apply negb_true_iff in H end.
  unfold padChar in *. repeat split; try done; lia.
Qed.

(** One character of the alphabet, read while fewer than three sextets
    are waiting. *)
Lemma decode_step_collect cap s rest dbuf out :
  0 <= s < 64 -> (length dbuf < 3)%nat ->
  b64_Decode_from alpha cap (table_at alpha s :: rest) dbuf out
  = b64_Decode_from alpha cap rest (dbuf ++ [s]) out.
Proof.
  intros Hs Hl. cbn [b64_Decode_from]. rewrite decodeMap_table by done.
  rewrite length_app. cbn [length].
  replace (length dbuf + 1 =? 4)%nat with false by (symmetry; apply Nat.eqb_neq; lia). reflexivity.
Qed.

Lemma decode_step_flush cap s rest dbuf out :
  0 <= s < 64 -> length dbuf = 3%nat -> (length out + 3 <= cap)%nat ->
  b64_Decode_from alpha cap (table_at alpha s :: rest) dbuf out
  = b64_Decode_from alpha cap rest [] (out ++ quantum_bytes (dbuf ++ [s]) 4).
Proof.
  intros Hs Hl Hc. cbn [b64_Decode_from]. rewrite decodeMap_table by done.
  rewrite length_app. cbn [length]. rewrite Hl. cbn [Nat.add Nat.eqb].
  replace (cap - length out <? 3)%nat with false by (symmetry; apply Nat.ltb_ge; lia). reflexivity.
Qed.

Lemma decodeMap_pad : decodeMap alpha padChar = None.
Proof.
  unfold alphabet_ok in Halpha.
  apply andb_prop in Halpha as [Ha Hl]. apply andb_prop in Ha as [_ Ha].
  rewrite forallb_forall in Ha.
  apply index_of_notin. apply List.Forall_forall. intros a Hin.
  specialize (Ha a Hin).
  repeat (apply andb_prop in Ha as [Ha ?]).
  repeat match goal with H : negb _ = true |- _ => apply negb_true_iff in H end.
  unfold padChar in *. lia.
Qed.

Lemma sextet_low_zero val k :
  0 <= k -> val mod 2 ^ (k + 6) = 0 -> 0 <= val -> Z.land (Z.shiftr val k) 63 = 0.
Proof.
  intros Hk Hm Hv. change 63 with (Z.ones 6).
  rewrite Z.land_ones, Z.shiftr_div_pow2 by lia.
  rewrite Z.pow_add_r in Hm by lia.
  pose proof (Z.pow_pos_nonneg 2 k ltac:(lia) Hk) as Hp.
  rewrite Z.rem_mul_r in Hm by lia.
  change (2 ^ 6) with 64 in *.
  pose proof (Z.mod_pos_bound val (2 ^ k) Hp).
  pose proof (Z.mod_pos_bound (val / 2 ^ k) 64 ltac:(lia)).
  nia.
Qed.

(** The bytes [decodeQuantum] stores are those of the value whose
    sextets it collected. *)
Lemma quantum_bytes_val dbuf dlen val :
  0 <= val < 2 ^ 24 ->
  nth 0 dbuf 0 = Z.land (Z.shiftr val 18) 63 ->
  nth 1 dbuf 0 = Z.land (Z.shiftr val 12) 63 ->
  nth 2 dbuf 0 = Z.land (Z.shiftr val 6) 63 ->
  nth 3 dbuf 0 = Z.land val 63 ->
  quantum_bytes dbuf dlen
  = take (dlen - 1)
      [Z.land (Z.shiftr val 16) 255; Z.land (Z.shiftr val 8) 255; Z.land val 255].
Proof.
  intros Hv E0 E1 E2 E3. unfold quantum_bytes.
  rewrite E0, E1, E2, E3, sextets_pack by done. reflexivity.
Qed.

(** Decoding what [b64_Encode] wrote gives the bytes back, in any
    buffer with room for them. *)
Lemma b64_Decode_Encode cap : forall n src out,
  (length src <= n)%nat ->
  Forall is_byte src -> (length out + length src <= cap)%nat ->
  b64_Decode_from alpha cap (b64_Encode alpha src) [] out = DecOk (out ++ src).
Proof.
  induction n as [|n IH]; intros src out Hn Hb Hc.
  { destruct src; [|simpl in Hn; lia]. simpl. by rewrite app_nil_r. }
  destruct src as [|b0 [|b1 [|b2 src]]].
  - simpl. by rewrite app_nil_r.
  - (* one byte: two sextets and two pads *)
    inversion Hb as [|? ? H0 _]; subst.
    cbn [b64_Encode].
    set (val := Z.shiftl b0 16).
    rewrite decode_step_collect by (auto using sextet_range; simpl; lia).
    rewrite decode_step_collect by (auto using sextet_range; simpl; lia).
    cbn [b64_Decode_from app]. rewrite decodeMap_pad.
    change (is_newline padChar) with false. change (padChar =? padChar) with true.
    cbn [negb length skip_newlines is_newline].
    change (is_newline padChar) with false. cbn iota.
    change (padChar =? padChar) with true. cbn iota.
    unfold pad_finish. cbn [skip_newlines].
    simpl in Hc.
    replace (cap - length out <? 2 - 1)%nat with false by (symmetry; apply Nat.ltb_ge; lia).
    f_equal. f_equal.
    unfold is_byte in H0.
    assert (Hval : val = b0 * 65536 + 0 * 256 + 0)
      by (unfold val; rewrite Z.shiftl_mul_pow2 by lia; lia).
    rewrite (quantum_bytes_val _ _ val); cbn [nth]; try done.
    + rewrite (unpack3 val b0 0 0); unfold is_byte; try done; lia.
    + lia.
    + symmetry. apply (sextet_low_zero val 6); [lia| |lia].
      rewrite Hval. change (2 ^ (6 + 6)) with 4096. Z.div_mod_to_equations. lia.
    + symmetry. apply (sextet_low_zero val 0); [lia| |lia].
      rewrite Hval. change (2 ^ (0 + 6)) with 64. Z.div_mod_to_equations. lia.
  - (* two bytes: three sextets and one pad *)
    inversion Hb as [|? ? H0 Hb']; subst. inversion Hb' as [|? ? H1 _]; subst.
    cbn [b64_Encode].
    set (val := Z.lor (Z.shiftl b0 16) (Z.shiftl b1 8)).
    rewrite decode_step_collect by (auto using sextet_range; simpl; lia).
    rewrite decode_step_collect by (auto using sextet_range; simpl; lia).
    rewrite decode_step_collect by (auto using sextet_range; simpl; lia).
    cbn [b64_Decode_from app]. rewrite decodeMap_pad.
    change (is_newline padChar) with false. change (padChar =? padChar) with true.
    cbn [negb length]. cbn iota.
    unfold pad_finish. cbn [skip_newlines].
    simpl in Hc.
    replace (cap - length out <? 3 - 1)%nat with false by (symmetry; apply Nat.ltb_ge; lia).
    f_equal. f_equal.
    unfold is_byte in H0, H1.
    assert (Hval : val = b0 * 65536 + b1 * 256 + 0).
    { unfold val. rewrite <- (Z.lor_0_r (Z.shiftl b1 8)).
      rewrite bytes3_val; unfold is_byte; lia. }
    rewrite (quantum_bytes_val _ _ val); cbn [nth]; try done.
    + rewrite (unpack3 val b0 b1 0); unfold is_byte; try done; lia.
    + lia.
    + symmetry. apply (sextet_low_zero val 0); [lia| |lia].
      rewrite Hval. change (2 ^ (0 + 6)) with 64. Z.div_mod_to_equations. lia.
  - (* three bytes: a full quantum *)
    inversion Hb as [|? ? H0 Hb']; subst. inversion Hb' as [|? ? H1 Hb'']; subst.
    inversion Hb'' as [|? ? H2 Hb3]; subst.
    cbn [b64_Encode].
    set (val := Z.lor (Z.shiftl b0 16) (Z.lor (Z.shiftl b1 8) b2)).
    rewrite decode_step_collect by (auto using sextet_range; simpl; lia).
    rewrite decode_step_collect by (auto using sextet_range; simpl; lia).
    rewrite decode_step_collect by (auto using sextet_range; simpl; lia).
    simpl in Hc, Hn.
    rewrite decode_step_flush by (auto using sextet_range; simpl; lia).
    assert (Hval : val = b0 * 65536 + b1 * 256 + b2) by (apply bytes3_val; done).
    unfold is_byte in H0, H1, H2.
    rewrite (quantum_bytes_val _ _ val); cbn [nth app]; try done; [|lia].
    rewrite (unpack3 val b0 b1 b2) by done.
    cbn [Nat.sub take].
    rewrite IH; [|lia|done|rewrite length_app; simpl; lia].
    rewrite <- app_assoc. reflexivity.
Qed.

Lemma b64_Decode_Encode_exact src :
  Forall is_byte src ->
  b64_Decode alpha (length src) (b64_Encode alpha src) = DecOk src.
Proof.
  intros Hb. unfold b64_Decode.
  rewrite (b64_Decode_Encode _ (length src)); simpl; done.
Qed.

(** No character of an encoding is a separator of the stamp. *)
Lemma b64_Encode_chars src :
  Forall is_byte src ->
  Forall (fun c => c <> 44 /\ c <> 58) (b64_Encode alpha src).
Proof.
  intros Hb.
  assert (Hs : forall x, table_at alpha (Z.land x 63) <> 44
                         /\ table_at alpha (Z.land x 63) <> 58).
  { intros x. pose proof (table_at_char (Z.land x 63) (sextet_range x)).
    cbv zeta in H. tauto. }
  assert (Hp : padChar <> 44 /\ padChar <> 58) by (unfold padChar; lia).
  remember (length src) as n eqn:Hn.
  revert src Hb Hn. induction (lt_wf n) as [n _ IH]. intros src Hb Hn.
  destruct src as [|b0 [|b1 [|b2 src]]]; cbn [b64_Encode].
  - constructor.
  - repeat constructor; auto; apply Hs.
  - repeat constructor; auto; apply Hs.
  - repeat (constructor; [apply Hs|]).
    inversion Hb as [|? ? ? Hb1]; subst. inversion Hb1 as [|? ? ? Hb2]; subst.
    inversion Hb2 as [|? ? ? Hb3]; subst.
    eapply (IH (length src)); [simpl; lia|done|done].
Qed.

Lemma b64_Encode_length src :
  length (b64_Encode alpha src) = b64_EncodedLen (length src).
Proof.
  remember (length src) as n eqn:Hn.
  revert src Hn. induction (lt_wf n) as [n _ IH]. intros src Hn.
  destruct src as [|b0 [|b1 [|b2 src]]]; cbn [b64_Encode]; subst n; try done.
  cbn [length]. rewrite (IH (length src)) by (simpl; lia || done).
  unfold b64_EncodedLen.
  replace (S (S (S (length src))) + 2)%nat with (length src + 2 + 1 * 3)%nat by lia.
  rewrite Nat.div_add by lia. lia.
Qed.

End Alphabet.
End Base64Facts.


Module MetadataFacts.
Import GoLib Metadata GoLibFacts Base64Facts.

(** *** Splitting the stamp *)

Lemma Split_no_sep s sep : Forall (fun c => c <> sep) s -> Split s sep = [s].
Proof.
  induction 1 as [|c s Hc _ IH]; [done|].
  cbn [Split]. replace (c =? sep) with false by lia. by rewrite IH.
Qed.

Lemma Split_app_sep s sep rest :
  Forall (fun c => c <> sep) s ->
  Split (s ++ sep :: rest) sep = s :: Split rest sep.
Proof.
  induction 1 as [|c s Hc _ IH]; cbn [Split app].
  - by rewrite Z.eqb_refl.
  - replace (c =? sep) with false by lia. by rewrite IH.
Qed.

Lemma Cut_app_sep s sep rest :
  Forall (fun c => c <> sep) s -> Cut (s ++ sep :: rest) sep = (s, rest, true).
Proof.
  induction 1 as [|c s Hc _ IH]; cbn [Cut app].
  - by rewrite Z.eqb_refl.
  - replace (c =? sep) with false by lia. by rewrite IH.
Qed.

Lemma AppendInt_chars z :
  Forall (fun c => c <> kSplit /\ c <> kCut) (AppendInt [] z).
Proof.
  unfold AppendInt, kSplit, kCut. rewrite app_nil_l.
  assert (H : forall u, 0 <= u ->
            Forall (fun c => c <> 44 /\ c <> 58) (formatBits 20 u [])).
  { intros u Hu. eapply Forall_impl; [apply formatBits_digits; [done|constructor]|].
    unfold is_digit. intros c Hc. simpl in Hc. lia. }
  destruct (Z.ltb_spec z 0).
  - constructor; [lia|]. apply H. lia.
  - by apply H.
Qed.

(** *** Integers and digests, one field at a time *)

Lemma decodeInt_appendInt z :
  in_int64 z -> decodeInt (appendInt [] z) = Some z.
Proof.
  intros Hz. unfold decodeInt, appendInt. by rewrite ParseInt_AppendInt.
Qed.

Lemma digest_ok_spec n d :
  digest_ok n d = true -> length d = n /\ Forall is_byte d.
Proof.
  unfold digest_ok. intros H. apply andb_prop in H as [Hl Hb].
  apply Nat.eqb_eq in Hl. split; [done|].
  apply List.Forall_forall. rewrite forallb_forall in Hb.
  intros b Hin. specialize (Hb b Hin). unfold is_byte. lia.
Qed.

(** A digest written in standard base64, as the stamp holds it, reads
    back: for the three widths the text is neither as long as the
    digest nor as long as its hexadecimal form. *)
Lemma decodeHash_base64 n d :
  n = 16%nat \/ n = 20%nat \/ n = 32%nat ->
  digest_ok n d = true ->
  decodeHash n (b64_Encode encodeStd d) = Ret (Some d).
Proof.
  intros Hn Hd. apply digest_ok_spec in Hd as [Hl Hb].
  unfold decodeHash.
  rewrite (b64_Encode_length encodeStd), Hl.
  assert (E : b64_Decode encodeStd n (b64_Encode encodeStd d) = DecOk d)
    by (rewrite <- Hl; apply b64_Decode_Encode_exact; [apply alphabet_ok_std|done]).
  rewrite E. unfold accepted. rewrite Hl.
  destruct Hn as [-> | [-> | ->]]; reflexivity.
Qed.

Lemma AppendInt_app out z : AppendInt out z = out ++ AppendInt [] z.
Proof. unfold AppendInt. by rewrite app_nil_l. Qed.


Lemma Append_pieces m :
  Append m [] =
  piece kSize (AppendInt [] (Size m)) ++ kSplit ::
  piece kModTime (AppendInt [] (Time m)) ++ kSplit ::
  piece kMD5 (b64_Encode encodeStd (MD5 m)) ++ kSplit ::
  piece kSHA1 (b64_Encode encodeStd (SHA1 m)) ++ kSplit ::
  piece kSHA256 (b64_Encode encodeStd (SHA256 m)).
Proof.
  unfold Append, appendInt, appendHash, piece.
  rewrite (AppendInt_app _ (Size m)), (AppendInt_app _ (Time m)).
  rewrite app_nil_l. repeat rewrite <- app_assoc. reflexivity.
Qed.

Lemma piece_no_split k v :
  forallb (fun c => negb (c =? kSplit)) k = true ->
  Forall (fun c => c <> kSplit /\ c <> kCut) v ->
  Forall (fun c => c <> kSplit) (piece k v).
Proof.
  intros Hk Hv. unfold piece. apply Forall_app. split.
  - apply List.Forall_forall. rewrite forallb_forall in Hk.
    intros c Hin. specialize (Hk c Hin). lia.
  - constructor; [unfold kCut, kSplit; lia|].
    eapply Forall_impl; [exact Hv|]. simpl. tauto.
Qed.

Section DecodeFacts.

Variable foldUnicode : list Z -> list Z -> bool.

Lemma decode_piece_key k v meta :
  forallb (fun c => negb (c =? kCut)) k = true ->
  decode_piece foldUnicode meta (piece k v) =
  if keyIs foldUnicode true k kSize then Ret (decodeSize meta v)
  else if keyIs foldUnicode true k kModTime then Ret (decodeModTime meta v)
  else if keyIs foldUnicode true k kMD5 then decodeMD5 meta v
  else if keyIs foldUnicode true k kSHA1 then decodeSHA1 meta v
  else if keyIs foldUnicode true k kSHA256 then decodeSHA256 meta v
  else Ret meta.
Proof.
  intros Hk. unfold decode_piece, piece.
  rewrite Cut_app_sep; [done|].
  apply List.Forall_forall. rewrite forallb_forall in Hk.
  intros c Hin. specialize (Hk c Hin). lia.
Qed.

Lemma b64_chars d :
  Forall is_byte d ->
  Forall (fun c => c <> kSplit /\ c <> kCut) (b64_Encode encodeStd d).
Proof. apply b64_Encode_chars, alphabet_ok_std. Qed.

(** The stamp of internal/metadata.  Decoding, into a fresh value, the
    combined stamp that [Append] writes for a complete metadata value
    gives that value back, with its size, its time and its three
    digests, and reports it complete. *)
Theorem Decode_Append_roundtrip (m : Metadata) :
  well_formed m = true -> Bits m = AllBits ->
  Decode foldUnicode zero (Append m []) = Ret (m, true).
Proof.
  intros Hwf Hbits. unfold well_formed in Hwf.
  repeat (apply andb_prop in Hwf as [Hwf ?]).
  assert (HS : in_int64 (Size m)) by (unfold in_int64; lia).
  assert (HT : in_int64 (Time m)) by (unfold in_int64; lia).
  destruct (digest_ok_spec _ _ H1) as [_ B1].
  destruct (digest_ok_spec _ _ H0) as [_ B2].
  destruct (digest_ok_spec _ _ H) as [_ B3].
  unfold Decode. rewrite Append_pieces.
  rewrite !Split_app_sep, Split_no_sep
    by (apply piece_no_split; [reflexivity|first [apply AppendInt_chars|by apply b64_chars]]).
  cbn [foldl bindR].
  rewrite !decode_piece_key by reflexivity.
  change (keyIs foldUnicode true kSize kSize) with true.
  cbn iota. cbn [bindR].
  rewrite decode_piece_key by reflexivity.
  change (keyIs foldUnicode true kModTime kSize) with false.
  change (keyIs foldUnicode true kModTime kModTime) with true.
  cbn iota. cbn [bindR].
  rewrite decode_piece_key by reflexivity.
  change (keyIs foldUnicode true kMD5 kSize) with false.
  change (keyIs foldUnicode true kMD5 kModTime) with false.
  change (keyIs foldUnicode true kMD5 kMD5) with true.
  cbn iota.
  unfold decodeMD5 at 1. rewrite decodeHash_base64 by auto. cbn [bindR].
  rewrite decode_piece_key by reflexivity.
  change (keyIs foldUnicode true kSHA1 kSize) with false.
  change (keyIs foldUnicode true kSHA1 kModTime) with false.
  change (keyIs foldUnicode true kSHA1 kMD5) with false.
  change (keyIs foldUnicode true kSHA1 kSHA1) with true.
  cbn iota.
  unfold decodeSHA1 at 1. rewrite decodeHash_base64 by auto. cbn [bindR].
  rewrite decode_piece_key by reflexivity.
  change (keyIs foldUnicode true kSHA256 kSize) with false.
  change (keyIs foldUnicode true kSHA256 kModTime) with false.
  change (keyIs foldUnicode true kSHA256 kMD5) with false.
  change (keyIs foldUnicode true kSHA256 kSHA1) with false.
  change (keyIs foldUnicode true kSHA256 kSHA256) with true.
  cbn iota.
  unfold decodeSHA256 at 1. rewrite decodeHash_base64 by auto. cbn [bindR].
  unfold decodeSize, decodeModTime.
  change (AppendInt [] (Size m)) with (appendInt [] (Size m)).
  change (AppendInt [] (Time m)) with (appendInt [] (Time m)).
  rewrite !decodeInt_appendInt by done.
  destruct m as [b sz tm d1 d2 d3]. simpl in Hbits. subst b.
  reflexivity.
Qed.

End DecodeFacts.

End MetadataFacts.

Module HashEncodings.
Import GoLib Metadata GoLibFacts Base64Facts MetadataFacts.

Lemma fromHexChar_table n :
  0 <= n < 16 -> fromHexChar (table_at hextable n) = Some n.
Proof.
  intros Hn.
  assert (H : forallb (fun n => bool_decide
                (fromHexChar (table_at hextable n) = Some n)) (seqZ 0 16) = true)
    by (vm_compute; reflexivity).
  rewrite forallb_forall in H. specialize (H n).
  rewrite <- list_elem_of_In, elem_of_seqZ in H.
  specialize (H ltac:(lia)). by apply bool_decide_eq_true in H.
Qed.

Lemma nibbles_pack v :
  is_byte v -> Z.lor (Z.shiftl (Z.shiftr v 4) 4) (Z.land v 15) = v.
Proof.
  unfold is_byte. intros Hv.
  change 15 with (Z.ones 4). rewrite Z.land_ones by lia.
  rewrite lor_shiftl_add by (try lia; apply Z.mod_pos_bound; lia).
  rewrite Z.shiftr_div_pow2 by lia. change (2 ^ 4) with 16.
  Z.div_mod_to_equations. lia.
Qed.

(** [hex.Decode] reads back what [hex.Encode] wrote, in any buffer with
    room for it. *)
Lemma hex_Decode_Encode cap src : forall out,
  Forall is_byte src -> (length out + length src <= cap)%nat ->
  hex_Decode cap (hex_Encode src) out = DecOk (out ++ src).
Proof.
  induction src as [|v src IH]; intros out Hb Hc.
  - simpl. by rewrite app_nil_r.
  - inversion Hb as [|? ? Hv Hb']; subst. cbn [hex_Encode hex_Decode].
    assert (H4 : 0 <= Z.shiftr v 4 < 16).
    { unfold is_byte in Hv. rewrite Z.shiftr_div_pow2 by lia.
      change (2 ^ 4) with 16. Z.div_mod_to_equations. lia. }
    assert (H0 : 0 <= Z.land v 15 < 16).
    { change 15 with (Z.ones 4). rewrite Z.land_ones by lia.
      apply Z.mod_pos_bound. lia. }
    rewrite !fromHexChar_table by done. simpl in Hc.
    replace (cap <=? length out)%nat with false
      by (symmetry; apply Nat.leb_gt; lia).
    rewrite nibbles_pack by done.
    rewrite IH; [|done|rewrite length_app; simpl; lia].
    by rewrite <- app_assoc.
Qed.

Lemma hex_Encode_length src : length (hex_Encode src) = hex_EncodedLen (length src).
Proof.
  unfold hex_EncodedLen. induction src as [|v src IH]; [done|].
  cbn [hex_Encode length]. rewrite IH. lia.
Qed.

Lemma decode_step_refused alpha cap c rest dbuf out :
  refused alpha c = true ->
  b64_Decode_from alpha cap (c :: rest) dbuf out = DecError out.
Proof.
  unfold refused. intros H.
  apply andb_prop in H as [H Hp]. apply andb_prop in H as [Hm Hn].
  apply bool_decide_eq_true in Hm. apply negb_true_iff in Hn.
  cbn [b64_Decode_from]. by rewrite Hm, Hn, Hp.
Qed.

(** A character of the URL alphabet is the standard one for the same
    sextet, or one the standard decoder refuses. *)
Lemma url_char s :
  0 <= s < 64 ->
  table_at encodeURL s = table_at encodeStd s
  \/ refused encodeStd (table_at encodeURL s) = true.
Proof.
  intros Hs.
  assert (H : forallb (fun s =>
                (table_at encodeURL s =? table_at encodeStd s)
                || refused encodeStd (table_at encodeURL s)) (seqZ 0 64) = true)
    by (vm_compute; reflexivity).
  rewrite forallb_forall in H. specialize (H s).
  rewrite <- list_elem_of_In, elem_of_seqZ in H.
  specialize (H ltac:(lia)). apply orb_prop in H as [H|H]; [left; lia|by right].
Qed.

Ltac url_or_refused s :=
  destruct (url_char s) as [-> | ?];
  [apply sextet_range
  | 
  | right; eexists;
    rewrite ?(decode_step_collect encodeStd alphabet_ok_std)
      by (auto using sextet_range; simpl; lia);
    by apply decode_step_refused].

(** The standard decoder on a text in the URL alphabet: it reads it as
    the standard text of the same bytes, or it refuses it. *)
Lemma std_on_url cap : forall n src out,
  (length src <= n)%nat -> (length out + length src <= cap)%nat ->
  b64_Decode_from encodeStd cap (b64_Encode encodeURL src) [] out
  = b64_Decode_from encodeStd cap (b64_Encode encodeStd src) [] out
  \/ exists o,
     b64_Decode_from encodeStd cap (b64_Encode encodeURL src) [] out = DecError o.
Proof.
  induction n as [|n IH]; intros src out Hn Hc.
  { destruct src; [by left|simpl in Hn; lia]. }
  destruct src as [|b0 [|b1 [|b2 src]]]; [by left|..]; cbn [b64_Encode].
  - set (val := Z.shiftl b0 16).
    url_or_refused (Z.land (Z.shiftr val 18) 63).
    url_or_refused (Z.land (Z.shiftr val 12) 63).
    by left.
  - set (val := Z.lor (Z.shiftl b0 16) (Z.shiftl b1 8)).
    url_or_refused (Z.land (Z.shiftr val 18) 63).
    url_or_refused (Z.land (Z.shiftr val 12) 63).
    url_or_refused (Z.land (Z.shiftr val 6) 63).
    by left.
  - set (val := Z.lor (Z.shiftl b0 16) (Z.lor (Z.shiftl b1 8) b2)).
    url_or_refused (Z.land (Z.shiftr val 18) 63).
    url_or_refused (Z.land (Z.shiftr val 12) 63).
    url_or_refused (Z.land (Z.shiftr val 6) 63).
    url_or_refused (Z.land val 63).
    simpl in Hc, Hn.
    do 2 (do 3 rewrite (decode_step_collect encodeStd alphabet_ok_std)
                 by (auto using sextet_range; simpl; lia);
          rewrite (decode_step_flush encodeStd alphabet_ok_std)
                 by (auto using sextet_range; simpl; lia)).
    apply IH; [lia|]. rewrite length_app.
    unfold quantum_bytes. cbn [length Nat.sub take]. simpl. lia.
Qed.

(** The four ways of writing a SHA-256 digest all read back as the
    digest. *)
Lemma decodeHash_four_encodings d :
  digest_ok 32 d = true ->
  decodeHash 32 d = Ret (Some d)
  /\ decodeHash 32 (hex_Encode d) = Ret (Some d)
  /\ decodeHash 32 (b64_Encode encodeStd d) = Ret (Some d)
  /\ decodeHash 32 (b64_Encode encodeURL d) = Ret (Some d).
Proof.
  intros Hd. pose proof (digest_ok_spec _ _ Hd) as [Hl Hb].
  split; [|split; [|split]].
  - unfold decodeHash. rewrite Hl. reflexivity.
  - unfold decodeHash. rewrite hex_Encode_length, Hl. cbn [Nat.eqb hex_EncodedLen Nat.mul Nat.add].
    change (64 =? 32)%nat with false. change (64 <=? 64)%nat with true. cbv iota.
    rewrite hex_Decode_Encode by (try done; simpl; lia).
    unfold accepted. simpl app. rewrite Hl. reflexivity.
  - apply decodeHash_base64; [tauto|done].
  - unfold decodeHash.
    rewrite (b64_Encode_length encodeURL), Hl.
    change (b64_EncodedLen 32 =? 32)%nat with false.
    change (hex_EncodedLen 32 <=? b64_EncodedLen 32)%nat with false.
    change (b64_EncodedLen 32 <=? b64_EncodedLen 32)%nat with true.
    cbv iota. cbn [bindR].
    assert (Eu : b64_Decode encodeURL 32 (b64_Encode encodeURL d) = DecOk d).
    { rewrite <- Hl. by apply b64_Decode_Encode_exact; [apply alphabet_ok_url|]. }
    assert (Es : b64_Decode encodeStd 32 (b64_Encode encodeStd d) = DecOk d).
    { rewrite <- Hl. by apply b64_Decode_Encode_exact; [apply alphabet_ok_std|]. }
    unfold b64_Decode in *.
    destruct (std_on_url 32 (length d) d []) as [E | [o E]];
      [done|simpl; lia| |]; rewrite E.
    + rewrite Es. unfold accepted. rewrite Hl. reflexivity.
    + unfold accepted at 1. cbn [bindR]. rewrite Eu. unfold accepted.
      rewrite Hl. reflexivity.
Qed.

End HashEncodings.


Module ComputeFacts.
Import GoLib Metadata GoLibFacts.

Lemma wrap64_range z : in_int64 (wrap64 z).
Proof.
  unfold in_int64, wrap64.
  pose proof (Z.mod_pos_bound (z + 2 ^ 63) (2 ^ 64) ltac:(lia)). lia.
Qed.

(** The loop returns the bytes up to the end of file and their count,
    unless a read fails. *)
Lemma read_loop_spec rs : forall cs w,
  in_int64 cs ->
  read_loop rs cs w =
  if read_fails rs then None
  else Some (wrap64 (cs + Z.of_nat (length (content_to_eof rs))),
             w ++ content_to_eof rs).
Proof.
  induction rs as [|[p err] rs IH]; intros cs w Hcs.
  - simpl. rewrite Z.add_0_r, app_nil_r, wrap64_id; done.
  - cbn [read_loop read_fails content_to_eof].
    destruct (Z.ltb_spec 0 (Z.of_nat (length p))) as [Hn|Hn].
    + destruct err; [|reflexivity|reflexivity].
      rewrite IH by apply wrap64_range.
      destruct (read_fails rs); [done|].
      rewrite wrap64_add_l, length_app, Nat2Z.inj_add, app_assoc.
      do 3 f_equal. lia.
    + assert (p = []) by (destruct p; [done|simpl in Hn; lia]). subst p.
      simpl. destruct err.
      * by rewrite IH.
      * by rewrite Z.add_0_r, app_nil_r, wrap64_id.
      * done.
Qed.

Section Hashing.

Variables md5sum sha1sum sha256sum : list Z -> list Z.

(** C10. [Compute] either fails, on a seek failure, a read error or a
    byte count that differs from the expected size, and then hands the
    metadata back exactly as it received it; or it succeeds, and then
    the metadata is the fresh value holding all five presence bits, the
    expected size and time, and the three digests of the bytes read. *)
Theorem Compute_failure_atomic (meta : Metadata) (file : FileReads)
    (size modTime : Z) :
  let content := content_to_eof (reads file) in
  Compute md5sum sha1sum sha256sum meta file size modTime =
  if seek_fails file || read_fails (reads file)
     || negb (size =? wrap64 (Z.of_nat (length content)))
  then (meta, false)
  else (mkMeta AllBits size modTime
          (md5sum content) (sha1sum content) (sha256sum content), true).
Proof.
  cbv zeta. unfold Compute.
  destruct (seek_fails file); [reflexivity|].
  rewrite read_loop_spec by (unfold in_int64; lia).
  destruct (read_fails (reads file)); [reflexivity|].
  cbn [orb app]. rewrite Z.add_0_l.
  destruct (negb (size =? _)); reflexivity.
Qed.

End Hashing.
End ComputeFacts.

Module ItemFacts.
Import ItemPkg.

Lemma Close_closed (item : option Item) (w : World) :
  Close (Close item w).1 (Close item w).2 = Close item w.
Proof.
  destruct item as [it|]; [|reflexivity].
  unfold Close. destruct (File it) as [fd|]; simpl; [|reflexivity].
  destruct (bool_decide _); reflexivity.
Qed.

Lemma Close_n_closed n (item : option Item) (w : World) :
  Close_n n (Close item w).1 (Close item w).2 = Close item w.
Proof.
  induction n as [|n IH]; simpl.
  - by destruct (Close item w).
  - rewrite Close_closed.
    destruct (Close item w) as [i' w'] eqn:E. simpl in IH. exact IH.
Qed.

(** The [Close] of the first version, on an Item without a handle. *)
Lemma legacy_Close_no_handle path (w : World) :
  LegacyItem.Close (Some (LegacyItem.mkItem None path)) w
  = Ret (LegacyItem.mkItem None path, false, w).
Proof. reflexivity. Qed.

Lemma legacy_Close_n_no_handle n path (w : World) :
  LegacyItem.Close_n n (LegacyItem.mkItem None path) w
  = Ret (LegacyItem.mkItem None path, w).
Proof.
  induction n as [|n IH]; [done|].
  cbn [LegacyItem.Close_n]. by rewrite legacy_Close_no_handle.
Qed.

Lemma legacy_Close_n_first n (it : LegacyItem.Item) (w : World) :
  LegacyItem.Close_n (S n) it w = LegacyItem.Close_n 1 it w.
Proof.
  cbn [LegacyItem.Close_n]. destruct it as [[fd|] path].
  - unfold LegacyItem.Close.
    cbn [LegacyItem.File LegacyItem.Path os_Close bindR fst snd].
    by rewrite legacy_Close_n_no_handle.
  - rewrite legacy_Close_no_handle. cbn [bindR fst snd].
    by rewrite legacy_Close_n_no_handle.
Qed.

Lemma legacy_Close_n_calls n (it : LegacyItem.Item) (w : World) :
  exists it' w', LegacyItem.Close_n n it w = Ret (it', w')
    /\ (length (close_calls w') <= S (length (close_calls w)))%nat.
Proof.
  destruct n as [|n]; [exists it, w; split; [done|lia]|].
  rewrite legacy_Close_n_first. cbn [LegacyItem.Close_n].
  destruct it as [[fd|] path]; cbn; eexists _, _;
    (split; [reflexivity|simpl; lia]).
Qed.

(** C9, as stated, fails on the [Close] of the first version: called on
    a nil Item pointer it faults, where the [Close] of internal/item
    does nothing. *)
Lemma legacy_Close_nil_pointer_faults :
  LegacyItem.Close None Samples.world0 = Panicked
  /\ Close None Samples.world0 = (None, Samples.world0).
Proof. split; reflexivity. Qed.

(** C9, amended.  For every Item of either version, after one [Close]
    any number of further [Close] calls leaves the Item and the system
    as they are and does not fault, [Close] on an Item without a handle
    does nothing at all, and however often [Close] is called, the
    handle is closed at most once.  On a nil Item pointer the [Close]
    of internal/item does nothing. *)
Theorem Close_idempotent_safe (item : option Item) (old : LegacyItem.Item)
    (w : World) (n : nat) :
  (Close_n n (Close item w).1 (Close item w).2 = Close item w
   /\ Close None w = (None, w)
   /\ (forall it, Close (Some (set_File None it)) w
                  = (Some (set_File None it), w))
   /\ (length (close_calls (Close_n n item w).2)
       <= S (length (close_calls w)))%nat)
  /\ (LegacyItem.Close_n (S n) old w = LegacyItem.Close_n 1 old w
      /\ (forall path, LegacyItem.Close (Some (LegacyItem.mkItem None path)) w
                       = Ret (LegacyItem.mkItem None path, false, w))
      /\ exists old' w', LegacyItem.Close_n n old w = Ret (old', w')
           /\ (length (close_calls w') <= S (length (close_calls w)))%nat).
Proof.
  split.
  - split; [apply Close_n_closed|]. split; [reflexivity|]. split; [reflexivity|].
    destruct n as [|n]; simpl; [lia|].
    destruct (Close item w) as [i' w'] eqn:E.
    change i' with (i', w').1. change w' with (i', w').2 at 2.
    rewrite <- E, Close_n_closed.
    destruct item as [it|]; simpl; [|lia].
    destruct (File it); simpl; [|lia].
    destruct (bool_decide _); simpl; lia.
  - split; [apply legacy_Close_n_first|]. split; [reflexivity|].
    apply legacy_Close_n_calls.
Qed.

End ItemFacts.

Module CodecFindings.
Import GoLib Metadata.

(** C6. The first version of the decoder refuses the one-digit text
    that its own encoder writes for the value 5, while the decoder of
    internal/metadata reads it as 5. *)
Theorem DecodeInt_single_digit :
  LegacyMetadata.EncodeInt 5 = bytes_of_string "5"
  /\ LegacyMetadata.DecodeInt (bytes_of_string "5") = None
  /\ decodeInt (bytes_of_string "5") = Some 5.
Proof. repeat split. Qed.

(** Every value from 1 to 9 is refused in the same way. *)
Lemma DecodeInt_rejects_1_to_9 :
  forallb (fun v => bool_decide
             (LegacyMetadata.DecodeInt (LegacyMetadata.EncodeInt v) = None))
          (seqZ 1 9) = true.
Proof. vm_compute. reflexivity. Qed.

(** C4. A text of 34 hexadecimal digits, offered as an MD5 digest, is
    neither accepted nor refused: [hex.Decode] is handed the 16-byte
    buffer and stores a 17th byte. *)
Theorem decodeHash_overlong_hex_panics :
  decodeHash 16 (replicate 34 48) = Panicked.
Proof. vm_compute. reflexivity. Qed.

(** The base64 decoders are reached in the same way by a text that is
    too long for the buffer. *)
Lemma decodeHash_overlong_base64_panics :
  decodeHash 16 (replicate 32 71) = Panicked.
Proof. vm_compute. reflexivity. Qed.

(** The text that [md5sum] prints, a digest and a file name, ends in
    the same way. *)
Lemma decodeHash_md5sum_line_panics :
  decodeHash 16 (bytes_of_string "d41d8cd98f00b204e9800998ecf8427e  -")
  = Panicked.
Proof. vm_compute. reflexivity. Qed.

(** [DecodeHash] of the first version has the same guards, and its
    expressions let both texts through. *)
Lemma DecodeHash_overlong_panics :
  LegacyMetadata.DecodeHash (replicate 16 0) (replicate 34 48) = Panicked
  /\ LegacyMetadata.DecodeHash (replicate 16 0) (replicate 32 71) = Panicked.
Proof. split; vm_compute; reflexivity. Qed.

(** C5. The first version of the codec does not read back the stamp it
    writes for a file of five bytes: the stamp starts with [size:5,],
    [DecodeInt] refuses the [5], and [Decode] answers false and leaves
    the size at zero. *)
Theorem Decode_Encode_size_5 (foldUnicode : list Z -> list Z -> bool) :
  take 7 (LegacyMetadata.Encode Samples.legacy5 []) = bytes_of_string "size:5,"
  /\ LegacyMetadata.Decode foldUnicode
       (LegacyMetadata.Encode Samples.legacy5 [])
     = Ret (LegacyMetadata.mkMetadata 0
              (LegacyMetadata.ModTime Samples.legacy5)
              (LegacyMetadata.MD5 Samples.legacy5)
              (LegacyMetadata.SHA1 Samples.legacy5)
              (LegacyMetadata.SHA256 Samples.legacy5), false).
Proof. split; vm_compute; reflexivity. Qed.

(** With a size of two digits the same record is read back. *)
Lemma Decode_Encode_size_12 (foldUnicode : list Z -> list Z -> bool) :
  let m := LegacyMetadata.mkMetadata 12
             (LegacyMetadata.ModTime Samples.legacy5)
             (LegacyMetadata.MD5 Samples.legacy5)
             (LegacyMetadata.SHA1 Samples.legacy5)
             (LegacyMetadata.SHA256 Samples.legacy5) in
  LegacyMetadata.Decode foldUnicode (LegacyMetadata.Encode m []) = Ret (m, true).
Proof. vm_compute. reflexivity. Qed.

End CodecFindings.

Module NamesFacts.
Import Metadata FindDuplicateFiles.

Lemma prefix_app (a b : string) : String.prefix a (a ++ b) = true.
Proof.
  induction a as [|c a IH]; simpl.
  - by destruct b.
  - destruct (Ascii.ascii_dec c c); [exact IH|done].
Qed.

(** C3, as the claim states it, fails for the default prefix: the size
    attribute is named [user.size]. *)
Lemma per_field_names_outside_prefix :
  ~ Forall (fun name => String.prefix flagNS_default name = true)
      (saved_names (gNames flagNS_default)).
Proof.
  intros H. apply Forall_cons in H as [_ H]. apply Forall_cons in H as [H _].
  vm_compute in H. discriminate.
Qed.

#[local] Set Warnings "-clear-no-such-hyp".

Lemma MaybeFSet_dom (file : gmap string (list Z)) name value :
  dom (MaybeFSet file name value) = {[name]} ∪ dom file.
Proof.
  unfold MaybeFSet. destruct (file !! name) eqn:E.
  - assert (name ∈ dom file) by (apply elem_of_dom; eauto).
    case_bool_decide; [set_solver|rewrite dom_insert_L; set_solver].
  - by rewrite dom_insert_L.
Qed.

(** The names [Save] writes under, whatever the prefix: the prefix
    followed by [stamp], and the fixed names [user.size], [user.mtime],
    [user.md5sum], [user.sha1sum] and [user.sha256sum]. *)
Lemma Save_names (flagNS : string) (meta : Metadata)
    (file : gmap string (list Z)) :
  nStamp (gNames flagNS) = (flagNS ++ "stamp")%string
  /\ String.prefix flagNS (nStamp (gNames flagNS)) = true
  /\ dom (Save meta file (gNames flagNS)) =
     {[ (flagNS ++ "stamp")%string; "user.size"%string; "user.mtime"%string;
        "user.md5sum"%string; "user.sha1sum"%string; "user.sha256sum"%string ]}
     ∪ dom file.
Proof.
  split; [reflexivity|]. split; [apply prefix_app|].
  unfold Save. rewrite !MaybeFSet_dom. simpl. set_solver.
Qed.

End NamesFacts.


Module SortFacts.

Lemma merge_sort_by_contract : sort_contract merge_sort_by.
Proof.
  intros A less l. unfold merge_sort_by. split.
  - apply merge_sort_Permutation.
  - intros _ Htot. by apply Sorted_merge_sort.
Qed.

Lemma StronglySorted_filter {A} (R : relation A) (P : A -> Prop)
    `{forall x, Decision (P x)} (l : list A) :
  StronglySorted R l -> StronglySorted R (filter P l).
Proof.
  induction 1 as [|x l Hs IH Hx]; [constructor|].
  rewrite filter_cons. destruct (decide (P x)); [|done].
  constructor; [done|].
  apply List.Forall_forall. intros y Hy.
  rewrite List.Forall_forall in Hx. apply Hx.
  apply list_elem_of_In. apply list_elem_of_In in Hy.
  by apply list_elem_of_filter in Hy as [_ ?].
Qed.

Lemma filter_eq_absent {A} `{EqDecision A} (x : A) (l : list A) :
  x ∉ l -> filter (fun y => y = x) l = [].
Proof.
  induction l as [|z l IH]; intros Hx; [done|].
  apply not_elem_of_cons in Hx as [Hz Hx].
  rewrite filter_cons. destruct (decide (z = x)); [congruence|]. by apply IH.
Qed.

(** The only element of a list without repetition that passes the test
    of being [x] is [x]. *)
Lemma filter_eq_NoDup {A} `{EqDecision A} (x : A) (l : list A) :
  NoDup l -> x ∈ l -> filter (fun y => y = x) l = [x].
Proof.
  induction 1 as [|y l Hy Hnd IH]; intros Hin; [by apply elem_of_nil in Hin|].
  rewrite filter_cons. destruct (decide (y = x)) as [->|Hne].
  - f_equal. by apply filter_eq_absent.
  - apply elem_of_cons in Hin as [->|Hin]; [done|]. by apply IH.
Qed.

(** Strings, in the order of [sort.Strings]. *)
Lemma string_not_after a b :
  not_after ScanByInode.string_Less a b <-> String.compare a b <> Gt.
Proof.
  unfold not_after, ScanByInode.string_Less, String.ltb.
  rewrite (String.compare_antisym a b).
  destruct (String.compare b a); simpl; split; intros; congruence.
Qed.

Lemma string_compare_trans a b c :
  String.compare a b <> Gt -> String.compare b c <> Gt ->
  String.compare a c <> Gt.
Proof.
  intros H1 H2.
  destruct (String.compare a b) eqn:E1; [|clear H1|done].
  - apply String.compare_eq_iff in E1. by subst.
  - destruct (String.compare b c) eqn:E2; [|clear H2|done].
    + apply String.compare_eq_iff in E2. subst. by rewrite E1.
    + apply String_as_OT.cmp_lt in E1, E2.
      pose proof (String_as_OT.lt_trans _ _ _ E1 E2) as H.
      apply String_as_OT.cmp_lt in H. unfold String_as_OT.cmp in H.
      by rewrite H.
Qed.

#[global] Instance string_not_after_trans :
  Transitive (not_after ScanByInode.string_Less).
Proof.
  intros a b c. rewrite !string_not_after. apply string_compare_trans.
Qed.

#[global] Instance string_not_after_total :
  Total (not_after ScanByInode.string_Less).
Proof.
  intros a b. rewrite !string_not_after.
  rewrite (String.compare_antisym a b).
  destruct (String.compare b a); simpl; [left|right|left]; congruence.
Qed.

Lemma string_not_after_antisym a b :
  not_after ScanByInode.string_Less a b ->
  not_after ScanByInode.string_Less b a -> a = b.
Proof.
  rewrite !string_not_after. rewrite (String.compare_antisym a b).
  destruct (String.compare b a) eqn:E; simpl; try congruence.
  intros _ _. symmetry. by apply String.compare_eq_iff.
Qed.

End SortFacts.

Module KeyOrder.
Import ScanByInode.

Lemma CompareBytes_antisym a : forall b,
  CompareBytes b a = - CompareBytes a b.
Proof.
  induction a as [|x a IH]; intros [|y b]; try reflexivity.
  cbn [CompareBytes]. rewrite IH. unfold CompareByte.
  repeat case_match; lia.
Qed.

Lemma CompareBytes_range a : forall b, -1 <= CompareBytes a b <= 1.
Proof.
  induction a as [|x a IH]; intros [|y b]; cbn [CompareBytes]; try lia.
  specialize (IH b). unfold CompareByte. repeat case_match; lia.
Qed.

Lemma CompareBytes_eq a : forall b,
  length a = length b -> CompareBytes a b = 0 -> a = b.
Proof.
  induction a as [|x a IH]; intros [|y b] Hl; try done.
  cbn [CompareBytes]. unfold CompareByte. injection Hl as Hl.
  repeat case_match; try lia.
  intros Hrest. f_equal; [lia|by apply IH].
Qed.

Lemma CompareBytes_refl a : CompareBytes a a = 0.
Proof.
  induction a as [|x a IH]; [done|]. cbn [CompareBytes]. unfold CompareByte.
  repeat case_match; lia.
Qed.

Lemma CompareBytes_trans a : forall b c,
  CompareBytes a b < 0 -> CompareBytes b c < 0 -> CompareBytes a c < 0.
Proof.
  induction a as [|x a IH]; intros [|y b] [|z c]; cbn [CompareBytes]; try lia.
  specialize (IH b c). unfold CompareByte.
  repeat case_match; lia.
Qed.

Lemma CompareSHA256_eq (a b : SHA256Sum) : CompareSHA256 a b = 0 <-> a = b.
Proof.
  unfold CompareSHA256. split.
  - intros H. apply vec_to_list_inj2, CompareBytes_eq; [|done].
    by rewrite !length_vec_to_list.
  - intros ->. apply CompareBytes_refl.
Qed.

(** [CompareTo] is the lexicographic order on digest, device, inode. *)
Lemma CompareTo_le a b :
  CompareTo a b <= 0 <->
  CompareSHA256 (Hash a) (Hash b) < 0
  \/ (Hash a = Hash b
      /\ (Dev a < Dev b \/ (Dev a = Dev b /\ Ino a <= Ino b))).
Proof.
  unfold CompareTo. rewrite <- CompareSHA256_eq.
  pose proof (CompareBytes_range (vec_to_list (Hash a)) (vec_to_list (Hash b))).
  unfold CompareSHA256 in *. unfold CompareUint64.
  repeat case_match; lia.
Qed.

Lemma CompareTo_antisym a b : CompareTo b a = - CompareTo a b.
Proof.
  unfold CompareTo, CompareSHA256.
  rewrite (CompareBytes_antisym (vec_to_list (Hash a))).
  unfold CompareUint64. repeat case_match; lia.
Qed.

Lemma CompareTo_eq a b : CompareTo a b = 0 -> a = b.
Proof.
  intros H.
  assert (H1 : CompareTo a b <= 0) by lia.
  assert (H2 : CompareTo b a <= 0) by (rewrite CompareTo_antisym; lia).
  apply CompareTo_le in H1, H2.
  pose proof (CompareBytes_antisym (vec_to_list (Hash a)) (vec_to_list (Hash b))).
  unfold CompareSHA256 in *.
  destruct a, b; simpl in *.
  destruct H1 as [?|(E1 & H1)], H2 as [?|(E2 & H2)]; try lia;
    try (subst; rewrite CompareBytes_refl in *; lia).
  subst. f_equal; lia.
Qed.

Lemma Key_not_after a b : not_after KeyList_Less a b <-> CompareTo a b <= 0.
Proof.
  unfold not_after, KeyList_Less. rewrite (CompareTo_antisym a b). lia.
Qed.

#[global] Instance Key_not_after_trans : Transitive (not_after KeyList_Less).
Proof.
  intros a b c. rewrite !Key_not_after, !CompareTo_le.
  pose proof (CompareBytes_trans (vec_to_list (Hash a)) (vec_to_list (Hash b))
                (vec_to_list (Hash c))).
  unfold CompareSHA256 in *.
  intros [H1|(E1 & H1)] [H2|(E2 & H2)].
  - left. lia.
  - left. by rewrite <- E2.
  - left. by rewrite E1.
  - right. split; [congruence|lia].
Qed.

#[global] Instance Key_not_after_total : Total (not_after KeyList_Less).
Proof.
  intros a b. rewrite !Key_not_after, (CompareTo_antisym a b). lia.
Qed.

Lemma Key_less_or a b : a <> b -> KeyList_Less a b = false -> KeyList_Less b a = true.
Proof.
  unfold KeyList_Less. intros Hne H.
  destruct (decide (CompareTo a b = 0)) as [E|E];
    [by apply CompareTo_eq in E|].
  rewrite (CompareTo_antisym a b). lia.
Qed.

Lemma SHA256_not_after a b :
  not_after SHA256List_Less a b <-> CompareSHA256 a b <= 0.
Proof.
  unfold not_after, SHA256List_Less, CompareSHA256.
  rewrite (CompareBytes_antisym (vec_to_list a)). lia.
Qed.

#[global] Instance SHA256_not_after_trans : Transitive (not_after SHA256List_Less).
Proof.
  intros a b c. rewrite !SHA256_not_after.
  pose proof (CompareBytes_trans (vec_to_list a) (vec_to_list b) (vec_to_list c))
    as Ht.
  pose proof (proj1 (CompareSHA256_eq a b)) as Hab.
  pose proof (proj1 (CompareSHA256_eq b c)) as Hbc.
  unfold CompareSHA256 in *. intros Hle1 Hle2.
  destruct (decide (CompareBytes (vec_to_list a) (vec_to_list b) = 0)) as [E|E].
  { rewrite (Hab E). done. }
  destruct (decide (CompareBytes (vec_to_list b) (vec_to_list c) = 0)) as [E'|E'].
  { rewrite <- (Hbc E'). done. }
  lia.
Qed.

#[global] Instance SHA256_not_after_total : Total (not_after SHA256List_Less).
Proof.
  intros a b. rewrite !SHA256_not_after. unfold CompareSHA256.
  rewrite (CompareBytes_antisym (vec_to_list a)). lia.
Qed.

End KeyOrder.


Module GroupingFacts.
Import ScanByInode SortFacts KeyOrder.


Lemma paths_of_snoc k files f :
  paths_of k (files ++ [f]) =
  if decide (key_of f = k) then paths_of k files ++ [sPath f]
  else paths_of k files.
Proof.
  unfold paths_of. rewrite filter_app, filter_cons, filter_nil.
  destruct (decide (key_of f = k)).
  - by rewrite fmap_app.
  - by rewrite app_nil_r.
Qed.

Lemma scan_lookup files k :
  scan files !! k =
  if decide (paths_of k files = []) then None else Some (paths_of k files).
Proof.
  unfold scan. induction files as [|f files IH] using rev_ind.
  - simpl. by rewrite lookup_empty.
  - rewrite foldl_app. cbn [foldl]. unfold record_file at 1.
    rewrite paths_of_snoc.
    destruct (decide (key_of f = k)) as [<-|Hne].
    + rewrite lookup_insert_eq, IH.
      destruct (decide (paths_of (key_of f) files = [])) as [->|E]; cbn [default];
        by rewrite decide_False by (intros E'; by apply app_eq_nil in E' as [_ ?]).
    + by rewrite lookup_insert_ne.
Qed.

Lemma scan_lookup_Some files k l :
  scan files !! k = Some l -> l = paths_of k files /\ l <> [].
Proof.
  rewrite scan_lookup. destruct (decide _); [done|]. by intros [= <-].
Qed.

Lemma elem_of_paths_of p k files :
  p ∈ paths_of k files <-> exists f, f ∈ files /\ key_of f = k /\ sPath f = p.
Proof.
  unfold paths_of. rewrite list_elem_of_fmap. split.
  - intros (f & -> & Hf). apply list_elem_of_filter in Hf as [? ?]. eauto.
  - intros (f & Hf & Hk & <-). exists f. split; [done|].
    by apply list_elem_of_filter.
Qed.

Section Grouping.

Variable sort_Sort : forall A, (A -> A -> bool) -> list A -> list A.
Hypothesis Hsort : sort_contract sort_Sort.

Lemma sorted_perm {A} (less : A -> A -> bool) l :
  sort_Sort A less l ≡ₚ l.
Proof. apply Hsort. Qed.

Lemma sorted_strongly {A} (less : A -> A -> bool) l :
  Transitive (not_after less) -> Total (not_after less) ->
  StronglySorted (not_after less) (sort_Sort A less l).
Proof.
  intros Htr Htot. apply Sorted_StronglySorted; [done|]. by apply Hsort.
Qed.


Lemma collapse_spec seen keys :
  (forall k, k ∈ keys -> exists l, seen !! k = Some l /\ l <> []) ->
  exists m, collapse sort_Sort seen keys = Ret m /\
    forall h, m !! h =
      let l := rep_of sort_Sort seen <$> filter (fun k => Hash k = h) keys in
      if decide (l = []) then None else Some l.
Proof.
  unfold collapse. induction keys as [|k keys IH] using rev_ind; intros Hne.
  - exists ∅. split; [done|]. intros h. by rewrite lookup_empty.
  - destruct IH as (m & Hm & Hl).
    { intros k' Hk'. apply Hne. apply elem_of_app. by left. }
    rewrite foldl_app. cbn [foldl]. rewrite Hm.
    unfold collapse_step. cbn [bindR].
    destruct (Hne k) as (l & Hk & Hl0); [apply elem_of_app; right; by left|].
    pose proof (sorted_perm string_Less (default [] (seen !! k))) as Hp.
    assert (Hrep : sort_Sort string string_Less (default [] (seen !! k))
                   = rep_of sort_Sort seen k :: tl (sort_Sort string string_Less (default [] (seen !! k)))).
    { unfold rep_of. destruct (sort_Sort string string_Less _) eqn:E; [|done].
      rewrite Hk in Hp. simpl in Hp. apply Permutation_nil_l in Hp. done. }
    rewrite Hrep. eexists. split; [reflexivity|].
    intros h. cbv zeta. rewrite filter_app, filter_cons, filter_nil, fmap_app.
    destruct (decide (Hash k = h)) as [<-|Hh].
    + rewrite lookup_insert_eq, Hl. cbv zeta.
      destruct (decide (rep_of sort_Sort seen <$> filter _ keys = [])) as [->|E]; cbn [default];
        by rewrite decide_False by (intros E'; by apply app_eq_nil in E' as [_ ?]).
    + rewrite lookup_insert_ne by done. rewrite Hl. cbv zeta.
      simpl. by rewrite app_nil_r.
Qed.

Lemma groups_absent (m : gmap SHA256Sum (list string)) hashes h :
  h ∉ hashes ->
  filter (fun g : SHA256Sum * list string => g.1 = h) (groups m hashes) = [].
Proof.
  unfold groups. induction hashes as [|y ys IH]; intros Hh; [done|].
  apply not_elem_of_cons in Hh as [Hy Hh].
  cbn [map]. rewrite filter_cons.
  destruct (decide _); [rewrite filter_cons; cbn [fst];
                        destruct (decide (y = h)); [congruence|]|]; by apply IH.
Qed.

(** Among the labelled lists, the one of a digest that is present. *)
Lemma groups_of_digest (m : gmap SHA256Sum (list string)) hashes h l :
  NoDup hashes -> h ∈ hashes -> m !! h = Some l -> (1 < length l)%nat ->
  filter (fun g : SHA256Sum * list string => g.1 = h) (groups m hashes) = [(h, l)].
Proof.
  intros Hnd Hin Hl Hlen.
  induction Hnd as [|x xs Hx Hnd IH]; [by apply elem_of_nil in Hin|].
  destruct (decide (x = h)) as [->|Hxh].
  - pose proof (groups_absent m xs h Hx) as Habs.
    unfold groups in *. cbn [map]. rewrite Hl. cbn [default].
    rewrite filter_cons. cbn [snd]. rewrite decide_True by done.
    rewrite filter_cons. cbn [fst]. rewrite decide_True by done.
    by rewrite Habs.
  - apply elem_of_cons in Hin as [->|Hin]; [done|].
    specialize (IH Hin). unfold groups in *. cbn [map].
    rewrite filter_cons.
    destruct (decide _); [rewrite filter_cons; cbn [fst];
                          rewrite decide_False by done|]; exact IH.
Qed.

(** The first element of a sorted list of paths is one of them and
    stands before all of them. *)
Lemma rep_of_min seen key l :
  seen !! key = Some l -> l <> [] ->
  rep_of sort_Sort seen key ∈ l
  /\ forall p, p ∈ l -> not_after string_Less (rep_of sort_Sort seen key) p.
Proof.
  intros Hk Hl.
  pose proof (sorted_perm string_Less l) as Hp.
  pose proof (sorted_strongly string_Less l _ _) as Hs.
  assert (E : exists rest, sort_Sort string string_Less l = rep_of sort_Sort seen key :: rest).
  { unfold rep_of. rewrite Hk. change (default [] (Some l)) with l.
    revert Hp. clear Hs.
    destruct (sort_Sort string string_Less l) as [|x rest];
      [|eexists; reflexivity].
    intros Hp. apply Permutation_nil_l in Hp. done. }
  destruct E as [rest E]. rewrite E in Hp, Hs.
  remember (rep_of sort_Sort seen key) as x eqn:Hx. clear Hx E.
  split.
  - apply (Permutation_in x) in Hp; [|by left]. by apply list_elem_of_In.
  - intros p Hin. apply list_elem_of_In in Hin.
    apply Permutation_sym in Hp.
    apply (Permutation_in p Hp), list_elem_of_In in Hin.
    apply StronglySorted_inv in Hs as [_ Hall].
    apply elem_of_cons in Hin as [->|Hin].
    + destruct (total (not_after string_Less) x x); done.
    + rewrite List.Forall_forall in Hall. apply Hall. by apply list_elem_of_In.
Qed.

(** C1. In a scan whose files of one digest are the hardlinks [A] and
    [B] of one inode and a file [C] of another inode, the list
    reported for that digest holds exactly two paths: the smaller of
    the paths of [A] and [B], and the path of [C], in the order of
    their keys.  It is never the list of all three. *)
Theorem two_phase_pair (files : list Scanned) (A B C : Scanned) :
  A ∈ files -> B ∈ files -> C ∈ files ->
  key_of A = key_of B ->
  sHash C = sHash A ->
  (sDev C, sIno C) <> (sDev A, sIno A) ->
  (forall f, f ∈ files -> sHash f = sHash A -> f = A \/ f = B \/ f = C) ->
  let rep := if string_Less (sPath B) (sPath A) then sPath B else sPath A in
  let pair := if KeyList_Less (key_of A) (key_of C)
              then [rep; sPath C] else [sPath C; rep] in
  exists gs,
    main_groups sort_Sort (scan files) = Ret gs
    /\ main_results sort_Sort (scan files) = Ret gs.*2
    /\ filter (fun g : SHA256Sum * list string => g.1 = sHash A) gs
       = [(sHash A, pair)].
Proof.
  intros HA HB HC HAB HCh HCA Honly.
  set (h := sHash A) in *. set (kA := key_of A) in *. set (kC := key_of C).
  intros rep pair.
  set (seen := scan files).
  assert (HkAC : kA <> kC).
  { intros E. apply HCA.
    pose proof (f_equal Dev E) as E1. pose proof (f_equal Ino E) as E2.
    simpl in E1, E2. congruence. }
  assert (HhA : Hash kA = h) by done.
  assert (HhC : Hash kC = h) by done.
  (* which files stand under which key *)
  assert (HunderA : forall f, f ∈ files -> key_of f = kA -> f = A \/ f = B).
  { intros f Hf Hk. destruct (Honly f Hf) as [?|[?| ->]]; auto.
    - by rewrite <- HhA, <- Hk.
    - done. }
  assert (HunderC : forall f, f ∈ files -> key_of f = kC -> f = C).
  { intros f Hf Hk. destruct (Honly f Hf) as [->|[->|?]]; auto.
    - by rewrite <- HhC, <- Hk.
    - done.
    - by rewrite <- HAB in Hk. }
  pose proof (scan_lookup files kA) as HsA. rewrite decide_False in HsA.
  2:{ intros E. assert (Hin : sPath A ∈ paths_of kA files)
        by (apply elem_of_paths_of; eauto).
      rewrite E in Hin. by apply elem_of_nil in Hin. }
  pose proof (scan_lookup files kC) as HsC. rewrite decide_False in HsC.
  2:{ intros E. assert (Hin : sPath C ∈ paths_of kC files)
        by (apply elem_of_paths_of; eauto).
      rewrite E in Hin. by apply elem_of_nil in Hin. }
  fold seen in HsA, HsC.
  (* the sorted keys *)
  unfold main_results, main_groups. fold seen.
  set (keys := sort_Sort Key KeyList_Less (map_to_list seen).*1).
  assert (Hkeys : forall k, k ∈ keys <-> is_Some (seen !! k)).
  { intros k. unfold keys. rewrite sorted_perm, list_elem_of_fmap. split.
    - intros ([k' l] & -> & Hin). apply elem_of_map_to_list in Hin. eauto.
    - intros [l Hl]. exists (k, l). split; [done|]. by apply elem_of_map_to_list. }
  assert (Hnd : NoDup keys).
  { unfold keys. rewrite sorted_perm. apply NoDup_fst_map_to_list. }
  assert (Hss : StronglySorted (not_after KeyList_Less) keys)
    by (apply sorted_strongly; apply _).
  destruct (collapse_spec seen keys) as (m & Hm & Hl).
  { intros k Hk. apply Hkeys in Hk as [l Hk]. exists l. split; [done|].
    by apply scan_lookup_Some in Hk as [_ ?]. }
  rewrite Hm. cbn [bindR].
  (* the keys of the digest *)
  set (keysh := filter (fun k => Hash k = h) keys).
  assert (Hperm : [kA; kC] ≡ₚ keysh).
  { apply NoDup_Permutation.
    - apply NoDup_cons. split; [by intros ->%list_elem_of_singleton|].
      apply NoDup_singleton.
    - by apply NoDup_filter.
    - intros k. unfold keysh. rewrite list_elem_of_filter, Hkeys. split.
      + intros Hk. apply elem_of_cons in Hk as [->|Hk];
          [|apply list_elem_of_singleton in Hk as ->]; split; eauto.
      + intros [Hh [l Hk]]. apply scan_lookup_Some in Hk as [-> Hne].
        destruct (paths_of k files) as [|p ps] eqn:E; [done|].
        assert (Hp : p ∈ paths_of k files) by (rewrite E; by left).
        apply elem_of_paths_of in Hp as (f & Hf & Hkf & _).
        destruct (Honly f Hf) as [->|[->| ->]];
          [by rewrite <- Hh, <- Hkf|..]; subst k.
        * left.
        * rewrite <- HAB. left.
        * right. left. }
  assert (Hsh : StronglySorted (not_after KeyList_Less) keysh)
    by (by apply StronglySorted_filter).
  assert (Hkeysh : keysh = if KeyList_Less kA kC then [kA; kC] else [kC; kA]).
  { apply Permutation_length_2_inv in Hperm as [E|E]; rewrite E in Hsh |- *.
    - apply StronglySorted_inv in Hsh as [_ Hall].
      apply Forall_cons in Hall as [Hn _]. unfold not_after in Hn.
      destruct (KeyList_Less kA kC) eqn:El; [done|].
      by rewrite (Key_less_or kA kC) in Hn.
    - apply StronglySorted_inv in Hsh as [_ Hall].
      apply Forall_cons in Hall as [Hn _]. unfold not_after in Hn.
      by rewrite Hn. }
  (* the two representatives *)
  destruct (rep_of_min seen kA _ HsA) as [HrA HminA].
  { intros E. rewrite E in HsA. by apply scan_lookup_Some in HsA as [_ ?]. }
  destruct (rep_of_min seen kC _ HsC) as [HrC _].
  { intros E. rewrite E in HsC. by apply scan_lookup_Some in HsC as [_ ?]. }
  assert (ErC : rep_of sort_Sort seen kC = sPath C).
  { apply elem_of_paths_of in HrC as (f & Hf & Hk & <-).
    by rewrite (HunderC f Hf Hk). }
  assert (ErA : rep_of sort_Sort seen kA = rep).
  { assert (HpA : sPath A ∈ paths_of kA files) by (apply elem_of_paths_of; eauto).
    assert (HpB : sPath B ∈ paths_of kA files).
    { apply elem_of_paths_of. exists B. by rewrite <- HAB. }
    apply HminA in HpA, HpB.
    apply elem_of_paths_of in HrA as (f & Hf & Hk & Hr).
    unfold rep. unfold not_after in HpA, HpB.
    rewrite <- Hr in HpA, HpB |- *. clear Hr.
    destruct (HunderA f Hf Hk) as [E|E]; rewrite E in HpA, HpB |- *.
    - destruct (string_Less (sPath B) (sPath A)) eqn:El; [congruence|done].
    - destruct (string_Less (sPath B) (sPath A)) eqn:El; [done|].
      by apply string_not_after_antisym. }
  (* the list of the digest *)
  assert (Hmh : m !! h = Some pair).
  { rewrite Hl. cbv zeta. fold keysh. rewrite Hkeysh. unfold pair.
    destruct (KeyList_Less kA kC); cbn [fmap list_fmap];
      rewrite ErA, ErC; by destruct (decide _). }
  set (hashes := sort_Sort SHA256Sum SHA256List_Less (map_to_list m).*1).
  exists (groups m hashes). split; [done|]. split; [done|].
  apply groups_of_digest; [| |done|].
  - unfold hashes. rewrite sorted_perm. apply NoDup_fst_map_to_list.
  - unfold hashes. rewrite sorted_perm, list_elem_of_fmap.
    exists (h, pair). split; [done|]. by apply elem_of_map_to_list.
  - unfold pair. destruct (KeyList_Less kA kC); simpl; lia.
Qed.

End Grouping.
End GroupingFacts.


Module SurvivorFacts.
Import ItemPkg CleanDuplicateFiles SortFacts.

Ltac spec_tree :=
  first [ left; lia
        | right; split; [lia|]; first
            [ left; lia
            | right; split; [lia|]; first
                [ left; lia
                | right; split; [lia|]; congruence ] ] ].

Ltac break_spec :=
  repeat match goal with
         | H : _ \/ _ |- _ => destruct H
         | H : _ /\ _ |- _ => destruct H
         end.

(** [CompareItems] decides the order of the specification. *)
Lemma Items_not_after a b : not_after Items_Less a b <-> spec_before a b.
Proof.
  unfold not_after, Items_Less, CompareItems, spec_before,
    cmp_Compare, cmp_Compare_string.
  rewrite (String.compare_antisym (Path a) (Path b)).
  destruct (String.compare (Path b) (Path a)); cbn [CompOpp];
    destruct (Z.ltb_spec (Priority b) (Priority a));
    destruct (Z.ltb_spec (Priority a) (Priority b));
    destruct (Z.ltb_spec (Nlink b) (Nlink a));
    destruct (Z.ltb_spec (Nlink a) (Nlink b));
    destruct (Z.ltb_spec (Time b) (Time a));
    destruct (Z.ltb_spec (Time a) (Time b));
    try lia; cbn; (split; [intros ?; first [discriminate | spec_tree]
                          |intros ?; first [reflexivity | exfalso; break_spec; first [lia | congruence]]]).
Qed.

Lemma spec_before_trans a b c :
  spec_before a b -> spec_before b c -> spec_before a c.
Proof.
  unfold spec_before. intros H1 H2.
  pose proof (string_compare_trans (Path a) (Path b) (Path c)) as Ht.
  destruct H1 as [?|(? & [?|(? & [?|(? & ?)])])],
           H2 as [?|(? & [?|(? & [?|(? & ?)])])];
    first [ left; lia
          | right; split; [lia|]; first
              [ left; lia
              | right; split; [lia|]; first
                  [ left; lia
                  | right; split; [lia|]; by apply Ht ] ] ].
Qed.

#[global] Instance Items_not_after_trans : Transitive (not_after Items_Less).
Proof. intros a b c. rewrite !Items_not_after. apply spec_before_trans. Qed.

Lemma CompareItems_antisym a b : CompareItems b a = - CompareItems a b.
Proof.
  unfold CompareItems, cmp_Compare, cmp_Compare_string.
  rewrite (String.compare_antisym (Path a) (Path b)).
  destruct (String.compare (Path b) (Path a)); cbn [CompOpp];
    destruct (Z.ltb_spec (Priority b) (Priority a));
    destruct (Z.ltb_spec (Priority a) (Priority b));
    destruct (Z.ltb_spec (Nlink b) (Nlink a));
    destruct (Z.ltb_spec (Nlink a) (Nlink b));
    destruct (Z.ltb_spec (Time b) (Time a));
    destruct (Z.ltb_spec (Time a) (Time b));
    try lia; reflexivity.
Qed.

#[global] Instance Items_not_after_total : Total (not_after Items_Less).
Proof.
  intros a b. unfold not_after, Items_Less.
  rewrite (CompareItems_antisym a b). lia.
Qed.

(** The loop stops at the first item that is not a symlink. *)
Lemma pick_best_None items : forall index,
  pick_best items index = None <-> Forall (fun it => IsSymlink it = true) items.
Proof.
  induction items as [|it items IH]; intros index; cbn [pick_best].
  - split; [constructor|done].
  - destruct (IsSymlink it) eqn:E; cbn [negb].
    + rewrite IH. split; [by constructor|]. by intros [_ ?]%Forall_cons.
    + split; [done|]. intros [? _]%Forall_cons. congruence.
Qed.

Lemma pick_best_Some items : forall index j best,
  pick_best items index = Some (j, best) ->
  exists pre post,
    items = pre ++ best :: post
    /\ Forall (fun it => IsSymlink it = true) pre
    /\ IsSymlink best = false
    /\ j = (index + length pre)%nat.
Proof.
  induction items as [|it items IH]; intros index j best; cbn [pick_best]; [done|].
  destruct (IsSymlink it) eqn:E; cbn [negb].
  - intros H. apply IH in H as (pre & post & -> & Hpre & Hb & ->).
    exists (it :: pre), post. repeat split; [by constructor|done|simpl; lia].
  - intros [= <- <-]. exists [], items. repeat split; [constructor|done|simpl; lia].
Qed.

Lemma Sorted_mono {A} (R R' : relation A) (l : list A) :
  (forall a b, R a b -> R' a b) -> Sorted R l -> Sorted R' l.
Proof.
  intros HR. induction 1 as [|x l Hs IH Hhd]; constructor; [done|].
  destruct Hhd; constructor. by apply HR.
Qed.

Lemma mapM_id_Some {A} (l : list A) : mapM id (Some <$> l) = Some l.
Proof.
  induction l as [|x l IH]; [done|].
  cbn [fmap list_fmap mapM]. simpl. rewrite IH. reflexivity.
Qed.

Section ProcessBatch.

Variable sort_Sort : forall A, (A -> A -> bool) -> list A -> list A.
Hypothesis Hsort : sort_contract sort_Sort.
Variable FS : Type.
Variable Open : string -> option Item.
Variable tryLink trySymlink : string -> string -> FS -> bool * FS.

Lemma replace_loop_survivor best bestIndex items : forall index replaced fs,
  survivor_of
    (replace_loop FS tryLink trySymlink best bestIndex items index replaced fs).1
  = Some best.
Proof.
  induction items as [|it items IH]; intros index replaced fs; [done|].
  cbn [replace_loop].
  destruct (index =? bestIndex)%nat; [apply IH|].
  destruct (os_SameFile it best && negb (IsSymlink it)); [apply IH|].
  destruct (tryLink (Path best) (Path it) fs) as [[|] fs1]; cbn [negb].
  - apply IH.
  - destruct (trySymlink (Path best) (Path it) fs1) as [[|] fs2]; cbn [negb].
    + apply IH.
    + reflexivity.
Qed.

(** For a group of two paths or more that all open, the items are
    put in the order of the specification, and the survivor is the
    first item in that order that is not a symlink; when every item is
    a symlink the batch returns without a survivor, having replaced
    nothing and left the file system as it was. *)
Lemma survivor_selection (paths : list string) (items : list Item) (fs : FS) :
  (1 < length paths)%nat ->
  Open <$> paths = Some <$> items ->
  exists sorted,
    sorted ≡ₚ items
    /\ Sorted spec_before sorted
    /\ ((Forall (fun it => IsSymlink it = true) sorted
         /\ processBatch sort_Sort FS Open tryLink trySymlink paths fs
            = (Returned None [], fs))
        \/ (exists pre best post,
              sorted = pre ++ best :: post
              /\ Forall (fun it => IsSymlink it = true) pre
              /\ IsSymlink best = false
              /\ survivor_of
                   (processBatch sort_Sort FS Open tryLink trySymlink paths fs).1
                 = Some best)).
Proof.
  intros Hlen Hopen. exists (sort_Sort Item Items_Less items).
  destruct (Hsort Item Items_Less items) as [Hperm Hsorted].
  split; [done|]. split.
  { eapply Sorted_mono; [|apply Hsorted; apply _].
    intros a b. apply Items_not_after. }
  unfold processBatch.
  replace (length paths <=? 1)%nat with false by (symmetry; apply Nat.leb_gt; lia).
  change (map Open paths) with (Open <$> paths).
  rewrite Hopen, mapM_id_Some.
  destruct (pick_best (sort_Sort Item Items_Less items) 0) as [[j best]|] eqn:E.
  - right. apply pick_best_Some in E as (pre & post & E & Hpre & Hb & _).
    exists pre, best, post. repeat split; try done.
    apply replace_loop_survivor.
  - left. by apply pick_best_None in E.
Qed.

(** A path that does not open ends the batch in a panic. *)
Lemma processBatch_nil_item (paths : list string) (fs : FS) :
  (1 < length paths)%nat -> (exists p, p ∈ paths /\ Open p = None) ->
  processBatch sort_Sort FS Open tryLink trySymlink paths fs = (Panic, fs).
Proof.
  intros Hlen (p & Hin & Hp). unfold processBatch.
  replace (length paths <=? 1)%nat with false by (symmetry; apply Nat.leb_gt; lia).
  assert (E : mapM id (map Open paths) = None); [|by rewrite E].
  clear Hlen. induction paths as [|q paths IH]; [by apply elem_of_nil in Hin|].
  cbn [map mapM]. apply elem_of_cons in Hin as [<-|Hin].
  - by rewrite Hp.
  - rewrite (IH Hin). simpl. by destruct (Open q).
Qed.

End ProcessBatch.
End SurvivorFacts.

Module SurvivorFindings.
Import Samples ItemPkg CleanDuplicateFiles.

(** C2. A group with a path that does not open: [Open] answers nil for
    it, the sort reads the fields of the nil item, and the batch ends
    in a panic with no survivor chosen and nothing replaced, where the
    two paths that open have a survivor on their own. *)
Theorem processBatch_unopened_path_panics :
  open_two "/gone" = None
  /\ processBatch merge_sort_by _ open_two link_ok link_ok
       ["/a"; "/gone"; "/b"]%string [] = (Panic, [])
  /\ processBatch merge_sort_by _ open_two link_ok link_ok
       ["/a"; "/b"]%string []
     = (Returned (Some itemB) ["/a"%string], [("/b", "/a")]%string).
Proof. repeat split. Qed.

End SurvivorFindings.


Module GlobFacts.
Import Utf8 Glob.

(** *** Decoding *)

Lemma DecodeRune_size s :
  (snd (DecodeRuneInString s) <= length s)%nat
  /\ (s <> [] -> (1 <= snd (DecodeRuneInString s))%nat).
Proof.
  unfold DecodeRuneInString.
  destruct s as [|s0 rest]; [simpl; split; [lia|done]|].
  destruct (first s0) as [[[sz lo] hi]|]; [|destruct (s0 <? 128); simpl; split; lia].
  destruct (length (s0 :: rest) <? sz)%nat; [simpl; split; lia|].
  destruct rest as [|s1 rest1]; [simpl; split; lia|].
  destruct ((s1 <? lo) || (hi <? s1)); [simpl; split; lia|].
  destruct (sz <=? 2)%nat; [simpl; split; lia|].
  destruct rest1 as [|s2 rest2]; [simpl; split; lia|].
  destruct (negb (continuation s2)); [simpl; split; lia|].
  destruct (sz <=? 3)%nat; [simpl; split; lia|].
  destruct rest2 as [|s3 rest3]; [simpl; split; lia|].
  destruct (negb (continuation s3)); simpl; split; lia.
Qed.

Lemma next_rune_shorter s ch rest :
  next_rune s = Some (ch, rest) -> (length rest < length s)%nat.
Proof.
  unfold next_rune. pose proof (DecodeRune_size s) as [Hle Hge].
  destruct (DecodeRuneInString s) as [c size]. simpl in *.
  destruct (_ || _) eqn:E; [|done]. intros [= <- <-].
  rewrite length_drop.
  assert (s <> []).
  { intros ->. simpl in Hle. assert (size = 0%nat) by lia. subst. done. }
  specialize (Hge H). lia.
Qed.


Lemma decode_all_decodes fuel : forall s,
  (length s <= fuel)%nat ->
  decodes s (decode_all fuel s).1 (decode_all fuel s).2.
Proof.
  induction fuel as [|fuel IH]; intros s Hs.
  - destruct s; [|simpl in Hs; lia]. simpl. by apply (decodes_end []).
  - cbn [decode_all]. destruct (next_rune s) as [[ch rest]|] eqn:E.
    + pose proof (next_rune_shorter _ _ _ E).
      specialize (IH rest ltac:(lia)).
      destruct (decode_all fuel rest) as [rs clean]. simpl in *.
      by eapply decodes_step.
    + simpl. by apply decodes_end.
Qed.

Lemma decodes_length s rs clean :
  decodes s rs clean -> (length rs <= length s)%nat.
Proof.
  induction 1 as [|s ch rest rs clean Hn _ IH]; simpl; [lia|].
  apply next_rune_shorter in Hn. lia.
Qed.

(** *** The compiler between two tokens *)



Lemma peekRune_none st d out inp :
  peekRune (cfg st d out inp None) =
  match next_rune inp with
  | Some (ch, rest) => (ch, true, cfg st d out rest (Some ch))
  | None => (-1, false, cfg st d out inp None)
  end.
Proof.
  unfold peekRune, next_rune, cfg. cbn -[DecodeRuneInString].
  destruct (DecodeRuneInString inp) as [ch size].
  by destruct (_ || _).
Qed.

Lemma remaining_nil inp pend clean :
  remaining inp pend [] clean ->
  pend = None /\ next_rune inp = None /\ clean = bool_decide (inp = []).
Proof.
  destruct pend as [c|]; simpl.
  - by intros (rs' & ? & _).
  - by inversion 1.
Qed.

(** Peeking at the next rune, and consuming it. *)
Lemma peek_cons st d out inp pend ch rs clean :
  remaining inp pend (ch :: rs) clean ->
  exists inp',
    peekRune (cfg st d out inp pend) = (ch, true, cfg st d out inp' (Some ch))
    /\ decodes inp' rs clean
    /\ consumeRune ch (cfg st d out inp pend) = Ret (cfg st d out inp' None)
    /\ consumeRune ch (cfg st d out inp' (Some ch)) = Ret (cfg st d out inp' None).
Proof.
  destruct pend as [c|]; simpl.
  - intros (rs' & [= <- <-] & Hd). exists inp.
    unfold consumeRune, peekRune, cfg. simpl. rewrite Z.eqb_refl. done.
  - inversion 1 as [|? ? rest ? ? Hn Hd]; subst. exists rest.
    assert (Hc : consumeRune ch (cfg st d out rest (Some ch))
                 = Ret (cfg st d out rest None)).
    { unfold consumeRune, peekRune, cfg. simpl. by rewrite Z.eqb_refl. }
    rewrite peekRune_none, Hn. repeat split; try done.
    unfold consumeRune. change (err (cfg st d out inp None)) with (@None error).
    cbn [bool_decide decide_rel negb]. rewrite peekRune_none, Hn.
    cbn [negb]. rewrite Z.eqb_refl. reflexivity.
Qed.


Lemma consume_pending st d out inp c :
  consumeRune c (cfg st d out inp (Some c)) = Ret (cfg st d out inp None).
Proof. unfold consumeRune, peekRune, cfg. simpl. by rewrite Z.eqb_refl. Qed.

Lemma peek_pending st d out inp c :
  peekRune (cfg st d out inp (Some c)) = (c, true, cfg st d out inp (Some c)).
Proof. done. Qed.

Lemma fields_cfg st d out inp pend :
  err (cfg st d out inp pend) = None
  /\ input (cfg st d out inp pend) = inp
  /\ output (cfg st d out inp pend) = out
  /\ depth (cfg st d out inp pend) = d
  /\ state (cfg st d out inp pend) = st.
Proof. done. Qed.

Lemma err_cfg st d out inp pend : err (cfg st d out inp pend) = None.
Proof. done. Qed.
Lemma input_cfg st d out inp pend : input (cfg st d out inp pend) = inp.
Proof. done. Qed.
Lemma output_cfg st d out inp pend : output (cfg st d out inp pend) = out.
Proof. done. Qed.
Lemma depth_cfg st d out inp pend : depth (cfg st d out inp pend) = d.
Proof. done. Qed.
Lemma state_cfg st d out inp pend : state (cfg st d out inp pend) = st.
Proof. done. Qed.
Lemma set_state_cfg s st d out inp pend :
  set_state s (cfg st d out inp pend) = cfg s d out inp pend.
Proof. done. Qed.
Lemma set_output_cfg o st d out inp pend :
  set_output o (cfg st d out inp pend) = cfg st d o inp pend.
Proof. done. Qed.
Lemma set_depth_cfg d' st d out inp pend :
  set_depth d' (cfg st d out inp pend) = cfg st d' out inp pend.
Proof. done. Qed.
Lemma fail_cfg e st d out inp pend :
  fail e (cfg st d out inp pend)
  = Ret (false, mkCompiler (Some e) [] out 0 (-1) false stateDone).
Proof. done. Qed.

Create Rewrite HintDb cfg.
#[local] Hint Rewrite err_cfg input_cfg output_cfg depth_cfg state_cfg
  set_state_cfg set_output_cfg set_depth_cfg fail_cfg : cfg.

#[local] Arguments cfg : simpl never.

Lemma scan_plain dd ch rs clean :
  ch <> 92 -> ch <> 91 -> ch <> 123 -> (ch <> 125 \/ dd = 0%nat) ->
  scan Outside dd (ch :: rs) clean = scan Outside dd rs clean.
Proof.
  intros H1 H2 H3 H4. cbn [scan].
  replace (ch =? 92) with false by lia. replace (ch =? 91) with false by lia.
  replace (ch =? 123) with false by lia.
  destruct H4 as [H4| ->].
  - replace (ch =? 125) with false by lia. done.
  - by rewrite andb_false_r.
Qed.

(** The slashes after the first are read and leave the scan where it
    was. *)
Lemma onSlash_loop_spec rs : forall fuel st d out inp pend clean,
  remaining inp pend rs clean -> (length rs < fuel)%nat ->
  exists inp' pend' rs',
    onSlash_loop fuel (cfg st d out inp pend) = Ret (cfg st d out inp' pend')
    /\ remaining inp' pend' rs' clean
    /\ (length rs' <= length rs)%nat
    /\ forall dd, scan Outside dd rs clean = scan Outside dd rs' clean.
Proof.
  induction rs as [|ch rs IH]; intros fuel st d out inp pend clean Hrem Hf;
    (destruct fuel as [|fuel]; [simpl in Hf; lia|]); cbn [onSlash_loop].
  - pose proof Hrem as Hrem'.
    apply remaining_nil in Hrem as (-> & Hn & ->).
    rewrite peekRune_none, Hn. cbn [andb].
    exists inp, None, []. done.
  - destruct (peek_cons st d out inp pend ch rs clean Hrem)
      as (inp' & Hp & Hd & _ & Hc).
    rewrite Hp. cbn [andb]. destruct (ch =? 47) eqn:E.
    + rewrite Hc. cbn [bindR].
      destruct (IH fuel st d out inp' None clean Hd ltac:(simpl in Hf; lia))
        as (inp'' & pend'' & rs'' & Hl & Hr & Hlen & Hs).
      exists inp'', pend'', rs''. split; [exact Hl|]. split; [done|].
      split; [simpl; lia|]. intros dd. rewrite <- Hs.
      apply scan_plain; lia.
    + exists inp', (Some ch), (ch :: rs). split; [done|].
      split; [simpl; eauto|]. done.
Qed.


(** The loop of a class either finds the closing bracket, and the scan
    goes on outside the class from there, or runs into the end of the
    text and fails. *)
Lemma onBracket_loop_spec rs : forall fuel esc d out inp pend clean,
  remaining inp pend rs clean -> (length rs < fuel)%nat ->
  (exists out' inp' rs',
      onBracket_loop fuel esc (cfg stateOpenBracket d out inp pend)
      = Ret (true, cfg stateReady d out' inp' None)
      /\ decodes inp' rs' clean
      /\ (length rs' < length rs)%nat
      /\ forall dd, scan (class_mode esc) dd rs clean = scan Outside dd rs' clean)
  \/ (exists final,
        onBracket_loop fuel esc (cfg stateOpenBracket d out inp pend)
        = Ret (false, final)
        /\ err final = Some errCharacterMatch
        /\ forall dd, scan (class_mode esc) dd rs clean = UnterminatedClass).
Proof.
  induction rs as [|ch rs IH]; intros fuel esc d out inp pend clean Hrem Hf;
    (destruct fuel as [|fuel]; [simpl in Hf; lia|]); cbn [onBracket_loop].
  - apply remaining_nil in Hrem as (-> & Hn & ->).
    rewrite peekRune_none, Hn. cbn [negb]. right.
    eexists. rewrite fail_cfg. split; [reflexivity|]. split; [done|].
    intros dd. by destruct esc.
  - destruct (peek_cons stateOpenBracket d out inp pend ch rs clean Hrem)
      as (inp' & Hp & Hd & _ & Hc).
    rewrite Hp. cbn [negb].
    assert (Hlt : (length rs < fuel)%nat) by (simpl in Hf; lia).
    assert (Hstep : forall esc' out',
      (forall dd, scan (class_mode esc) dd (ch :: rs) clean
                  = scan (class_mode esc') dd rs clean) ->
      (exists out'' inp'' rs',
          onBracket_loop fuel esc' (cfg stateOpenBracket d out' inp' None)
          = Ret (true, cfg stateReady d out'' inp'' None)
          /\ decodes inp'' rs' clean
          /\ (length rs' < length (ch :: rs))%nat
          /\ forall dd, scan (class_mode esc) dd (ch :: rs) clean
                        = scan Outside dd rs' clean)
      \/ (exists final,
            onBracket_loop fuel esc' (cfg stateOpenBracket d out' inp' None)
            = Ret (false, final)
            /\ err final = Some errCharacterMatch
            /\ forall dd, scan (class_mode esc) dd (ch :: rs) clean
                          = UnterminatedClass)).
    { intros esc' out' Hscan.
      destruct (IH fuel esc' d out' inp' None clean Hd Hlt)
        as [(o & i & r & Hl & Hdd & Hlen & Hs)|(final & Hl & He & Hs)].
      - left. exists o, i, r. repeat split; try done; [simpl; lia|].
        intros dd. by rewrite Hscan.
      - right. exists final. repeat split; try done.
        intros dd. by rewrite Hscan. }
    destruct esc.
    + rewrite Hc. cbn [bindR]. autorewrite with cfg. by apply Hstep.
    + destruct (ch =? 92) eqn:E92.
      { apply Z.eqb_eq in E92. subst ch. rewrite Hc. cbn [bindR].
        by apply Hstep. }
      destruct (ch =? 93) eqn:E93.
      { apply Z.eqb_eq in E93. subst ch. rewrite Hc. cbn [bindR].
        autorewrite with cfg. left. exists (out ++ [93]), inp', rs.
        repeat split; try done. simpl. lia. }
      rewrite Hc. cbn [bindR]. autorewrite with cfg. apply Hstep.
      intros dd. cbn [class_mode scan]. by rewrite E92, E93.
Qed.



Lemma Run_stop fuel gc final :
  step gc = Ret (false, final) -> Run (S fuel) gc = Ret (Some final).
Proof. intros H. cbn [Run]. by rewrite H. Qed.

Lemma Run_go fuel gc gc' :
  step gc = Ret (true, gc') -> Run (S fuel) gc = Run fuel gc'.
Proof. intros H. cbn [Run]. by rewrite H. Qed.

Lemma wrap_uint_small z : 0 <= z < 2 ^ 64 -> wrap_uint z = z.
Proof. intros. unfold wrap_uint. by apply Z.mod_small. Qed.

Lemma Run_at_end fuel d out inp clean :
  decodes inp [] clean ->
  agrees (Run (S fuel) (cfg stateReady (Z.of_nat d) out inp None))
         (scan Outside d [] clean).
Proof.
  intros Hrem. apply (remaining_nil inp None) in Hrem as (_ & Hnx & ->).
  assert (Hstep : step (cfg stateReady (Z.of_nat d) out inp None)
                  = requireEOF (cfg stateReady (Z.of_nat d) out inp None)).
  { unfold step, onReady. by rewrite state_cfg, peekRune_none, Hnx. }
  unfold requireEOF in Hstep. rewrite err_cfg, input_cfg, depth_cfg in Hstep.
  cbn [scan]. destruct inp as [|b inp].
  - rewrite bool_decide_eq_true_2 by done. destruct d as [|d].
    + eexists. split; [apply Run_stop; rewrite Hstep; reflexivity|done].
    + assert (E : (0 <? Z.of_nat (S d)) = true) by (apply Z.ltb_lt; lia).
      rewrite E in Hstep.
      eexists _, _. split; [apply Run_stop; rewrite Hstep; reflexivity|done].
  - rewrite bool_decide_eq_false_2 by done.
    match type of Hstep with
    | context [if ?c then Panicked else _] => destruct c eqn:E8
    end.
    + left. cbn [Run]. rewrite Hstep. reflexivity.
    + right. eexists _, _. split.
      { apply Run_stop. rewrite Hstep. reflexivity. }
      done.
Qed.

Lemma Run_spec n : forall rs, (length rs <= n)%nat ->
  forall fuel d out inp pend clean,
    remaining inp pend rs clean ->
    Z.of_nat d + Z.of_nat (length rs) < 2 ^ 64 ->
    (2 * length rs + 2 <= fuel)%nat ->
    agrees (Run fuel (cfg stateReady (Z.of_nat d) out inp pend))
           (scan Outside d rs clean).
Proof.
  induction n as [|n IH]; intros rs Hn fuel d out inp pend clean Hrem Hd Hf.
  all: destruct fuel as [|fuel]; [lia|].
  all: destruct rs as [|ch rs]; [|try (simpl in Hn; lia)].
  1,2: pose proof (remaining_nil _ _ _ Hrem) as (-> & _ & _);
       by apply Run_at_end.
  (* a rune *)
  destruct (peek_cons stateReady (Z.of_nat d) out inp pend ch rs clean Hrem)
    as (inp' & Hp & Hdec & Hc0 & Hc).
  simpl in Hn, Hd, Hf.
  assert (HIH : forall rs' d' out' inp'' pend',
    (length rs' <= length rs)%nat ->
    remaining inp'' pend' rs' clean ->
    Z.of_nat d' + Z.of_nat (length rs') < 2 ^ 64 ->
    forall fuel', (fuel - 1 <= fuel')%nat ->
    agrees (Run fuel' (cfg stateReady (Z.of_nat d') out' inp'' pend'))
           (scan Outside d' rs' clean)).
  { intros rs' d' out' inp'' pend' Hl Hr Hdd fuel' Hfuel.
    apply IH; [lia|done|done|lia]. }
  assert (Hready : step (cfg stateReady (Z.of_nat d) out inp pend)
                   = onReady (cfg stateReady (Z.of_nat d) out inp pend)) by done.
  unfold onReady in Hready. rewrite Hp in Hready. cbn [negb] in Hready.
  rewrite depth_cfg in Hready.
  destruct (ch =? 92) eqn:E92.
  { (* a backslash *)
    apply Z.eqb_eq in E92. subst ch. autorewrite with cfg in Hready.
    cbn [scan]. cbn. eexists _, _. split; [by apply Run_stop|done]. }
  destruct (ch =? 47) eqn:E47.
  { (* slashes *)
    apply Z.eqb_eq in E47. subst ch. autorewrite with cfg in Hready.
    rewrite (Run_go _ _ _ Hready).
    destruct fuel as [|fuel]; [lia|].
    destruct (onSlash_loop_spec rs (S (length inp')) stateSlash (Z.of_nat d)
                out inp' None clean Hdec)
      as (i & p & rs' & Hl & Hr & Hlen & Hs).
    { apply decodes_length in Hdec. lia. }
    assert (Hst : step (cfg stateSlash (Z.of_nat d) out inp' (Some 47))
                  = Ret (true, cfg stateReady (Z.of_nat d) (out ++ rxSlash) i p)).
    { unfold step, onSlash. rewrite state_cfg, consume_pending. cbn [bindR].
      rewrite input_cfg, Hl. cbn [bindR]. by autorewrite with cfg. }
    rewrite (Run_go _ _ _ Hst).
    rewrite scan_plain by lia. rewrite Hs.
    apply HIH; [done|done|lia|lia]. }
  destruct (ch =? 42) eqn:E42.
  { (* one star or two *)
    apply Z.eqb_eq in E42. subst ch. autorewrite with cfg in Hready.
    rewrite (Run_go _ _ _ Hready).
    destruct fuel as [|fuel]; [lia|].
    rewrite scan_plain by lia.
    destruct rs as [|c2 rs2].
    - apply (remaining_nil inp' None) in Hdec as (_ & Hnx & ->).
      assert (Hst : step (cfg stateStar (Z.of_nat d) out inp' (Some 42))
                    = Ret (true, cfg stateReady (Z.of_nat d) (out ++ rxStar) inp' None)).
      { unfold step, onStar. rewrite state_cfg, consume_pending. cbn [bindR].
        rewrite peekRune_none, Hnx. cbn [andb bindR].
        by autorewrite with cfg. }
      rewrite (Run_go _ _ _ Hst).
      apply HIH; [done|by apply decodes_end|simpl; lia|lia].
    - destruct (peek_cons stateStar (Z.of_nat d) out inp' None c2 rs2 clean Hdec)
        as (inp2 & Hp2 & Hdec2 & _ & Hc2).
      destruct (c2 =? 42) eqn:E2.
      + apply Z.eqb_eq in E2. subst c2.
        assert (Hst : step (cfg stateStar (Z.of_nat d) out inp' (Some 42))
                      = Ret (true, cfg stateReady (Z.of_nat d) (out ++ rxStarStar) inp2 None)).
        { unfold step, onStar. rewrite state_cfg, consume_pending. cbn [bindR].
          rewrite Hp2. cbn [andb Z.eqb Pos.eqb]. rewrite Hc2. cbn [bindR].
          by autorewrite with cfg. }
        rewrite (Run_go _ _ _ Hst). rewrite scan_plain by lia.
        apply HIH; [simpl; lia|done|simpl in *; lia|lia].
      + assert (Hst : step (cfg stateStar (Z.of_nat d) out inp' (Some 42))
                      = Ret (true, cfg stateReady (Z.of_nat d) (out ++ rxStar) inp2 (Some c2))).
        { unfold step, onStar. rewrite state_cfg, consume_pending. cbn [bindR].
          rewrite Hp2, E2. cbn [andb bindR]. by autorewrite with cfg. }
        rewrite (Run_go _ _ _ Hst).
        apply HIH; [done|simpl; eauto|simpl in *; lia|lia]. }
  destruct (ch =? 63) eqn:E63.
  { (* a question mark *)
    apply Z.eqb_eq in E63. subst ch. autorewrite with cfg in Hready.
    rewrite (Run_go _ _ _ Hready).
    destruct fuel as [|fuel]; [lia|].
    assert (Hst : step (cfg stateQuestion (Z.of_nat d) out inp' (Some 63))
                  = Ret (true, cfg stateReady (Z.of_nat d) (out ++ rxQuestion) inp' None)).
    { unfold step, onQuestion. rewrite state_cfg, consume_pending. cbn [bindR].
      by autorewrite with cfg. }
    rewrite (Run_go _ _ _ Hst). rewrite scan_plain by lia.
    apply HIH; [done|done|lia|lia]. }
  destruct (ch =? 91) eqn:E91.
  { (* a class *)
    apply Z.eqb_eq in E91. subst ch. autorewrite with cfg in Hready.
    rewrite (Run_go _ _ _ Hready).
    destruct fuel as [|fuel]; [lia|].
    cbn [scan]. cbn [Z.eqb Pos.eqb].
    (* the loop, entered on the runes [rs1] in the mode [esc = false] *)
    assert (Hloop : forall out1 inp1 pend1 rs1,
      remaining inp1 pend1 rs1 clean ->
      (length rs1 <= length rs)%nat ->
      (length rs1 < S (S (length inp1)))%nat ->
      step (cfg stateOpenBracket (Z.of_nat d) out inp' (Some 91))
      = onBracket_loop (S (S (length inp1))) false
          (cfg stateOpenBracket (Z.of_nat d) out1 inp1 pend1) ->
      agrees (Run (S fuel) (cfg stateOpenBracket (Z.of_nat d) out inp' (Some 91)))
             (scan InClass d rs1 clean)).
    { intros out1 inp1 pend1 rs1 Hr1 Hl1 Hlf Hst.
      destruct (onBracket_loop_spec rs1 _ false (Z.of_nat d) out1 inp1 pend1
                  clean Hr1 Hlf)
        as [(o & i & r & Hl & Hdd & Hlen & Hs)|(final & Hl & He & Hs)].
      - rewrite Hl in Hst. rewrite (Run_go _ _ _ Hst).
        pose proof (Hs d) as Hsd. cbn [class_mode] in Hsd. rewrite Hsd.
        apply HIH; [lia|done|lia|lia].
      - rewrite Hl in Hst. rewrite (Run_stop _ _ _ Hst).
        pose proof (Hs d) as Hsd. cbn [class_mode] in Hsd. rewrite Hsd.
        simpl. eauto. }
    destruct rs as [|c2 rs2].
    - (* nothing follows the bracket *)
      apply (remaining_nil inp' None) in Hdec as (_ & Hnx & ->).
      assert (Hst : step (cfg stateOpenBracket (Z.of_nat d) out inp' (Some 91))
                    = Ret (false, mkCompiler (Some errCharacterMatch) []
                                    (out ++ [91]) 0 (-1) false stateDone)).
      { unfold step, onBracket. rewrite state_cfg, consume_pending. cbn [bindR].
        autorewrite with cfg. rewrite peekRune_none, Hnx. cbn [andb bindR].
        rewrite input_cfg. cbn [onBracket_loop].
        rewrite peekRune_none, Hnx. cbn [negb]. by autorewrite with cfg. }
      rewrite (Run_stop _ _ _ Hst). simpl. eauto.
    - destruct (peek_cons stateOpenBracket (Z.of_nat d) (out ++ [91]) inp' None
                  c2 rs2 clean Hdec)
        as (inp2 & Hp2 & Hdec2 & _ & Hc2).
      destruct (c2 =? 94) eqn:E94.
      + (* a class that starts with a caret *)
        apply Z.eqb_eq in E94. subst c2.
        cbn [scan]. cbn [Z.eqb Pos.eqb].
        apply (Hloop (out ++ [91] ++ [94]) inp2 None rs2); [done|simpl; lia| |].
        { apply decodes_length in Hdec2. lia. }
        unfold step, onBracket. rewrite state_cfg, consume_pending. cbn [bindR].
        autorewrite with cfg. rewrite Hp2. cbn [andb Z.eqb Pos.eqb].
        rewrite Hc2. cbn [bindR]. autorewrite with cfg.
        by rewrite <- app_assoc.
      + (* the first rune of the class is read by the loop *)
        assert (Hsc : scan ClassFirst d (c2 :: rs2) clean
                      = scan InClass d (c2 :: rs2) clean).
        { cbn [scan]. by rewrite E94. }
        rewrite Hsc.
        apply (Hloop (out ++ [91]) inp2 (Some c2) (c2 :: rs2));
          [simpl; eauto|done| |].
        { apply decodes_length in Hdec2. simpl. lia. }
        unfold step, onBracket. rewrite state_cfg, consume_pending. cbn [bindR].
        autorewrite with cfg. rewrite Hp2, E94. cbn [andb bindR].
        by autorewrite with cfg. }
  destruct (ch =? 123) eqn:E123.
  { (* a group opens *)
    apply Z.eqb_eq in E123. subst ch. autorewrite with cfg in Hready.
    rewrite (Run_go _ _ _ Hready).
    destruct fuel as [|fuel]; [lia|].
    assert (Hst : step (cfg stateOpenBrace (Z.of_nat d) out inp' (Some 123))
                  = Ret (true, cfg stateReady (Z.of_nat (S d))
                                   (out ++ [40; 63; 58]) inp' None)).
    { unfold step, onOpenBrace. rewrite state_cfg, consume_pending. cbn [bindR].
      autorewrite with cfg. rewrite wrap_uint_small by lia.
      do 3 f_equal. lia. }
    rewrite (Run_go _ _ _ Hst). cbn [scan]. cbn [Z.eqb Pos.eqb].
    apply HIH; [done|done|lia|lia]. }
  destruct ((ch =? 44) && (0 <? Z.of_nat d)) eqn:E44.
  { (* a comma inside a group *)
    apply andb_prop in E44 as [E44 Epos]. apply Z.eqb_eq in E44. subst ch.
    autorewrite with cfg in Hready. rewrite (Run_go _ _ _ Hready).
    destruct fuel as [|fuel]; [lia|].
    assert (Hst : step (cfg stateComma (Z.of_nat d) out inp' (Some 44))
                  = Ret (true, cfg stateReady (Z.of_nat d) (out ++ [124]) inp' None)).
    { unfold step, onComma. rewrite state_cfg, consume_pending. cbn [bindR].
      by autorewrite with cfg. }
    rewrite (Run_go _ _ _ Hst). rewrite scan_plain by lia.
    apply HIH; [done|done|lia|lia]. }
  destruct ((ch =? 125) && (0 <? Z.of_nat d)) eqn:E125.
  { (* a group closes *)
    apply andb_prop in E125 as [E125 Epos]. apply Z.eqb_eq in E125. subst ch.
    apply Z.ltb_lt in Epos.
    autorewrite with cfg in Hready. rewrite (Run_go _ _ _ Hready).
    destruct fuel as [|fuel]; [lia|].
    assert (Hst : step (cfg stateCloseBrace (Z.of_nat d) out inp' (Some 125))
                  = Ret (true, cfg stateReady (Z.of_nat (pred d))
                                   (out ++ [41]) inp' None)).
    { unfold step, onCloseBrace. rewrite state_cfg, consume_pending. cbn [bindR].
      autorewrite with cfg. rewrite wrap_uint_small by lia.
      do 3 f_equal. lia. }
    rewrite (Run_go _ _ _ Hst). cbn [scan]. cbn [Z.eqb Pos.eqb andb].
    replace (0 <? d)%nat with true by (symmetry; apply Nat.ltb_lt; lia).
    apply HIH; [done|done|lia|lia]. }
  (* any other rune stands for itself *)
  rewrite Hc in Hready. cbn [bindR] in Hready. autorewrite with cfg in Hready.
  rewrite (Run_go _ _ _ Hready).
  rewrite scan_plain; [| lia | lia | lia |].
  - apply HIH; [done|done|lia|lia].
  - destruct (ch =? 125) eqn:E; [right|left; lia].
    cbn [andb] in E125. destruct d; [done|].
    exfalso. apply Z.ltb_ge in E125. lia.
Qed.

Lemma remaining_start s :
  remaining s None (decode_all (length s) s).1 (decode_all (length s) s).2.
Proof. simpl. by apply decode_all_decodes. Qed.

(** The run of the compiler on a whole pattern. *)
Lemma Run_pattern s :
  Z.of_nat (length s) < 2 ^ 64 ->
  agrees (Run (2 * length s + 2) (Reset s)) (scan_pattern s).
Proof.
  intros Hlen. unfold scan_pattern.
  pose proof (remaining_start s) as Hrem.
  destruct (decode_all (length s) s) as [rs clean]. cbn [fst snd] in Hrem.
  pose proof (decodes_length _ _ _ Hrem) as Hl.
  change (Reset s) with (cfg stateReady (Z.of_nat 0) [94] s None).
  apply (Run_spec (length rs) rs); [done|done|lia|lia].
Qed.

Section CompileFacts.

Variable NFD : list Z -> list Z.

(** [Compile] always finishes within the steps it allows itself. *)
Lemma Compile_finishes (input : list Z) :
  Z.of_nat (length (NFD input)) < 2 ^ 64 ->
  Compile NFD input <> Ret Unfinished.
Proof.
  intros Hlen. unfold Compile. cbv zeta.
  destruct (HasPrefix_caret (NFD input)); [done|].
  pose proof (Run_pattern (NFD input) Hlen) as Hrun.
  assert (Hend : Run (2 * length (NFD input) + 2) (Reset (NFD input)) = Panicked
                 \/ exists final e,
                      Run (2 * length (NFD input) + 2) (Reset (NFD input))
                      = Ret (Some final) /\ err final = Some e).
  { destruct (scan_pattern (NFD input)) as [[|d]| | |]; simpl in Hrun.
    - destruct Hrun as (final & HR & He). right. eauto.
    - destruct Hrun as (final & e & HR & He & _). right. eauto.
    - destruct Hrun as (final & e & HR & He & _). right. eauto.
    - destruct Hrun as (final & e & HR & He & _). right. eauto.
    - destruct Hrun as [HR|(final & e & HR & He & _)]; [by left|right; eauto]. }
  destruct Hend as [HR|(final & e & HR & He)]; rewrite HR; cbn [bindR]; [done|].
  unfold Compiler_Compile. rewrite He. by destruct e.
Qed.

End CompileFacts.
End GlobFacts.


Module GlobExample.
Import Utf8 Glob Samples.


Section Example.

Variable NFD : list Z -> list Z.

(** Canonical decomposition leaves ASCII text as it is. *)
Hypothesis NFD_ascii : forall s, is_ascii s = true -> NFD s = s.

(** C8. The pattern [**/*.{jpg,png}] compiles to the anchored
    expression [^.*/+[^/]*\.(?:jpg|png)$], which matches
    [photos/2024/a.jpg] and does not match [photos/2024/a.jpeg]. *)
Theorem glob_example :
  Compile NFD (bytes_of_string "**/*.{jpg,png}")
  = Ret (FromRegexp (bytes_of_string "^.*/+[^/]*\.(?:jpg|png)$"))
  /\ Rules.Matches (Compile NFD (bytes_of_string "**/*.{jpg,png}"))
       (bytes_of_string "photos/2024/a.jpg") = Some true
  /\ Rules.Matches (Compile NFD (bytes_of_string "**/*.{jpg,png}"))
       (bytes_of_string "photos/2024/a.jpeg") = Some false.
Proof.
  unfold Compile. cbv zeta. rewrite NFD_ascii by reflexivity.
  repeat split; vm_compute; reflexivity.
Qed.

End Example.

Lemma glob_example_witness :
  Rules.Matches (Compile (fun s => s) (bytes_of_string "**/*.{jpg,png}"))
    (bytes_of_string "photos/2024/a.jpg") = Some true.
Proof.
  apply (glob_example (fun s => s)). intros s _. reflexivity.
Defined.


End GlobExample.

Module Witnesses.

Import Samples.
Import ScanByInode.


Lemma two_phase_pair_witness :
  exists gs,
    main_groups merge_sort_by (scan [fileA; fileD; fileB; fileC]) = Ret gs
    /\ main_results merge_sort_by (scan [fileA; fileD; fileB; fileC]) = Ret gs.*2
    /\ filter (fun g : SHA256Sum * list string => g.1 = digest1) gs
       = [(digest1, ["/x/a"; "/y/c"]%string)].
Proof.
  apply (GroupingFacts.two_phase_pair merge_sort_by SortFacts.merge_sort_by_contract
           [fileA; fileD; fileB; fileC] fileA fileB fileC).
  - apply list_elem_of_here.
  - do 2 apply list_elem_of_further. apply list_elem_of_here.
  - do 3 apply list_elem_of_further. apply list_elem_of_here.
  - reflexivity.
  - reflexivity.
  - simpl. intros H. discriminate H.
  - intros f Hf Hh. rewrite !elem_of_cons in Hf.
    destruct Hf as [->|[->|[->|[->|Hf]]]]; auto.
    + vm_compute in Hh. discriminate Hh.
    + by apply elem_of_nil in Hf.
Defined.

Import ItemPkg CleanDuplicateFiles.


Lemma survivor_selection_witness :
  exists sorted,
    sorted ≡ₚ [itemA; itemB]
    /\ Sorted spec_before sorted
    /\ ((Forall (fun it => IsSymlink it = true) sorted
         /\ processBatch merge_sort_by _ open_two link_ok link_ok
              ["/a"; "/b"]%string [] = (Returned None [], []))
        \/ (exists pre best post,
              sorted = pre ++ best :: post
              /\ Forall (fun it => IsSymlink it = true) pre
              /\ IsSymlink best = false
              /\ survivor_of
                   (processBatch merge_sort_by _ open_two link_ok link_ok
                      ["/a"; "/b"]%string []).1
                 = Some best)).
Proof.
  apply (SurvivorFacts.survivor_selection merge_sort_by
           SortFacts.merge_sort_by_contract _ open_two link_ok link_ok).
  - simpl. lia.
  - reflexivity.
Defined.

(** The example of the specification: at equal priority the file with
    more hardlinks is the survivor. *)
Lemma survivor_example :
  processBatch merge_sort_by _ open_two link_ok link_ok ["/a"; "/b"]%string []
  = (Returned (Some itemB) ["/a"%string], [("/b", "/a")]%string).
Proof. vm_compute. reflexivity. Qed.

Import Metadata.


Lemma Decode_Append_roundtrip_witness :
  Decode (fun _ _ => false) zero (Append meta1 []) = Ret (meta1, true).
Proof.
  apply MetadataFacts.Decode_Append_roundtrip; reflexivity.
Defined.

End Witnesses.

(** * Part III: further properties of the code *)

Module StackFacts.
Import StackPkg.

Lemma Pop_Push {T} (st : Stack T) (item : T) :
  Pop (Push st item) = Ret (item, st).
Proof.
  unfold Pop, Push, IsEmpty. rewrite length_app. cbn [length].
  replace (length st + 1 <=? 0)%nat with false
    by (symmetry; apply Nat.leb_gt; lia).
  replace (length st + 1 - 1)%nat with (length st) by lia.
  rewrite lookup_app_r by lia. rewrite Nat.sub_diag. cbn [lookup list_lookup].
  by rewrite take_app_length.
Qed.

Lemma Peek_Push {T} (st : Stack T) (item : T) :
  Peek (Push st item) = Ret item.
Proof.
  unfold Peek, Push, IsEmpty. rewrite length_app. cbn [length].
  replace (length st + 1 <=? 0)%nat with false
    by (symmetry; apply Nat.leb_gt; lia).
  replace (length st + 1 - 1)%nat with (length st) by lia.
  rewrite lookup_app_r by lia. by rewrite Nat.sub_diag.
Qed.

(** X1. The stack is last in, first out: after pushing the items [xs]
    one after the other, as many [Pop]s return them in reverse order
    and leave the stack as it was before the pushes; one more [Pop]
    than the stack holds panics, and so do [Pop] and [Peek] on the
    empty stack. *)
Theorem Stack_last_in_first_out {T} (st : Stack T) (xs : list T) :
  Pop_n (length xs) (foldl Push st xs) = Ret (rev xs, st)
  /\ Pop_n (S (length st)) st = Panicked
  /\ Pop (@nil T) = Panicked /\ Peek (@nil T) = Panicked.
Proof.
  split; [|split; [|done]].
  - revert st. induction xs as [|x xs IH] using rev_ind; intros st; [done|].
    rewrite foldl_app, length_app. cbn [foldl length].
    replace (length xs + 1)%nat with (S (length xs)) by lia.
    cbn [Pop_n]. rewrite Pop_Push. cbn [bindR fst snd].
    rewrite IH. cbn [bindR fst snd]. by rewrite rev_unit.
  - induction st as [|x st IH] using rev_ind; [done|].
    rewrite length_app. cbn [length].
    replace (S (length st + 1)) with (S (S (length st))) by lia.
    change (st ++ [x]) with (Push st x).
    remember (S (length st)) as n. cbn [Pop_n]. rewrite Pop_Push.
    cbn [bindR fst snd]. subst n. by rewrite IH.
Qed.

End StackFacts.

Module RuleFacts.
Import RuleLists.

Section Rules.

Context {Regexp : Type}.
Variable MatchString : Regexp -> list Z -> bool.
Variable Normalize : string -> list Z.

Lemma Priority_from_spec (rules : list Regexp) path : forall i,
  let p := Priority_from MatchString rules path i in
  (i <= p <= i + length rules)%nat
  /\ (forall j rule, (i + j < p)%nat -> rules !! j = Some rule ->
        MatchString rule path = false)
  /\ (forall rule, rules !! (p - i)%nat = Some rule ->
        MatchString rule path = true).
Proof.
  induction rules as [|r rules IH]; intros i; cbn [Priority_from length].
  - split; [lia|]. split; [intros j rule Hj; lia|].
    intros rule. by rewrite lookup_nil.
  - destruct (MatchString r path) eqn:E.
    + split; [lia|]. split; [intros j rule Hj; lia|].
      intros rule. rewrite Nat.sub_diag. by intros [= <-].
    + destruct (IH (S i)) as (Hb & Hlt & Hat). split; [lia|]. split.
      * intros [|j] rule Hj; [by intros [= <-]|]. cbn [lookup list_lookup].
        apply Hlt. lia.
      * intros rule.
        replace (Priority_from MatchString rules path (S i) - i)%nat
          with (S (Priority_from MatchString rules path (S i) - S i)) by lia.
        apply Hat.
Qed.

(** X2. [Rules.Priority] is the position of the first rule that
    matches the normalized path, and the number of rules when none
    does: it is at most the number of rules, no rule before it
    matches, and the rule at it, if there is one, matches. *)
Theorem Priority_first_match (rules : list Regexp) (path : string) :
  let p := Priority MatchString Normalize rules path in
  (p <= length rules)%nat
  /\ (forall j rule, (j < p)%nat -> rules !! j = Some rule ->
        MatchString rule (Normalize path) = false)
  /\ (forall rule, rules !! p = Some rule ->
        MatchString rule (Normalize path) = true)
  /\ (p = length rules <->
      Forall (fun rule => MatchString rule (Normalize path) = false) rules).
Proof.
  intros p. destruct (Priority_from_spec rules (Normalize path) 0%nat)
    as (Hb & Hlt & Hat). fold (Priority MatchString Normalize rules path) in *.
  fold p in Hb, Hlt, Hat. rewrite Nat.sub_0_r in Hat.
  split; [lia|]. split; [intros j rule Hj; by apply Hlt|]. split; [done|].
  split.
  - intros Hp. apply Forall_lookup. intros j rule Hj. apply (Hlt j); [|done].
    apply lookup_lt_Some in Hj. lia.
  - intros Hall. destruct (decide (p = length rules)) as [|Hne]; [done|].
    destruct (lookup_lt_is_Some_2 rules p ltac:(lia)) as [rule Hr].
    pose proof (Hat rule Hr) as Ht.
    rewrite Forall_lookup in Hall. by rewrite (Hall p rule Hr) in Ht.
Qed.

Lemma Exclude_rules_app (pre post : list (Rule Regexp)) path :
  Forall (fun r => Matches MatchString r path = false) pre ->
  Exclude_rules MatchString (pre ++ post) path
  = Exclude_rules MatchString post path.
Proof.
  induction 1 as [|r pre Hr _ IH]; [done|].
  cbn [app Exclude_rules]. by rewrite Hr.
Qed.

(** X3. [Rules.Exclude]: an exclude attribute on the file decides
    alone, whatever the rules are, and says yes exactly for the empty
    value and for [1], [y], [yes], [t] and [true]; without the
    attribute the first rule that matches the normalized path decides,
    whatever rules follow it, and a path that no rule matches is not
    excluded. *)
Theorem Exclude_decided_by (flagNS : string) (rules : list (Rule Regexp))
    (file : Metadata.xattrs) (path : string) :
  (forall raw, file !! FindDuplicateFiles.exclude_name flagNS = Some raw ->
     Rules_Exclude MatchString Normalize flagNS rules file path
     = bool_decide (raw ∈ map bytes_of_string ["1"; "y"; "yes"; "t"; "true"; ""]%string))
  /\ (file !! FindDuplicateFiles.exclude_name flagNS = None ->
      (forall pre rule post,
         rules = pre ++ rule :: post ->
         Forall (fun r => Matches MatchString r (Normalize path) = false) pre ->
         Matches MatchString rule (Normalize path) = true ->
         Rules_Exclude MatchString Normalize flagNS rules file path
         = Exclude rule)
      /\ (Forall (fun r => Matches MatchString r (Normalize path) = false) rules ->
          Rules_Exclude MatchString Normalize flagNS rules file path = false)).
Proof.
  unfold Rules_Exclude, Metadata.MaybeFGet. split.
  - intros raw ->. unfold exclude_yes. cbn [map].
    change (bytes_of_string "") with (@nil Z).
    apply Bool.eq_iff_eq_true.
    rewrite !orb_true_iff, !bool_decide_eq_true, !elem_of_cons, elem_of_nil.
    rewrite Nat.leb_le. destruct raw as [|c raw]; cbn [length].
    + split; [tauto|]. intros _. do 5 left. lia.
    + split; [|intros H; decompose [or] H; try done; tauto].
      intros H; decompose [or] H; try tauto. lia.
  - intros ->. split.
    + intros pre rule post -> Hpre Hrule.
      rewrite Exclude_rules_app by done. cbn [Exclude_rules]. by rewrite Hrule.
    + intros Hall. rewrite <- (app_nil_r rules).
      by rewrite Exclude_rules_app.
Qed.

End Rules.

End RuleFacts.

Module BitsFacts.
Import Metadata.

Lemma land_low5 bits m :
  0 <= m < 32 -> Z.land bits m = Z.land (Z.land bits 31) m.
Proof.
  intros Hm. rewrite <- Z.land_assoc. f_equal.
  change 31 with (Z.ones 5). rewrite Z.land_comm, Z.land_ones by lia.
  symmetry. apply Z.mod_small. lia.
Qed.

(** X4. The five presence bits and the test for all of them:
    [HasAll(AllBits)] holds exactly when [Has] holds for each of
    [SizeBit], [TimeBit], [MD5Bit], [SHA1Bit] and [SHA256Bit], whatever
    other bits are set. *)
Theorem HasAll_each (bits : Z) :
  HasAll bits AllBits
  = Has bits SizeBit && Has bits TimeBit && Has bits MD5Bit
    && Has bits SHA1Bit && Has bits SHA256Bit.
Proof.
  unfold HasAll, Has, SizeBit, TimeBit, MD5Bit, SHA1Bit, SHA256Bit.
  change AllBits with 31.
  rewrite (land_low5 bits 1), (land_low5 bits 2), (land_low5 bits 4),
    (land_low5 bits 8), (land_low5 bits 16) by lia.
  assert (Hr : 0 <= Z.land bits 31 < 32).
  { change 31 with (Z.ones 5). rewrite Z.land_ones by lia.
    apply Z.mod_pos_bound. lia. }
  generalize dependent (Z.land bits 31). intros r Hr.
  assert (H : forallb (fun r =>
     Bool.eqb (r =? 31)
       (negb (Z.land r 1 =? 0) && negb (Z.land r 2 =? 0)
        && negb (Z.land r 4 =? 0) && negb (Z.land r 8 =? 0)
        && negb (Z.land r 16 =? 0))) (seqZ 0 32) = true)
    by (vm_compute; reflexivity).
  rewrite forallb_forall in H. specialize (H r).
  rewrite <- list_elem_of_In, elem_of_seqZ in H.
  specialize (H ltac:(lia)). by apply eqb_prop in H.
Qed.

End BitsFacts.

Module CodecFacts.
Import GoLib Metadata GoLibFacts Base64Facts MetadataFacts HashEncodings.

(** X5. Every [int64] that [appendInt] writes, negative ones included,
    is read back by [decodeInt]. *)
Theorem decodeInt_reads_appendInt (z : Z) :
  in_int64 z -> decodeInt (appendInt [] z) = Some z.
Proof. apply decodeInt_appendInt. Qed.

Lemma decodeHash_raw w d : length d = w -> decodeHash w d = Ret (Some d).
Proof. intros Hl. unfold decodeHash. by rewrite Hl, Nat.eqb_refl. Qed.

Lemma decodeHash_hex w d :
  (0 < w)%nat -> digest_ok w d = true ->
  decodeHash w (hex_Encode d) = Ret (Some d).
Proof.
  intros Hw Hd. apply digest_ok_spec in Hd as [Hl Hb].
  unfold decodeHash. rewrite hex_Encode_length, Hl.
  replace (hex_EncodedLen w =? w)%nat with false
    by (unfold hex_EncodedLen; symmetry; apply Nat.eqb_neq; lia).
  rewrite Nat.leb_refl.
  rewrite hex_Decode_Encode by (try done; simpl; lia).
  unfold accepted. cbn [app bindR]. by rewrite Hl, Nat.eqb_refl.
Qed.

Lemma decodeHash_url w d :
  (w < b64_EncodedLen w)%nat -> (b64_EncodedLen w < hex_EncodedLen w)%nat ->
  digest_ok w d = true ->
  decodeHash w (b64_Encode encodeURL d) = Ret (Some d).
Proof.
  intros Hw1 Hw2 Hd. apply digest_ok_spec in Hd as [Hl Hb].
  unfold decodeHash. rewrite (b64_Encode_length encodeURL), Hl.
  replace (b64_EncodedLen w =? w)%nat with false
    by (symmetry; apply Nat.eqb_neq; lia).
  replace (hex_EncodedLen w <=? b64_EncodedLen w)%nat with false
    by (symmetry; apply Nat.leb_gt; lia).
  rewrite Nat.leb_refl. cbn [bindR].
  assert (Eu : b64_Decode encodeURL w (b64_Encode encodeURL d) = DecOk d).
  { rewrite <- Hl. by apply b64_Decode_Encode_exact; [apply alphabet_ok_url|]. }
  assert (Es : b64_Decode encodeStd w (b64_Encode encodeStd d) = DecOk d).
  { rewrite <- Hl. by apply b64_Decode_Encode_exact; [apply alphabet_ok_std|]. }
  unfold b64_Decode in *.
  destruct (std_on_url w (length d) d []) as [E | [o E]];
    [done|simpl; lia| |]; rewrite E.
  - rewrite Es. unfold accepted. cbn [bindR]. by rewrite Hl, Nat.eqb_refl.
  - unfold accepted at 1. cbn [bindR]. rewrite Eu. unfold accepted.
    by rewrite Hl, Nat.eqb_refl.
Qed.

(** X6. For each of the three digest widths, [decodeHash] reads the
    digest back from its raw bytes, from its hexadecimal text, from
    its standard base64 text and from its URL base64 text. *)
Theorem decodeHash_reads_every_encoding (w : nat) (d : list Z) :
  w = 16%nat \/ w = 20%nat \/ w = 32%nat -> digest_ok w d = true ->
  decodeHash w d = Ret (Some d)
  /\ decodeHash w (hex_Encode d) = Ret (Some d)
  /\ decodeHash w (b64_Encode encodeStd d) = Ret (Some d)
  /\ decodeHash w (b64_Encode encodeURL d) = Ret (Some d).
Proof.
  intros Hw Hd. split; [|split; [|split]].
  - apply decodeHash_raw. by apply digest_ok_spec in Hd as [? _].
  - apply decodeHash_hex; [|done]. destruct Hw as [-> | [-> | ->]]; lia.
  - by apply decodeHash_base64.
  - apply decodeHash_url; [| |done];
      destruct Hw as [-> | [-> | ->]]; vm_compute; lia.
Qed.

End CodecFacts.

Module XattrFacts.
Import GoLib Metadata FindDuplicateFiles GoLibFacts MetadataFacts CodecFacts.

Lemma MaybeFSet_lookup (file : xattrs) name value :
  MaybeFSet file name value !! name = Some value.
Proof.
  unfold MaybeFSet. destruct (file !! name) as [existing|] eqn:E.
  - case_bool_decide; [by subst|]. by rewrite lookup_insert_eq.
  - by rewrite lookup_insert_eq.
Qed.

Lemma MaybeFSet_lookup_ne (file : xattrs) name value other :
  name <> other -> MaybeFSet file name value !! other = file !! other.
Proof.
  intros Hne. unfold MaybeFSet. destruct (file !! name) as [existing|] eqn:E.
  - case_bool_decide; [done|]. by rewrite lookup_insert_ne.
  - by rewrite lookup_insert_ne.
Qed.

(** Comparing a name that ends in a fixed word with a fixed name. *)
Ltac differ s H :=
  repeat (destruct s as [|? s]; cbn in H;
          [discriminate H|first [discriminate H|injection H as _ H]]).

Lemma stamp_name_fresh flagNS :
  (flagNS ++ "stamp")%string
  ∉ ["user.size"; "user.mtime"; "user.md5sum"; "user.sha1sum";
     "user.sha256sum"]%string.
Proof.
  rewrite !not_elem_of_cons. repeat split; try apply not_elem_of_nil;
    intros H; differ flagNS H.
Qed.

Lemma exclude_name_fresh flagNS :
  exclude_name flagNS ∉ saved_names (gNames flagNS).
Proof.
  unfold exclude_name, saved_names.
  change (nStamp (gNames flagNS)) with (flagNS ++ "stamp")%string.
  cbn [nSize nTime nMD5 nSHA1 nSHA256 gNames set_Stamp DefaultNames].
  rewrite !not_elem_of_cons. repeat split; try apply not_elem_of_nil;
    intros H; [|differ flagNS H..].
  induction flagNS as [|a flagNS IH]; [discriminate H|].
  injection H as H. auto.
Qed.

(** What [Save] leaves under each of its six names, and that it leaves
    every other name alone. *)
Lemma Save_lookup flagNS meta (file : xattrs) :
  let names := gNames flagNS in
  let saved := Save meta file names in
  saved !! nStamp names = Some (Append meta [])
  /\ saved !! nSize names = Some (appendInt [] (Size meta))
  /\ saved !! nTime names = Some (appendInt [] (Time meta))
  /\ saved !! nMD5 names = Some (appendHash [] true (MD5 meta))
  /\ saved !! nSHA1 names = Some (appendHash [] true (SHA1 meta))
  /\ saved !! nSHA256 names = Some (appendHash [] true (SHA256 meta))
  /\ forall other, other ∉ saved_names names -> saved !! other = file !! other.
Proof.
  intros names saved. subst saved names. unfold Save.
  pose proof (stamp_name_fresh flagNS) as Hs.
  change (nStamp (gNames flagNS)) with (flagNS ++ "stamp")%string.
  cbn [nSize nTime nMD5 nSHA1 nSHA256 gNames set_Stamp DefaultNames
       saved_names].
  rewrite !not_elem_of_cons in Hs. destruct Hs as (? & ? & ? & ? & ? & _).
  repeat split.
  - rewrite !MaybeFSet_lookup_ne by done. apply MaybeFSet_lookup.
  - rewrite !MaybeFSet_lookup_ne by done. apply MaybeFSet_lookup.
  - rewrite !MaybeFSet_lookup_ne by done. apply MaybeFSet_lookup.
  - rewrite !MaybeFSet_lookup_ne by done. apply MaybeFSet_lookup.
  - rewrite !MaybeFSet_lookup_ne by done. apply MaybeFSet_lookup.
  - apply MaybeFSet_lookup.
  - intros other Ho. unfold saved_names in Ho. cbn in Ho.
    rewrite !not_elem_of_cons in Ho.
    destruct Ho as (? & ? & ? & ? & ? & ? & _).
    by rewrite !MaybeFSet_lookup_ne by done.
Qed.

Section Load.

Variable foldUnicode : list Z -> list Z -> bool.

(** X7. What [Save] writes, [Load] reads back: for every namespace
    prefix and whatever attributes the file had before, loading into a
    fresh value after saving a complete metadata value gives that value
    and reports it complete. *)
Theorem Load_after_Save (flagNS : string) (meta : Metadata) (file : xattrs) :
  well_formed meta = true -> Bits meta = AllBits ->
  Load foldUnicode zero (Save meta file (gNames flagNS)) (gNames flagNS)
  = Ret (meta, true).
Proof.
  intros Hwf Hbits.
  destruct (Save_lookup flagNS meta file) as (Hst & _).
  unfold Load, MaybeFGet. rewrite Hst.
  rewrite (Decode_Append_roundtrip foldUnicode) by done.
  cbn [bindR fst]. cbv zeta.
  rewrite ?Hbits. change (negb (Has AllBits SizeBit)) with false. cbv iota.
  rewrite ?Hbits. change (negb (Has AllBits TimeBit)) with false. cbv iota.
  rewrite ?Hbits. change (negb (Has AllBits MD5Bit)) with false. cbv iota.
  cbn [bindR].
  rewrite ?Hbits. change (negb (Has AllBits SHA1Bit)) with false. cbv iota.
  cbn [bindR].
  rewrite ?Hbits. change (negb (Has AllBits SHA256Bit)) with false. cbv iota.
  cbn [bindR]. by rewrite Hbits.
Qed.

Lemma well_formed_fields meta :
  well_formed meta = true ->
  in_int64 (Size meta) /\ in_int64 (Time meta)
  /\ digest_ok 16 (MD5 meta) = true /\ digest_ok 20 (SHA1 meta) = true
  /\ digest_ok 32 (SHA256 meta) = true.
Proof.
  unfold well_formed, in_int64. intros Hwf.
  repeat (apply andb_prop in Hwf as [Hwf ?]). repeat split; try done; lia.
Qed.

(** X8. The per-field attributes alone are enough: with the stamp
    attribute gone, [Load] puts the same value together from the size,
    time and three digest attributes that [Save] wrote. *)
Theorem Load_without_stamp (flagNS : string) (meta : Metadata) (file : xattrs) :
  well_formed meta = true -> Bits meta = AllBits ->
  Load foldUnicode zero
    (delete (nStamp (gNames flagNS)) (Save meta file (gNames flagNS)))
    (gNames flagNS)
  = Ret (meta, true).
Proof.
  intros Hwf Hbits.
  destruct (Save_lookup flagNS meta file) as (_ & H1 & H2 & H3 & H4 & H5 & _).
  destruct (well_formed_fields meta Hwf) as (HS & HT & D1 & D2 & D3).
  pose proof (stamp_name_fresh flagNS) as Hs.
  rewrite !not_elem_of_cons in Hs. destruct Hs as (? & ? & ? & ? & ? & _).
  change (nStamp (gNames flagNS)) with (flagNS ++ "stamp")%string in *.
  cbn [nSize nTime nMD5 nSHA1 nSHA256 gNames set_Stamp DefaultNames] in *.
  unfold Load, MaybeFGet.
  change (nStamp (gNames flagNS)) with (flagNS ++ "stamp")%string.
  cbn [nSize nTime nMD5 nSHA1 nSHA256 gNames set_Stamp DefaultNames].
  rewrite lookup_delete_eq. rewrite !lookup_delete_ne by done.
  rewrite H1, H2, H3, H4, H5. cbn [bindR].
  change (negb (Has (Bits zero) SizeBit)) with true. cbv iota.
  unfold decodeSize. rewrite decodeInt_appendInt by done.
  match goal with |- context [negb (Has ?b TimeBit)] =>
    change (negb (Has b TimeBit)) with true end. cbv iota.
  unfold decodeModTime. rewrite decodeInt_appendInt by done.
  match goal with |- context [negb (Has ?b MD5Bit)] =>
    change (negb (Has b MD5Bit)) with true end. cbv iota.
  unfold decodeMD5, decodeSHA1, decodeSHA256, appendHash. cbn [app].
  rewrite (decodeHash_hex 16) by (done || lia). cbn [bindR].
  match goal with |- context [negb (Has ?b SHA1Bit)] =>
    change (negb (Has b SHA1Bit)) with true end. cbv iota.
  rewrite (decodeHash_hex 20) by (done || lia). cbn [bindR].
  match goal with |- context [negb (Has ?b SHA256Bit)] =>
    change (negb (Has b SHA256Bit)) with true end. cbv iota.
  rewrite (decodeHash_hex 32) by (done || lia). cbn [bindR].
  destruct meta as [b s t m1 m2 m3]. cbn in *. subst b. reflexivity.
Qed.

End Load.

End XattrFacts.

Module AttributeNames.
Import GoLib Metadata FindDuplicateFiles XattrFacts NamesFacts.

(** C3, amended.  Whatever the prefix and whatever the file held,
    [Save] leaves the stamp of the metadata under the prefix followed
    by [stamp], a name that begins with the prefix; the size and the
    time in decimal under [user.size] and [user.mtime]; and the three
    digests in hexadecimal under [user.md5sum], [user.sha1sum] and
    [user.sha256sum].  It leaves every other attribute as it was. *)
Theorem Save_stores_by_name (flagNS : string) (meta : Metadata)
    (file : xattrs) :
  let saved := Save meta file (gNames flagNS) in
  String.prefix flagNS (flagNS ++ "stamp") = true
  /\ saved !! (flagNS ++ "stamp")%string = Some (Append meta [])
  /\ saved !! "user.size"%string = Some (AppendInt [] (Size meta))
  /\ saved !! "user.mtime"%string = Some (AppendInt [] (Time meta))
  /\ saved !! "user.md5sum"%string = Some (hex_Encode (MD5 meta))
  /\ saved !! "user.sha1sum"%string = Some (hex_Encode (SHA1 meta))
  /\ saved !! "user.sha256sum"%string = Some (hex_Encode (SHA256 meta))
  /\ (forall other : string,
        other ∉ [(flagNS ++ "stamp")%string; "user.size"%string;
                 "user.mtime"%string; "user.md5sum"%string;
                 "user.sha1sum"%string; "user.sha256sum"%string] ->
        saved !! other = file !! other).
Proof.
  intros saved. subst saved.
  destruct (Save_lookup flagNS meta file) as (H0 & H1 & H2 & H3 & H4 & H5 & Ho).
  split; [apply prefix_app|]. repeat split; try done.
Qed.

End AttributeNames.

Module DigestGroups.
Import ScanByInode ScanByDigest SortFacts KeyOrder.

Lemma results_loop_filter (seen : gmap SHA256Sum (list string)) hashes :
  forall results,
  results_loop seen hashes results
  = results ++ ((fun h => default [] (seen !! h)) <$>
                filter (fun h => (1 < length (default [] (seen !! h)))%nat) hashes).
Proof.
  induction hashes as [|h hashes IH]; intros results; cbn [results_loop].
  - by rewrite app_nil_r.
  - rewrite filter_cons. destruct (length _ <=? 1)%nat eqn:E.
    + apply Nat.leb_le in E. rewrite decide_False by lia. apply IH.
    + apply Nat.leb_gt in E. rewrite decide_True by lia.
      rewrite IH, fmap_cons, <- app_assoc. reflexivity.
Qed.

Lemma SHA256_less_of_not_after (a b : SHA256Sum) :
  not_after SHA256List_Less a b -> a <> b -> SHA256List_Less a b = true.
Proof.
  intros Hna Hne. apply SHA256_not_after in Hna.
  unfold SHA256List_Less. apply Z.ltb_lt.
  destruct (decide (CompareSHA256 a b = 0)) as [E|E]; [|lia].
  by apply CompareSHA256_eq in E.
Qed.

Lemma StronglySorted_strict (l : list SHA256Sum) :
  NoDup l -> StronglySorted (not_after SHA256List_Less) l ->
  StronglySorted (fun a b => SHA256List_Less a b = true) l.
Proof.
  intros Hnd Hs. induction Hs as [|a l Hs IH Hall]; [constructor|].
  apply NoDup_cons in Hnd as [Ha Hnd]. constructor; [by apply IH|].
  rewrite List.Forall_forall in *. intros b Hb.
  apply SHA256_less_of_not_after; [by apply Hall|].
  intros ->. apply Ha. by apply list_elem_of_In.
Qed.

Section Main.

Variable sort_Sort : forall A, (A -> A -> bool) -> list A -> list A.
Hypothesis Hsort : sort_contract sort_Sort.

(** The lists of paths of the digests that two files or more were
    recorded under, each list once, in increasing order of digest. *)
Lemma main_results_groups (seen : gmap SHA256Sum (list string)) :
  exists hashes,
    main_results sort_Sort seen = (fun h => default [] (seen !! h)) <$> hashes
    /\ StronglySorted (fun a b => SHA256List_Less a b = true) hashes
    /\ forall h, h ∈ hashes <->
         exists paths, seen !! h = Some paths /\ (2 <= length paths)%nat.
Proof.
  unfold main_results.
  set (sorted := sort_Sort SHA256Sum SHA256List_Less (map_to_list seen).*1).
  destruct (Hsort SHA256Sum SHA256List_Less (map_to_list seen).*1)
    as [Hperm Hsorted]. fold sorted in Hperm, Hsorted.
  assert (Hnd : NoDup sorted).
  { rewrite Hperm. apply NoDup_fst_map_to_list. }
  assert (Hss : StronglySorted (fun a b => SHA256List_Less a b = true) sorted).
  { apply StronglySorted_strict; [done|].
    apply Sorted_StronglySorted; [apply _|]. apply Hsorted; apply _. }
  exists (filter (fun h => (1 < length (default [] (seen !! h)))%nat) sorted).
  split; [by rewrite results_loop_filter|]. split.
  - by apply StronglySorted_filter.
  - intros h. rewrite list_elem_of_filter, Hperm, list_elem_of_fmap. split.
    + intros [Hlen [[h' paths] [-> Hin]]]. apply elem_of_map_to_list in Hin.
      cbn [fst] in *. rewrite Hin in Hlen. simpl in Hlen.
      exists paths. split; [done|lia].
    + intros (paths & Hl & Hlen). rewrite Hl. simpl. split; [lia|].
      exists (h, paths). split; [done|]. by apply elem_of_map_to_list.
Qed.

Lemma paths_with_snoc h files f :
  paths_with h (files ++ [f]) =
  if decide (f.1 = h) then paths_with h files ++ [f.2] else paths_with h files.
Proof.
  unfold paths_with. rewrite filter_app, filter_cons, filter_nil.
  destruct (decide (f.1 = h)).
  - by rewrite fmap_app.
  - by rewrite app_nil_r.
Qed.

Lemma recorded_lookup files h :
  recorded files !! h =
  if decide (paths_with h files = []) then None else Some (paths_with h files).
Proof.
  unfold recorded. induction files as [|f files IH] using rev_ind.
  - simpl. by rewrite lookup_empty.
  - rewrite foldl_app. cbn [foldl]. unfold record_path at 1.
    rewrite paths_with_snoc.
    destruct (decide (f.1 = h)) as [<-|Hne].
    + rewrite lookup_insert_eq, IH.
      destruct (decide (paths_with f.1 files = [])) as [->|E]; cbn [default];
        by rewrite decide_False by (intros E'; by apply app_eq_nil in E' as [_ ?]).
    + by rewrite lookup_insert_ne.
Qed.

(** X9. What the scanner that groups by digest reports for the files
    it recorded: for each digest that two files or more were recorded
    with, the paths of those files in the order they were recorded,
    each such list once and in increasing order of digest; a digest
    with one file is left out. *)
Theorem results_of_scan (files : list (SHA256Sum * string)) :
  exists hashes,
    main_results sort_Sort (recorded files)
    = (fun h => paths_with h files) <$> hashes
    /\ StronglySorted (fun a b => SHA256List_Less a b = true) hashes
    /\ forall h, h ∈ hashes <-> (2 <= length (paths_with h files))%nat.
Proof.
  destruct (main_results_groups (recorded files)) as (hashes & Hr & Hs & Hin).
  exists hashes. split; [|split; [done|]].
  - rewrite Hr. apply list_fmap_ext. intros i h Hh.
    assert (Hm : h ∈ hashes) by (by eapply list_elem_of_lookup_2).
    apply Hin in Hm as (paths & Hl & _). rewrite Hl. simpl.
    rewrite recorded_lookup in Hl. destruct (decide _); [done|].
    by injection Hl.
  - intros h. rewrite Hin, recorded_lookup. destruct (decide _) as [E|E].
    + rewrite E. simpl. split; [by intros (? & ? & _)|lia].
    + split; [by intros (? & [= <-] & ?)|eauto].
Qed.

End Main.

End DigestGroups.

Module ScanFileFacts.
Import GoLib Metadata FindDuplicateFiles ScanByInode ScanByDigest RuleLists.
Import MetadataFacts CodecFacts XattrFacts.

Lemma MaybeFSet_same (file : xattrs) name value :
  file !! name = Some value -> MaybeFSet file name value = file.
Proof. intros H. unfold MaybeFSet. rewrite H. by rewrite bool_decide_eq_true_2. Qed.

(** Saving what is already saved changes nothing. *)
Lemma Save_again flagNS meta (file : xattrs) :
  Save meta (Save meta file (gNames flagNS)) (gNames flagNS)
  = Save meta file (gNames flagNS).
Proof.
  destruct (Save_lookup flagNS meta file) as (H0 & H1 & H2 & H3 & H4 & H5 & _).
  cbv zeta in *. set (saved := Save meta file (gNames flagNS)) in *.
  unfold Save at 1. cbv zeta.
  rewrite (MaybeFSet_same saved (nStamp _)) by done.
  rewrite (MaybeFSet_same saved (nSize _)) by done.
  rewrite (MaybeFSet_same saved (nTime _)) by done.
  rewrite (MaybeFSet_same saved (nMD5 _)) by done.
  rewrite (MaybeFSet_same saved (nSHA1 _)) by done.
  by rewrite (MaybeFSet_same saved (nSHA256 _)) by done.
Qed.

Lemma Exclude_after_Save {Regexp} (MatchString : Regexp -> list Z -> bool)
    Normalize flagNS rules meta (file : xattrs) path :
  Rules_Exclude MatchString Normalize flagNS rules
    (Save meta file (gNames flagNS)) path
  = Rules_Exclude MatchString Normalize flagNS rules file path.
Proof.
  unfold Rules_Exclude, MaybeFGet.
  destruct (Save_lookup flagNS meta file) as (_ & _ & _ & _ & _ & _ & Ho).
  cbv zeta in Ho. by rewrite Ho by apply exclude_name_fresh.
Qed.

Lemma SHA256Sum_of_digest d :
  digest_ok 32 d = true -> exists hash, SHA256Sum_of_list d = Some hash.
Proof.
  intros Hd. apply digest_ok_spec in Hd as [Hl _]. unfold SHA256Sum_of_list.
  destruct (decide _); [eauto|done].
Qed.

Section ScanFile.

Variable foldUnicode : list Z -> list Z -> bool.
Variables md5sum sha1sum sha256sum : list Z -> list Z.
Context {Regexp : Type}.
Variable MatchString : Regexp -> list Z -> bool.
Variable Normalize : string -> list Z.

(** The three hash functions give 16, 20 and 32 bytes. *)
Hypothesis Hmd5 : forall x, digest_ok 16 (md5sum x) = true.
Hypothesis Hsha1 : forall x, digest_ok 20 (sha1sum x) = true.
Hypothesis Hsha256 : forall x, digest_ok 32 (sha256sum x) = true.

Lemma Compute_complete meta data size time m :
  in_int64 size -> in_int64 time ->
  Compute md5sum sha1sum sha256sum meta data size time = (m, true) ->
  well_formed m = true /\ Bits m = AllBits /\ Size m = size /\ Time m = time.
Proof.
  unfold in_int64. intros Hs Ht. unfold Compute.
  destruct (seek_fails data); [done|].
  destruct (read_loop _ _ _) as [[cs w]|]; [|done].
  destruct (negb _); [done|]. intros [= <-].
  repeat split. unfold well_formed. cbn.
  rewrite Hmd5, Hsha1, Hsha256.
  repeat (apply andb_true_intro; split); try done; lia.
Qed.

(** X10. The scanner remembers: when [ScanFile] hashes a file, because
    it was asked to or because the attributes were missing or stale, it
    records the file under the SHA-256 it computed and saves the
    metadata; and a later [ScanFile] of the same file with the same
    size and time, not asked to rescan, records it under the same
    digest without reading it, whatever reading would return, and
    leaves the attributes as they are. *)
Theorem ScanFile_memoizes (flags : Flags Regexp)
    (seen : gmap SHA256Sum (list string)) (it : ItemPkg.Item)
    (file : xattrs) (data : FileReads) (loaded : Metadata * bool)
    (m : Metadata) :
  in_int64 (ItemPkg.Size it) -> in_int64 (ItemPkg.Time it) ->
  flagMinSize flags <= ItemPkg.Size it ->
  Rules_Exclude MatchString Normalize (flagNS flags) (flagRules flags)
    file (ItemPkg.Path it) = false ->
  Load foldUnicode zero file (gNames (flagNS flags)) = Ret loaded ->
  flagRescan flags || negb loaded.2
    || negb (Check loaded.1 (ItemPkg.Size it) (ItemPkg.Time it)) = true ->
  Compute md5sum sha1sum sha256sum loaded.1 data
    (ItemPkg.Size it) (ItemPkg.Time it) = (m, true) ->
  exists hash,
    SHA256Sum_of_list (SHA256 m) = Some hash
    /\ ScanFile foldUnicode md5sum sha1sum sha256sum MatchString Normalize
         flags seen it file data
       = Ret (record_path seen hash (ItemPkg.Path it),
              Save m file (gNames (flagNS flags)))
    /\ forall (flags' : Flags Regexp) seen' data',
         flagNS flags' = flagNS flags -> flagRules flags' = flagRules flags ->
         flagRescan flags' = false -> flagMinSize flags' <= ItemPkg.Size it ->
         ScanFile foldUnicode md5sum sha1sum sha256sum MatchString Normalize
           flags' seen' it (Save m file (gNames (flagNS flags))) data'
         = Ret (record_path seen' hash (ItemPkg.Path it),
                Save m file (gNames (flagNS flags))).
Proof.
  intros HS HT Hmin Hexcl Hload Hstale Hcomp.
  destruct (Compute_complete _ _ _ _ _ HS HT Hcomp) as (Hwf & Hbits & Hsz & Htm).
  destruct (well_formed_fields m Hwf) as (_ & _ & _ & _ & D3).
  destruct (SHA256Sum_of_digest _ D3) as [hash Hhash].
  exists hash. split; [done|]. split.
  - unfold ScanFile.
    replace (ItemPkg.Size it <? flagMinSize flags) with false by lia.
    rewrite Hexcl, Hload. cbn [bindR]. destruct loaded as [m0 b0].
    cbn [fst snd] in *.
    assert (E : (if negb (if negb (flagRescan flags) && negb b0 then true
                          else flagRescan flags)
                      && negb (Check m0 (ItemPkg.Size it) (ItemPkg.Time it))
                 then true
                 else if negb (flagRescan flags) && negb b0 then true
                      else flagRescan flags) = true).
    { destruct (flagRescan flags), b0, (Check m0 _ _); done. }
    cbv zeta. rewrite E, Hcomp. cbn [negb]. by rewrite Hhash.
  - intros flags' seen' data' Hns Hrules Hre Hmin'.
    unfold ScanFile.
    replace (ItemPkg.Size it <? flagMinSize flags') with false by lia.
    rewrite Hns, Hrules, Exclude_after_Save, Hexcl.
    rewrite (Load_after_Save foldUnicode) by done. cbn [bindR]. cbv zeta.
    rewrite Hre. cbn [negb andb].
    assert (Hck : Check m (ItemPkg.Size it) (ItemPkg.Time it) = true).
    { unfold Check. rewrite Hbits, Hsz, Htm, !Z.eqb_refl. reflexivity. }
    rewrite Hck. cbn [negb]. by rewrite Save_again, Hhash.
Qed.

End ScanFile.

End ScanFileFacts.

Module ScanFileInvariant.
Import GoLib Metadata FindDuplicateFiles ScanByInode ScanByDigest RuleLists.

Section ScanFile.

Variable foldUnicode : list Z -> list Z -> bool.
Variables md5sum sha1sum sha256sum : list Z -> list Z.
Context {Regexp : Type}.
Variable MatchString : Regexp -> list Z -> bool.
Variable Normalize : string -> list Z.

Lemma Compute_true meta data size time m :
  Compute md5sum sha1sum sha256sum meta data size time = (m, true) ->
  (forall x, length (sha256sum x) = 32%nat) ->
  HasAll (Bits m) AllBits = true /\ Check m size time = true
  /\ length (SHA256 m) = 32%nat.
Proof.
  intros Hc Hlen. revert Hc. unfold Compute.
  destruct (seek_fails data); [done|].
  destruct (read_loop _ _ _) as [[cs w]|]; [|done].
  destruct (negb _); [done|]. intros [= <-].
  unfold Check. cbn. rewrite !Z.eqb_refl. by repeat split.
Qed.

Lemma bindR_Ret {A B} (r : Res A) (k : A -> Res B) v :
  bindR r k = Ret v -> exists x, r = Ret x /\ k x = Ret v.
Proof. destruct r as [x|]; [eauto|done]. Qed.

(** What [Load] answers is whether the value it leaves is complete. *)
Lemma Load_answer meta file names m b :
  Load foldUnicode meta file names = Ret (m, b) ->
  b = HasAll (Bits m) AllBits.
Proof.
  unfold Load. intros H.
  apply bindR_Ret in H as (m1 & _ & H). cbv zeta in H.
  repeat (apply bindR_Ret in H as (? & _ & H)).
  by injection H as <- <-.
Qed.

Lemma decodeHash_length w input out :
  decodeHash w input = Ret (Some out) -> length out = w.
Proof.
  assert (Ha : forall r o, accepted w r = Ret (Some o) -> length o = w).
  { intros [|o'|o'] o; cbn; try done.
    destruct (length o' =? w)%nat eqn:E; [|done].
    intros [= <-]. by apply Nat.eqb_eq. }
  unfold decodeHash. destruct (length input =? w)%nat eqn:E.
  { intros [= <-]. by apply Nat.eqb_eq. }
  intros H. apply bindR_Ret in H as ([o1|] & H1 & H).
  { injection H as <-. destruct (_ <=? _)%nat; [by eapply Ha|done]. }
  destruct (_ <=? _)%nat in H; [|done].
  apply bindR_Ret in H as ([o2|] & H2 & H).
  { injection H as <-. by eapply Ha. }
  by eapply Ha.
Qed.

Lemma decode_piece_sized m raw m' :
  sha256_sized m -> decode_piece foldUnicode m raw = Ret m' -> sha256_sized m'.
Proof.
  unfold decode_piece, sha256_sized. intros Hm.
  destruct (Cut raw kCut) as [[key value] found].
  repeat (destruct (keyIs _ _ _ _)).
  - intros [= <-]. unfold decodeSize. by destruct (decodeInt value).
  - intros [= <-]. unfold decodeModTime. by destruct (decodeInt value).
  - unfold decodeMD5. intros H. apply bindR_Ret in H as ([o|] & _ & H);
      by injection H as <-.
  - unfold decodeSHA1. intros H. apply bindR_Ret in H as ([o|] & _ & H);
      by injection H as <-.
  - unfold decodeSHA256. intros H. apply bindR_Ret in H as ([o|] & Ho & H);
      injection H as <-; [|done]. cbn. by apply decodeHash_length in Ho.
  - by intros [= <-].
Qed.

Lemma Decode_sized m input m' b :
  sha256_sized m -> Decode foldUnicode m input = Ret (m', b) -> sha256_sized m'.
Proof.
  unfold Decode. intros Hm H. apply bindR_Ret in H as (m1 & H & [= <- _]).
  revert m1 H. induction (Split input kSplit) as [|raw pieces IH] using rev_ind;
    intros m1 H.
  - cbn in H. by injection H as <-.
  - rewrite foldl_app in H. cbn [foldl] in H.
    apply bindR_Ret in H as (m0 & H0 & H). eapply decode_piece_sized; [|done].
    by apply IH.
Qed.

Lemma Load_sized file names m b :
  Load foldUnicode zero file names = Ret (m, b) -> sha256_sized m.
Proof.
  assert (Hz : sha256_sized zero) by done.
  assert (Hint : forall m raw, sha256_sized m ->
            sha256_sized (decodeSize m raw) /\ sha256_sized (decodeModTime m raw)).
  { intros m0 raw H0. unfold decodeSize, decodeModTime.
    by destruct (decodeInt raw). }
  unfold Load. intros H.
  apply bindR_Ret in H as (m1 & H1 & H). cbv beta in H.
  assert (S1 : sha256_sized m1).
  { destruct (MaybeFGet file (nStamp names)) as [raw|]; [|by injection H1 as <-].
    apply bindR_Ret in H1 as ([m1' b1] & Hd & [= <-]).
    by eapply Decode_sized. }
  match type of H with context [decodeMD5 ?x _] => set (m3 := x) in H end.
  assert (S3 : sha256_sized m3).
  { subst m3.
    match goal with |- context [decodeModTime ?x _] => set (m2 := x) end.
    assert (S2 : sha256_sized m2).
    { subst m2. destruct (Has (Bits m1) SizeBit); cbn [negb]; [done|].
      destruct (MaybeFGet file (nSize names)); [by apply Hint|done]. }
    clearbody m2. destruct (Has (Bits m2) TimeBit); cbn [negb]; [done|].
    destruct (MaybeFGet file (nTime names)); [by apply Hint|done]. }
  clearbody m3.
  apply bindR_Ret in H as (m4 & H4 & H).
  assert (S4 : sha256_sized m4).
  { destruct (Has (Bits m3) MD5Bit); cbn [negb] in H4; [by injection H4 as <-|].
    destruct (MaybeFGet file (nMD5 names)); [|by injection H4 as <-].
    unfold decodeMD5 in H4. apply bindR_Ret in H4 as ([o|] & _ & H4);
      by injection H4 as <-. }
  apply bindR_Ret in H as (m5 & H5 & H).
  assert (S5 : sha256_sized m5).
  { destruct (Has (Bits m4) SHA1Bit); cbn [negb] in H5; [by injection H5 as <-|].
    destruct (MaybeFGet file (nSHA1 names)); [|by injection H5 as <-].
    unfold decodeSHA1 in H5. apply bindR_Ret in H5 as ([o|] & _ & H5);
      by injection H5 as <-. }
  apply bindR_Ret in H as (m6 & H6 & H). injection H as <- _.
  destruct (Has (Bits m5) SHA256Bit); cbn [negb] in H6; [by injection H6 as <-|].
  destruct (MaybeFGet file (nSHA256 names)); [|by injection H6 as <-].
  unfold decodeSHA256 in H6. apply bindR_Ret in H6 as ([o|] & Ho & H6);
    injection H6 as <-; [|done]. cbn. by apply decodeHash_length in Ho.
Qed.

Lemma sized_digest m :
  sha256_sized m -> exists hash, SHA256Sum_of_list (SHA256 m) = Some hash.
Proof.
  unfold sha256_sized, SHA256Sum_of_list. intros H.
  destruct (decide _); [eauto|done].
Qed.

(** The SHA-256 function gives 32 bytes. *)
Hypothesis Hsha256 : forall x, length (sha256sum x) = 32%nat.

(** X11. [ScanFile] records a file only together with metadata that is
    complete and carries the size and time of the item: unless it
    panics while decoding an attribute, it either leaves the map and
    the attributes exactly as they were (a file below the minimum size,
    an excluded file, a file that could not be hashed), or it saves
    such metadata and adds the path to the list of its SHA-256. *)
Theorem ScanFile_records_checked (flags : Flags Regexp)
    (seen : gmap SHA256Sum (list string)) (it : ItemPkg.Item)
    (file : xattrs) (data : FileReads) :
  let result := ScanFile foldUnicode md5sum sha1sum sha256sum MatchString
                  Normalize flags seen it file data in
  result = Panicked
  \/ result = Ret (seen, file)
  \/ exists m,
       HasAll (Bits m) AllBits = true
       /\ Check m (ItemPkg.Size it) (ItemPkg.Time it) = true
       /\ flagMinSize flags <= ItemPkg.Size it
       /\ ((exists hash,
              SHA256Sum_of_list (SHA256 m) = Some hash
              /\ result = Ret (record_path seen hash (ItemPkg.Path it),
                               Save m file (gNames (flagNS flags))))).
Proof.
  intros result. subst result. unfold ScanFile.
  destruct (ItemPkg.Size it <? flagMinSize flags) eqn:Emin; [by right; left|].
  destruct (Rules_Exclude _ _ _ _ _ _); [by right; left|].
  destruct (Load _ _ _ _) as [[m0 b0]|] eqn:El'; [|by left].
  pose proof (Load_answer _ _ _ _ _ El') as El. cbn [bindR]. cbv zeta.
  match goal with
  | |- context [if ?c then Compute _ _ _ _ _ _ _ else _] => destruct c eqn:Ec
  end.
  - destruct (Compute _ _ _ _ _ _ _) as [m [|]] eqn:Ecomp;
      [|by right; left]. cbn [negb].
    destruct (Compute_true _ _ _ _ _ Ecomp Hsha256) as (Hall & Hck & Hsz).
    destruct (sized_digest m Hsz) as [hash Eh]. rewrite Eh.
    right; right. exists m. repeat split; try done; [lia|eauto].
  - destruct b0; [|by right; left]. cbn [negb].
    destruct (sized_digest m0 (Load_sized _ _ _ _ El')) as [hash Eh].
    rewrite Eh. right; right. exists m0.
    assert (Hck : Check m0 (ItemPkg.Size it) (ItemPkg.Time it) = true).
    { destruct (flagRescan flags); [done|]. cbn [negb andb] in Ec.
      by destruct (Check m0 _ _). }
    repeat split; try done; [lia|eauto].
Qed.

End ScanFile.

End ScanFileInvariant.

Module InodeGroups.
Import ScanByInode SortFacts KeyOrder GroupingFacts.

(** X12. [Key.CompareTo] orders the keys totally: it answers 0 exactly
    for equal keys, swapping its arguments negates its answer, its
    answer is -1, 0 or 1, and "less than" is transitive. *)
Theorem CompareTo_total_order (a b c : Key) :
  (CompareTo a b = 0 <-> a = b)
  /\ CompareTo b a = - CompareTo a b
  /\ -1 <= CompareTo a b <= 1
  /\ (CompareTo a b < 0 -> CompareTo b c < 0 -> CompareTo a c < 0).
Proof.
  split; [|split; [apply CompareTo_antisym|split]].
  - split; [apply CompareTo_eq|]. intros ->.
    pose proof (CompareTo_antisym b b). lia.
  - unfold CompareTo, CompareSHA256, CompareUint64.
    pose proof (CompareBytes_range (vec_to_list (Hash a)) (vec_to_list (Hash b))).
    repeat case_match; lia.
  - intros Hab Hbc.
    assert (Hac : not_after KeyList_Less a c).
    { transitivity b; apply Key_not_after; lia. }
    apply Key_not_after in Hac.
    destruct (decide (CompareTo a c = 0)) as [E|E]; [|lia].
    apply CompareTo_eq in E as ->.
    pose proof (CompareTo_antisym c b). lia.
Qed.

Lemma two_in_filter {A} (P : A -> Prop) `{!forall x, Decision (P x)} (l : list A) :
  NoDup l ->
  (1 < length (filter P l))%nat <->
  exists x y, x <> y /\ x ∈ l /\ y ∈ l /\ P x /\ P y.
Proof.
  intros Hnd. pose proof (NoDup_filter P l Hnd) as Hf.
  assert (Hin : forall x, x ∈ filter P l <-> P x /\ x ∈ l)
    by (intros x; apply list_elem_of_filter).
  destruct (filter P l) as [|x [|y fl]].
  - split; [simpl; lia|]. intros (x & _ & _ & Hx & _ & Px & _).
    assert (Hnil : x ∈ @nil A) by (by apply Hin). by apply elem_of_nil in Hnil.
  - split; [simpl; lia|]. intros (u & v & Hne & Hu & Hv & Pu & Pv).
    assert (H1 : u ∈ [x]) by (by apply Hin).
    assert (H2 : v ∈ [x]) by (by apply Hin).
    apply list_elem_of_singleton in H1, H2. congruence.
  - split; [|simpl; lia]. intros _. exists x, y.
    apply NoDup_cons in Hf as [Hx _].
    assert (Px : P x /\ x ∈ l) by (apply Hin; left).
    assert (Py : P y /\ y ∈ l) by (apply Hin; right; left).
    split; [|tauto]. intros ->. apply Hx. left.
Qed.

Section Main.

Variable sort_Sort : forall A, (A -> A -> bool) -> list A -> list A.
Hypothesis Hsort : sort_contract sort_Sort.

(** X13. What the scanner that keys by inode reports: it does not
    panic, a digest is reported exactly when files with that digest
    were recorded on two different inodes, so hard links of one inode
    alone are never reported as duplicates, and every path of a
    reported list is a recorded file with that digest. *)
Theorem reported_iff_two_inodes (files : list Scanned) :
  exists gs,
    main_groups sort_Sort (scan files) = Ret gs
    /\ (forall h, (exists paths, (h, paths) ∈ gs) <->
          exists f g, f ∈ files /\ g ∈ files /\ sHash f = h /\ sHash g = h
                      /\ (sDev f, sIno f) <> (sDev g, sIno g))
    /\ (forall h paths p, (h, paths) ∈ gs -> p ∈ paths ->
          exists f, f ∈ files /\ sHash f = h /\ sPath f = p).
Proof.
  set (seen := scan files). unfold main_groups.
  set (keys := sort_Sort Key KeyList_Less (map_to_list seen).*1).
  assert (Hkeys : forall k, k ∈ keys <-> is_Some (seen !! k)).
  { intros k. unfold keys. rewrite (sorted_perm sort_Sort Hsort), list_elem_of_fmap.
    split.
    - intros ([k' l] & -> & Hin). apply elem_of_map_to_list in Hin. eauto.
    - intros [l Hl]. exists (k, l). split; [done|]. by apply elem_of_map_to_list. }
  assert (Hnd : NoDup keys).
  { unfold keys. rewrite (sorted_perm sort_Sort Hsort).
    apply NoDup_fst_map_to_list. }
  assert (Hfile : forall k, k ∈ keys <-> exists f, f ∈ files /\ key_of f = k).
  { intros k. rewrite Hkeys. unfold seen. rewrite scan_lookup.
    destruct (decide (paths_of k files = [])) as [E|E].
    - split; [by intros [? ?]|]. intros (f & Hf & Hk).
      assert (Hp : sPath f ∈ paths_of k files) by (apply elem_of_paths_of; eauto).
      rewrite E in Hp. by apply elem_of_nil in Hp.
    - split; [|eauto]. intros _.
      destruct (paths_of k files) as [|p ps] eqn:Ep; [done|].
      assert (Hp : p ∈ paths_of k files) by (rewrite Ep; left).
      apply elem_of_paths_of in Hp as (f & Hf & Hk & _). eauto. }
  destruct (collapse_spec sort_Sort Hsort seen keys) as (m & Hm & Hl).
  { intros k Hk. apply Hkeys in Hk as [l Hk]. exists l. split; [done|].
    by apply scan_lookup_Some in Hk as [_ ?]. }
  rewrite Hm. cbn [bindR]. cbv zeta in Hl.
  set (hashes := sort_Sort SHA256Sum SHA256List_Less (map_to_list m).*1).
  assert (Hhashes : forall h, h ∈ hashes <-> is_Some (m !! h)).
  { intros h. unfold hashes.
    rewrite (sorted_perm sort_Sort Hsort), list_elem_of_fmap. split.
    - intros ([h' l] & -> & Hin). apply elem_of_map_to_list in Hin. eauto.
    - intros [l Hh]. exists (h, l). split; [done|]. by apply elem_of_map_to_list. }
  assert (Hgs : forall h paths, (h, paths) ∈ groups m hashes <->
            paths = rep_of sort_Sort seen <$> filter (fun k => Hash k = h) keys
            /\ (1 < length (filter (fun k => Hash k = h) keys))%nat).
  { intros h paths. unfold groups.
    rewrite list_elem_of_filter, list_elem_of_fmap. cbn [snd]. split.
    - intros [Hlen (h' & [= <- ->] & Hin)]. rewrite Hl in Hlen |- *.
      destruct (decide _) as [E|E]; [simpl in Hlen; lia|]. simpl in *.
      split; [done|]. by rewrite length_fmap in Hlen.
    - intros [-> Hlen].
      assert (Hmh : m !! h = Some (rep_of sort_Sort seen <$>
                                   filter (fun k => Hash k = h) keys)).
      { rewrite Hl. rewrite decide_False; [done|].
        intros E. apply (f_equal length) in E. rewrite length_fmap in E.
        simpl in E. lia. }
      split; [by rewrite length_fmap|]. exists h. rewrite Hmh. split; [done|].
      apply Hhashes. by rewrite Hmh. }
  exists (groups m hashes). split; [done|]. split.
  - intros h. split.
    + intros (paths & Hin). apply Hgs in Hin as [_ Hlen].
      apply two_in_filter in Hlen as (x & y & Hne & Hx & Hy & Px & Py); [|done].
      apply Hfile in Hx as (f & Hf & <-). apply Hfile in Hy as (g & Hg & <-).
      exists f, g. repeat split; try done.
      intros [= E1 E2]. apply Hne. unfold key_of. simpl in Px, Py. congruence.
    + intros (f & g & Hf & Hg & Hfh & Hgh & Hne).
      eexists. apply Hgs. split; [reflexivity|].
      apply two_in_filter; [done|]. exists (key_of f), (key_of g).
      repeat split; try done; [|apply Hfile; eauto..].
      intros E. apply Hne. pose proof (f_equal Dev E) as E1.
      pose proof (f_equal Ino E) as E2. simpl in E1, E2. congruence.
  - intros h paths p Hin Hp. apply Hgs in Hin as [-> _].
    apply list_elem_of_fmap in Hp as (k & -> & Hk).
    apply list_elem_of_filter in Hk as [Hh Hk].
    apply Hkeys in Hk as [l Hk].
    pose proof Hk as Hk'. apply scan_lookup_Some in Hk' as [-> Hne].
    destruct (rep_of_min sort_Sort Hsort seen k _ Hk Hne) as [Hr _].
    apply elem_of_paths_of in Hr as (f & Hf & Hkf & Hpf).
    exists f. repeat split; try done. by rewrite <- Hh, <- Hkf.
Qed.

End Main.

End InodeGroups.

Module ReplacementFacts.
Import ItemPkg CleanDuplicateFiles Replacement SortFacts SurvivorFacts.

Lemma cmp_Compare_string_eq a b : cmp_Compare_string a b = 0 <-> a = b.
Proof.
  unfold cmp_Compare_string. destruct (String.compare a b) eqn:E.
  - apply String.compare_eq_iff in E. by split.
  - split; [done|]. intros ->.
    pose proof (String.compare_antisym b b) as Ha. by rewrite E in Ha.
  - split; [done|]. intros ->.
    pose proof (String.compare_antisym b b) as Ha. by rewrite E in Ha.
Qed.

Lemma CompareItems_zero a b :
  CompareItems a b = 0 <->
  Priority a = Priority b /\ Nlink a = Nlink b /\ Time a = Time b
  /\ Path a = Path b.
Proof.
  unfold CompareItems, cmp_Compare. rewrite <- cmp_Compare_string_eq.
  unfold cmp_Compare_string.
  destruct (String.compare (Path a) (Path b));
    repeat case_match; lia.
Qed.

Lemma CompareItems_fields a a' b :
  Priority a = Priority a' -> Nlink a = Nlink a' -> Time a = Time a' ->
  Path a = Path a' -> CompareItems a b = CompareItems a' b.
Proof. unfold CompareItems. by intros -> -> -> ->. Qed.

(** X14. [CompareItems] orders the items totally by priority, link
    count, time and path: it answers 0 exactly when all four agree,
    swapping its arguments negates its answer, "less than" is
    transitive, and an item of lower priority rank is less than one of
    higher rank whatever the other fields are. *)
Theorem CompareItems_total_order (a b c : Item) :
  (CompareItems a b = 0 <->
     Priority a = Priority b /\ Nlink a = Nlink b /\ Time a = Time b
     /\ Path a = Path b)
  /\ CompareItems b a = - CompareItems a b
  /\ (CompareItems a b < 0 -> CompareItems b c < 0 -> CompareItems a c < 0)
  /\ (Priority a < Priority b -> CompareItems a b < 0).
Proof.
  split; [apply CompareItems_zero|]. split; [apply CompareItems_antisym|]. split.
  - intros Hab Hbc.
    assert (Hna : forall x y, CompareItems x y < 0 -> not_after Items_Less x y).
    { intros x y H. unfold not_after, Items_Less.
      rewrite (CompareItems_antisym x y). lia. }
    assert (Hac : not_after Items_Less a c)
      by (transitivity b; by apply Hna).
    unfold not_after, Items_Less in Hac. rewrite CompareItems_antisym in Hac.
    destruct (decide (CompareItems a c = 0)) as [E|E]; [|lia].
    apply CompareItems_zero in E as (E1 & E2 & E3 & E4).
    rewrite (CompareItems_fields a c b) in Hab by done.
    rewrite (CompareItems_antisym b c) in Hab. lia.
  - intros Hp. unfold CompareItems, cmp_Compare.
    replace (Priority a <? Priority b) with true by lia. reflexivity.
Qed.

Section ProcessBatch.

Variable sort_Sort : forall A, (A -> A -> bool) -> list A -> list A.
Variable FS : Type.
Variable Open : string -> option Item.
Variable tryLink trySymlink : string -> string -> FS -> bool * FS.

(** The last loop of [processBatch] from any position on: what it
    hands to the link step, what it answers, and what it does to the
    file system. *)
Lemma replace_loop_candidates best bestIndex items :
  forall index replaced fs,
  let cands := candidates best bestIndex items index in
  let result := replace_loop FS tryLink trySymlink best bestIndex items index
                  replaced fs in
  (result.1 = Returned (Some best) (replaced ++ cands)
   /\ replaced_from FS tryLink trySymlink (Path best) cands fs result.2)
  \/ exists done failed rest fs1 fs2,
       cands = done ++ failed :: rest
       /\ result.1 = Fatal best (replaced ++ done) failed
       /\ replaced_from FS tryLink trySymlink (Path best) done fs fs1
       /\ tryLink (Path best) failed fs1 = (false, fs2)
       /\ trySymlink (Path best) failed fs2 = (false, result.2).
Proof.
  induction items as [|it items IH]; intros index replaced fs;
    cbn [candidates replace_loop].
  - left. rewrite app_nil_r. split; [done|]. apply replaced_none.
  - destruct (index =? bestIndex)%nat; cbn [orb]; [apply IH|].
    destruct (os_SameFile it best && negb (IsSymlink it)); [apply IH|].
    destruct (tryLink (Path best) (Path it) fs) as [ok1 fs1] eqn:E1.
    assert (Hgo : forall fsn,
      (forall fs', replaced_from FS tryLink trySymlink (Path best)
                     (candidates best bestIndex items (S index)) fsn fs' ->
                   replaced_from FS tryLink trySymlink (Path best)
                     (Path it :: candidates best bestIndex items (S index))
                     fs fs') ->
      (forall done fs', replaced_from FS tryLink trySymlink (Path best)
                          done fsn fs' ->
                        replaced_from FS tryLink trySymlink (Path best)
                          (Path it :: done) fs fs') ->
      let result := replace_loop FS tryLink trySymlink best bestIndex items
                      (S index) (replaced ++ [Path it]) fsn in
      (result.1 = Returned (Some best)
                    (replaced ++ Path it :: candidates best bestIndex items (S index))
       /\ replaced_from FS tryLink trySymlink (Path best)
            (Path it :: candidates best bestIndex items (S index)) fs result.2)
      \/ exists done failed rest fs1 fs2,
           Path it :: candidates best bestIndex items (S index)
           = done ++ failed :: rest
           /\ result.1 = Fatal best (replaced ++ done) failed
           /\ replaced_from FS tryLink trySymlink (Path best) done fs fs1
           /\ tryLink (Path best) failed fs1 = (false, fs2)
           /\ trySymlink (Path best) failed fs2 = (false, result.2)).
    { intros fsn Hall Hdone.
      destruct (IH (S index) (replaced ++ [Path it]) fsn)
        as [[E Hr]|(dn & failed & rest & f1 & f2 & Ec & E & Hr & Hl & Hs)];
        cbv zeta in *.
      - left. rewrite E, <- app_assoc. split; [done|]. by apply Hall.
      - right. exists (Path it :: dn), failed, rest, f1, f2. rewrite Ec.
        split; [done|]. rewrite E, <- app_assoc.
        split; [done|]. split; [by apply Hdone|done]. }
    destruct ok1; cbn [negb].
    + apply Hgo; intros; by eapply replaced_link.
    + destruct (trySymlink (Path best) (Path it) fs1) as [ok2 fs2] eqn:E2.
      destruct ok2; cbn [negb].
      * apply Hgo; intros; by eapply replaced_symlink.
      * right.
        exists [], (Path it), (candidates best bestIndex items (S index)), fs, fs1.
        split; [done|]. rewrite app_nil_r. split; [done|].
        split; [apply replaced_none|]. by split.
Qed.

(** X15. What a batch replaces, and how: for a group of two paths or
    more that all open and are not all symlinks, the members handed to
    the link step are, in sorted order, the members other than the
    survivor that are symlinks or are not the survivor's file.  Either
    the batch returns, and then every one of them was replaced, in
    this order, by a hardlink to the survivor's path or, when the
    hardlink failed, by a symlink to it, and the file system is what
    these calls left; or the batch stops at the first of them for
    which the hardlink and then the symlink both failed, having
    replaced the ones before it in the same way. *)
Theorem processBatch_replaces (paths : list string) (items : list Item)
    (fs : FS) (j : nat) (best : Item) :
  (1 < length paths)%nat ->
  Open <$> paths = Some <$> items ->
  pick_best (sort_Sort Item Items_Less items) 0 = Some (j, best) ->
  let cands := candidates best j (sort_Sort Item Items_Less items) 0 in
  let result := processBatch sort_Sort FS Open tryLink trySymlink paths fs in
  (result.1 = Returned (Some best) cands
   /\ replaced_from FS tryLink trySymlink (Path best) cands fs result.2)
  \/ exists done failed rest fs1 fs2,
       cands = done ++ failed :: rest
       /\ result.1 = Fatal best done failed
       /\ replaced_from FS tryLink trySymlink (Path best) done fs fs1
       /\ tryLink (Path best) failed fs1 = (false, fs2)
       /\ trySymlink (Path best) failed fs2 = (false, result.2).
Proof.
  intros Hlen Hopen Hpick cands result. subst cands result.
  unfold processBatch.
  replace (length paths <=? 1)%nat with false
    by (symmetry; apply Nat.leb_gt; lia).
  change (map Open paths) with (Open <$> paths).
  rewrite Hopen, mapM_id_Some, Hpick.
  apply (replace_loop_candidates best j _ 0%nat []).
Qed.

End ProcessBatch.

End ReplacementFacts.

Module GlobTranslation.
Import Utf8 Glob GlobSpec GlobFacts.

#[local] Arguments cfg : simpl never.
#[local] Hint Rewrite err_cfg input_cfg output_cfg depth_cfg state_cfg
  set_state_cfg set_output_cfg set_depth_cfg fail_cfg : cfg.

Lemma split_runes_decodes fuel : forall s,
  (length s <= fuel)%nat ->
  decodes_to s (split_runes fuel s).1 (split_runes fuel s).2.
Proof.
  induction fuel as [|fuel IH]; intros s Hs.
  - destruct s; [|simpl in Hs; lia]. simpl. by apply (decodes_to_end []).
  - cbn [split_runes]. destruct (next_rune s) as [[ch rest]|] eqn:E.
    + pose proof (next_rune_shorter _ _ _ E).
      specialize (IH rest ltac:(lia)).
      destruct (split_runes fuel rest) as [rs tail]. simpl in *.
      by eapply decodes_to_step.
    + simpl. by apply decodes_to_end.
Qed.

Lemma decodes_to_length s rs tail :
  decodes_to s rs tail -> (length rs <= length s)%nat.
Proof.
  induction 1 as [|s ch rest rs tail Hn _ IH]; simpl; [lia|].
  apply next_rune_shorter in Hn. lia.
Qed.

Lemma unread_nil inp pend tail :
  unread inp pend [] tail ->
  pend = None /\ next_rune inp = None /\ tail = inp.
Proof.
  destruct pend as [c|]; simpl.
  - by intros (rs' & ? & _).
  - by inversion 1.
Qed.

(** Peeking at the next rune, and consuming it. *)
Lemma peek_unread st d out inp pend ch rs tail :
  unread inp pend (ch :: rs) tail ->
  exists inp',
    peekRune (cfg st d out inp pend) = (ch, true, cfg st d out inp' (Some ch))
    /\ decodes_to inp' rs tail
    /\ consumeRune ch (cfg st d out inp pend) = Ret (cfg st d out inp' None).
Proof.
  destruct pend as [c|]; simpl.
  - intros (rs' & [= <- <-] & Hd). exists inp.
    split; [done|]. split; [done|]. apply consume_pending.
  - inversion 1 as [|? ? rest ? ? Hn Hd]; subst. exists rest.
    rewrite peekRune_none, Hn. repeat split; try done.
    unfold consumeRune. change (err (cfg st d out inp None)) with (@None error).
    cbn [bool_decide decide_rel negb]. rewrite peekRune_none, Hn.
    cbn [negb]. rewrite Z.eqb_refl. reflexivity.
Qed.

Lemma emit_emit a b o : emit a (emit b o) = emit (a ++ b) o.
Proof. destruct o; simpl; [by rewrite app_assoc|done..]. Qed.

Lemma ends_as_emit r out a o tail :
  ends_as r (out ++ a) o tail -> ends_as r out (emit a o) tail.
Proof. destruct o; simpl; [by rewrite app_assoc|done..]. Qed.

Lemma AppendRune_app p r : AppendRune p r = p ++ AppendRune [] r.
Proof. unfold AppendRune. by repeat case_match. Qed.

(** Between tokens, only a slash tells the two plain modes apart. *)
Lemma translate_plain_flag b b' d ch rs clean :
  ch <> 47 ->
  translate (Plain b) d (ch :: rs) clean = translate (Plain b') d (ch :: rs) clean.
Proof. intros H. cbn [translate]. by replace (ch =? 47) with false by lia. Qed.

(** The slashes after the first are read and add nothing. *)
Lemma onSlash_loop_translate rs : forall fuel st d out inp pend tail,
  unread inp pend rs tail -> (length rs < fuel)%nat ->
  exists inp' pend' rs',
    onSlash_loop fuel (cfg st d out inp pend) = Ret (cfg st d out inp' pend')
    /\ unread inp' pend' rs' tail
    /\ (length rs' <= length rs)%nat
    /\ forall dd clean, translate (Plain true) dd rs clean
                        = translate (Plain false) dd rs' clean.
Proof.
  induction rs as [|ch rs IH]; intros fuel st d out inp pend tail Hrem Hf;
    (destruct fuel as [|fuel]; [simpl in Hf; lia|]); cbn [onSlash_loop].
  - pose proof Hrem as Hrem'.
    apply unread_nil in Hrem as (-> & Hn & ->).
    rewrite peekRune_none, Hn. cbn [andb].
    exists inp, None, []. done.
  - destruct (peek_unread st d out inp pend ch rs tail Hrem)
      as (inp' & Hp & Hd & Hc).
    rewrite Hp. cbn [andb]. destruct (ch =? 47) eqn:E.
    + rewrite consume_pending. cbn [bindR].
      destruct (IH fuel st d out inp' None tail Hd ltac:(simpl in Hf; lia))
        as (inp'' & pend'' & rs'' & Hl & Hr & Hlen & Hs).
      exists inp'', pend'', rs''. split; [exact Hl|]. split; [done|].
      split; [simpl; lia|]. intros dd clean. rewrite <- Hs.
      cbn [translate]. rewrite E. by replace (ch =? 92) with false by lia.
    + exists inp', (Some ch), (ch :: rs). split; [done|].
      split; [simpl; eauto|]. split; [done|]. intros dd clean.
      apply translate_plain_flag. lia.
Qed.

(** The loop of a class either finds the closing bracket, having
    written the body of the class, or runs into the end of the text
    and fails. *)
Lemma onBracket_loop_translate rs : forall fuel esc d out inp pend tail,
  unread inp pend rs tail -> (length rs < fuel)%nat ->
  (exists body inp' rs',
      onBracket_loop fuel esc (cfg stateOpenBracket d out inp pend)
      = Ret (true, cfg stateReady d (out ++ body) inp' None)
      /\ decodes_to inp' rs' tail
      /\ (length rs' < length rs)%nat
      /\ forall dd clean, translate (ClassBody esc) dd rs clean
                          = emit body (translate (Plain false) dd rs' clean))
  \/ (exists final,
        onBracket_loop fuel esc (cfg stateOpenBracket d out inp pend)
        = Ret (false, final)
        /\ err final = Some errCharacterMatch
        /\ forall dd clean, translate (ClassBody esc) dd rs clean
                            = Rejected errCharacterMatch).
Proof.
  induction rs as [|ch rs IH]; intros fuel esc d out inp pend tail Hrem Hf;
    (destruct fuel as [|fuel]; [simpl in Hf; lia|]); cbn [onBracket_loop].
  - apply unread_nil in Hrem as (-> & Hn & ->).
    rewrite peekRune_none, Hn. cbn [negb]. right.
    eexists. rewrite fail_cfg. split; [reflexivity|]. split; [done|]. done.
  - destruct (peek_unread stateOpenBracket d out inp pend ch rs tail Hrem)
      as (inp' & Hp & Hd & Hc).
    rewrite Hp. cbn [negb].
    assert (Hlt : (length rs < fuel)%nat) by (simpl in Hf; lia).
    assert (Hstep : forall esc' piece,
      (forall dd clean, translate (ClassBody esc) dd (ch :: rs) clean
                  = emit piece (translate (ClassBody esc') dd rs clean)) ->
      (exists body inp'' rs',
          onBracket_loop fuel esc' (cfg stateOpenBracket d (out ++ piece) inp' None)
          = Ret (true, cfg stateReady d (out ++ body) inp'' None)
          /\ decodes_to inp'' rs' tail
          /\ (length rs' < length (ch :: rs))%nat
          /\ forall dd clean, translate (ClassBody esc) dd (ch :: rs) clean
                        = emit body (translate (Plain false) dd rs' clean))
      \/ (exists final,
            onBracket_loop fuel esc' (cfg stateOpenBracket d (out ++ piece) inp' None)
            = Ret (false, final)
            /\ err final = Some errCharacterMatch
            /\ forall dd clean, translate (ClassBody esc) dd (ch :: rs) clean
                          = Rejected errCharacterMatch)).
    { intros esc' piece Hscan.
      destruct (IH fuel esc' d (out ++ piece) inp' None tail Hd Hlt)
        as [(o & i & r & Hl & Hdd & Hlen & Hs)|(final & Hl & He & Hs)].
      - left. exists (piece ++ o), i, r. rewrite app_assoc.
        repeat split; try done; [simpl; lia|].
        intros dd clean. by rewrite Hscan, Hs, emit_emit.
      - right. exists final. repeat split; try done.
        intros dd clean. by rewrite Hscan, Hs. }
    assert (Hnil : forall esc',
      (forall dd clean, translate (ClassBody esc) dd (ch :: rs) clean
                  = translate (ClassBody esc') dd rs clean) ->
      forall dd clean, translate (ClassBody esc) dd (ch :: rs) clean
                  = emit [] (translate (ClassBody esc') dd rs clean)).
    { intros esc' H dd clean. rewrite H. by destruct (translate _ _ _ _). }
    destruct esc.
    + rewrite consume_pending. cbn [bindR]. autorewrite with cfg.
      rewrite AppendRune_app, <- app_assoc.
      apply (Hstep false ([92] ++ AppendRune [] ch)).
      intros dd clean. cbn [translate]. by rewrite (AppendRune_app [92]).
    + destruct (ch =? 92) eqn:E92.
      { apply Z.eqb_eq in E92. subst ch. rewrite consume_pending. cbn [bindR].
        pose proof (Hstep true [] (Hnil true ltac:(done))) as Hs.
        by rewrite app_nil_r in Hs. }
      destruct (ch =? 93) eqn:E93.
      { apply Z.eqb_eq in E93. subst ch. rewrite consume_pending. cbn [bindR].
        autorewrite with cfg. left. exists [93], inp', rs.
        repeat split; try done. simpl. lia. }
      rewrite consume_pending. cbn [bindR]. autorewrite with cfg.
      rewrite AppendRune_app. apply (Hstep false (AppendRune [] ch)).
      intros dd clean. cbn [translate]. by rewrite E92, E93.
Qed.

Lemma Run_at_tail fuel d out inp tail :
  decodes_to inp [] tail ->
  ends_as (Run (S fuel) (cfg stateReady (Z.of_nat d) out inp None)) out
          (translate (Plain false) d [] (bool_decide (tail = []))) tail.
Proof.
  intros Hrem. apply (unread_nil inp None) in Hrem as (_ & Hnx & ->).
  assert (Hstep : step (cfg stateReady (Z.of_nat d) out inp None)
                  = requireEOF (cfg stateReady (Z.of_nat d) out inp None)).
  { unfold step, onReady. by rewrite state_cfg, peekRune_none, Hnx. }
  unfold requireEOF in Hstep. rewrite err_cfg, input_cfg, depth_cfg in Hstep.
  cbn [translate]. destruct inp as [|b inp].
  - rewrite bool_decide_eq_true_2 by done. cbn [negb]. destruct d as [|d].
    + eexists. split; [apply Run_stop; rewrite Hstep; reflexivity|done].
    + assert (E : (0 <? Z.of_nat (S d)) = true) by (apply Z.ltb_lt; lia).
      rewrite E in Hstep. cbn [Nat.ltb Nat.leb]. split; [done|].
      eexists. split; [apply Run_stop; rewrite Hstep; reflexivity|done].
  - rewrite bool_decide_eq_false_2 by done. cbn [negb ends_as].
    cbn [bool_decide decide_rel negb] in Hstep.
    change (0 <? length (b :: inp))%nat with true in Hstep. cbv iota in Hstep.
    destruct (length (b :: inp) <? 8)%nat.
    + cbn [Run]. by rewrite Hstep.
    + eexists. split; [apply Run_stop; rewrite Hstep; reflexivity|done].
Qed.

Lemma Run_translate n : forall rs, (length rs <= n)%nat ->
  forall fuel d out inp pend tail,
    unread inp pend rs tail ->
    Z.of_nat d + Z.of_nat (length rs) < 2 ^ 64 ->
    (2 * length rs + 2 <= fuel)%nat ->
    ends_as (Run fuel (cfg stateReady (Z.of_nat d) out inp pend)) out
            (translate (Plain false) d rs (bool_decide (tail = []))) tail.
Proof.
  induction n as [|n IH]; intros rs Hn fuel d out inp pend tail Hrem Hd Hf.
  all: destruct fuel as [|fuel]; [lia|].
  all: destruct rs as [|ch rs]; [|try (simpl in Hn; lia)].
  1,2: pose proof (unread_nil _ _ _ Hrem) as (-> & _ & _);
       by apply Run_at_tail.
  set (clean := bool_decide (tail = [])).
  destruct (peek_unread stateReady (Z.of_nat d) out inp pend ch rs tail Hrem)
    as (inp' & Hp & Hdec & Hc0).
  simpl in Hn, Hd, Hf.
  assert (HIH : forall rs' d' out' inp'' pend',
    (length rs' <= length rs)%nat ->
    unread inp'' pend' rs' tail ->
    Z.of_nat d' + Z.of_nat (length rs') < 2 ^ 64 ->
    forall fuel', (fuel - 1 <= fuel')%nat ->
    ends_as (Run fuel' (cfg stateReady (Z.of_nat d') out' inp'' pend')) out'
            (translate (Plain false) d' rs' clean) tail).
  { intros rs' d' out' inp'' pend' Hl Hr Hdd fuel' Hfuel.
    apply IH; [lia|done|done|lia]. }
  assert (Hready : step (cfg stateReady (Z.of_nat d) out inp pend)
                   = onReady (cfg stateReady (Z.of_nat d) out inp pend)) by done.
  unfold onReady in Hready. rewrite Hp in Hready. cbn [negb] in Hready.
  rewrite depth_cfg in Hready.
  assert (Hpos : (0 <? Z.of_nat d) = (0 <? d)%nat).
  { destruct d; [done|]. change (0 <? S d)%nat with true.
    apply Z.ltb_lt. lia. }
  cbn [translate]. rewrite <- Hpos.
  destruct (ch =? 92) eqn:E92.
  { (* a backslash *)
    apply Z.eqb_eq in E92. subst ch. autorewrite with cfg in Hready.
    split; [done|]. eexists. split; [by apply Run_stop|done]. }
  destruct (ch =? 47) eqn:E47.
  { (* slashes *)
    apply Z.eqb_eq in E47. subst ch. autorewrite with cfg in Hready.
    rewrite (Run_go _ _ _ Hready).
    destruct fuel as [|fuel]; [lia|].
    destruct (onSlash_loop_translate rs (S (length inp')) stateSlash (Z.of_nat d)
                out inp' None tail Hdec)
      as (i & p & rs' & Hl & Hr & Hlen & Hs).
    { apply decodes_to_length in Hdec. lia. }
    assert (Hst : step (cfg stateSlash (Z.of_nat d) out inp' (Some 47))
                  = Ret (true, cfg stateReady (Z.of_nat d) (out ++ rxSlash) i p)).
    { unfold step, onSlash. rewrite state_cfg, consume_pending. cbn [bindR].
      rewrite input_cfg, Hl. cbn [bindR]. by autorewrite with cfg. }
    rewrite (Run_go _ _ _ Hst). rewrite Hs. apply ends_as_emit.
    apply HIH; [done|done|lia|lia]. }
  destruct (ch =? 42) eqn:E42.
  { (* one star or two *)
    apply Z.eqb_eq in E42. subst ch. autorewrite with cfg in Hready.
    rewrite (Run_go _ _ _ Hready).
    destruct fuel as [|fuel]; [lia|].
    destruct rs as [|c2 rs2].
    - apply (unread_nil inp' None) in Hdec as (_ & Hnx & ->).
      assert (Hst : step (cfg stateStar (Z.of_nat d) out inp' (Some 42))
                    = Ret (true, cfg stateReady (Z.of_nat d) (out ++ rxStar) inp' None)).
      { unfold step, onStar. rewrite state_cfg, consume_pending. cbn [bindR].
        rewrite peekRune_none, Hnx. cbn [andb bindR].
        by autorewrite with cfg. }
      rewrite (Run_go _ _ _ Hst). apply ends_as_emit.
      apply HIH; [done|by apply decodes_to_end|simpl; lia|lia].
    - destruct (peek_unread stateStar (Z.of_nat d) out inp' None c2 rs2 tail Hdec)
        as (inp2 & Hp2 & Hdec2 & _).
      destruct (c2 =? 42) eqn:E2.
      + apply Z.eqb_eq in E2. subst c2.
        assert (Hst : step (cfg stateStar (Z.of_nat d) out inp' (Some 42))
                      = Ret (true, cfg stateReady (Z.of_nat d) (out ++ rxStarStar) inp2 None)).
        { unfold step, onStar. rewrite state_cfg, consume_pending. cbn [bindR].
          rewrite Hp2. cbn [andb Z.eqb Pos.eqb]. rewrite consume_pending.
          cbn [bindR]. by autorewrite with cfg. }
        rewrite (Run_go _ _ _ Hst). apply ends_as_emit.
        apply HIH; [simpl; lia|done|simpl in *; lia|lia].
      + assert (Hst : step (cfg stateStar (Z.of_nat d) out inp' (Some 42))
                      = Ret (true, cfg stateReady (Z.of_nat d) (out ++ rxStar) inp2 (Some c2))).
        { unfold step, onStar. rewrite state_cfg, consume_pending. cbn [bindR].
          rewrite Hp2, E2. cbn [andb bindR]. by autorewrite with cfg. }
        rewrite (Run_go _ _ _ Hst).
        assert (Et : match c2 :: rs2 with
                     | 42 :: rs'' => emit rxStarStar (translate (Plain false) d rs'' clean)
                     | _ => emit rxStar (translate (Plain false) d (c2 :: rs2) clean)
                     end = emit rxStar (translate (Plain false) d (c2 :: rs2) clean)).
        { destruct c2 as [|p|p]; try done.
          do 6 (destruct p as [p|p|]; try done). }
        rewrite Et. apply ends_as_emit.
        apply HIH; [done|simpl; eauto|simpl in *; lia|lia]. }
  destruct (ch =? 63) eqn:E63.
  { (* a question mark *)
    apply Z.eqb_eq in E63. subst ch. autorewrite with cfg in Hready.
    rewrite (Run_go _ _ _ Hready).
    destruct fuel as [|fuel]; [lia|].
    assert (Hst : step (cfg stateQuestion (Z.of_nat d) out inp' (Some 63))
                  = Ret (true, cfg stateReady (Z.of_nat d) (out ++ rxQuestion) inp' None)).
    { unfold step, onQuestion. rewrite state_cfg, consume_pending. cbn [bindR].
      by autorewrite with cfg. }
    rewrite (Run_go _ _ _ Hst). apply ends_as_emit.
    apply HIH; [done|done|lia|lia]. }
  destruct (ch =? 91) eqn:E91.
  { (* a class *)
    apply Z.eqb_eq in E91. subst ch. autorewrite with cfg in Hready.
    rewrite (Run_go _ _ _ Hready).
    destruct fuel as [|fuel]; [lia|].
    (* the loop, entered on the runes [rs1] with [out1] written *)
    assert (Hloop : forall piece inp1 pend1 rs1,
      unread inp1 pend1 rs1 tail ->
      (length rs1 <= length rs)%nat ->
      (length rs1 < S (S (length inp1)))%nat ->
      step (cfg stateOpenBracket (Z.of_nat d) out inp' (Some 91))
      = onBracket_loop (S (S (length inp1))) false
          (cfg stateOpenBracket (Z.of_nat d) (out ++ piece) inp1 pend1) ->
      ends_as (Run (S fuel) (cfg stateOpenBracket (Z.of_nat d) out inp' (Some 91)))
              out (emit piece (translate (ClassBody false) d rs1 clean)) tail).
    { intros piece inp1 pend1 rs1 Hr1 Hl1 Hlf Hst.
      destruct (onBracket_loop_translate rs1 _ false (Z.of_nat d) (out ++ piece)
                  inp1 pend1 tail Hr1 Hlf)
        as [(o & i & r & Hl & Hdd & Hlen & Hs)|(final & Hl & He & Hs)].
      - rewrite Hl in Hst. rewrite (Run_go _ _ _ Hst).
        rewrite Hs. apply ends_as_emit, ends_as_emit.
        apply HIH; [lia|done|lia|lia].
      - rewrite Hl in Hst. rewrite (Run_stop _ _ _ Hst).
        rewrite Hs. simpl. split; [done|]. eauto. }
    destruct rs as [|c2 rs2].
    - (* nothing follows the bracket *)
      apply (unread_nil inp' None) in Hdec as (_ & Hnx & ->).
      assert (Hst : step (cfg stateOpenBracket (Z.of_nat d) out inp' (Some 91))
                    = Ret (false, mkCompiler (Some errCharacterMatch) []
                                    (out ++ [91]) 0 (-1) false stateDone)).
      { unfold step, onBracket. rewrite state_cfg, consume_pending. cbn [bindR].
        autorewrite with cfg. rewrite peekRune_none, Hnx. cbn [andb bindR].
        rewrite input_cfg. cbn [onBracket_loop].
        rewrite peekRune_none, Hnx. cbn [negb]. by autorewrite with cfg. }
      rewrite (Run_stop _ _ _ Hst). simpl. split; [done|]. eauto.
    - destruct (peek_unread stateOpenBracket (Z.of_nat d) (out ++ [91]) inp' None
                  c2 rs2 tail Hdec)
        as (inp2 & Hp2 & Hdec2 & _).
      cbn [translate].
      destruct (c2 =? 94) eqn:E94.
      + (* a class that starts with a caret *)
        apply Z.eqb_eq in E94. subst c2. rewrite emit_emit.
        apply (Hloop ([91] ++ [94]) inp2 None rs2); [done|simpl; lia| |].
        { apply decodes_to_length in Hdec2. lia. }
        unfold step, onBracket. rewrite state_cfg, consume_pending. cbn [bindR].
        autorewrite with cfg. rewrite Hp2. cbn [andb Z.eqb Pos.eqb].
        rewrite consume_pending. cbn [bindR]. autorewrite with cfg.
        by rewrite <- app_assoc.
      + (* the first rune of the class is read by the loop *)
        assert (Hsc : (if c2 =? 92 then translate (ClassBody true) d rs2 clean
                       else if c2 =? 93
                            then emit [93] (translate (Plain false) d rs2 clean)
                            else emit (AppendRune [] c2)
                                   (translate (ClassBody false) d rs2 clean))
                      = translate (ClassBody false) d (c2 :: rs2) clean) by done.
        rewrite Hsc.
        apply (Hloop [91] inp2 (Some c2) (c2 :: rs2));
          [simpl; eauto|done| |].
        { apply decodes_to_length in Hdec2. simpl. lia. }
        unfold step, onBracket. rewrite state_cfg, consume_pending. cbn [bindR].
        autorewrite with cfg. rewrite Hp2, E94. cbn [andb bindR].
        by autorewrite with cfg. }
  destruct (ch =? 123) eqn:E123.
  { (* a group opens *)
    apply Z.eqb_eq in E123. subst ch. autorewrite with cfg in Hready.
    rewrite (Run_go _ _ _ Hready).
    destruct fuel as [|fuel]; [lia|].
    assert (Hst : step (cfg stateOpenBrace (Z.of_nat d) out inp' (Some 123))
                  = Ret (true, cfg stateReady (Z.of_nat (S d))
                                   (out ++ [40; 63; 58]) inp' None)).
    { unfold step, onOpenBrace. rewrite state_cfg, consume_pending. cbn [bindR].
      autorewrite with cfg. rewrite wrap_uint_small by lia.
      do 3 f_equal. lia. }
    rewrite (Run_go _ _ _ Hst). apply ends_as_emit.
    apply HIH; [done|done|lia|lia]. }
  destruct ((ch =? 44) && (0 <? Z.of_nat d)) eqn:E44.
  { (* a comma inside a group *)
    apply andb_prop in E44 as [E44 Epos]. apply Z.eqb_eq in E44. subst ch.
    autorewrite with cfg in Hready. rewrite (Run_go _ _ _ Hready).
    destruct fuel as [|fuel]; [lia|].
    assert (Hst : step (cfg stateComma (Z.of_nat d) out inp' (Some 44))
                  = Ret (true, cfg stateReady (Z.of_nat d) (out ++ [124]) inp' None)).
    { unfold step, onComma. rewrite state_cfg, consume_pending. cbn [bindR].
      by autorewrite with cfg. }
    rewrite (Run_go _ _ _ Hst). apply ends_as_emit.
    apply HIH; [done|done|lia|lia]. }
  destruct ((ch =? 125) && (0 <? Z.of_nat d)) eqn:E125.
  { (* a group closes *)
    apply andb_prop in E125 as [E125 Epos]. apply Z.eqb_eq in E125. subst ch.
    apply Z.ltb_lt in Epos.
    autorewrite with cfg in Hready. rewrite (Run_go _ _ _ Hready).
    destruct fuel as [|fuel]; [lia|].
    assert (Hst : step (cfg stateCloseBrace (Z.of_nat d) out inp' (Some 125))
                  = Ret (true, cfg stateReady (Z.of_nat (pred d))
                                   (out ++ [41]) inp' None)).
    { unfold step, onCloseBrace. rewrite state_cfg, consume_pending. cbn [bindR].
      autorewrite with cfg. rewrite wrap_uint_small by lia.
      do 3 f_equal. lia. }
    rewrite (Run_go _ _ _ Hst). apply ends_as_emit.
    apply HIH; [done|done|lia|lia]. }
  (* any other rune stands for itself *)
  rewrite consume_pending in Hready. cbn [bindR] in Hready.
  autorewrite with cfg in Hready.
  rewrite (Run_go _ _ _ Hready). apply ends_as_emit.
  apply HIH; [done|done|lia|lia].
Qed.

Lemma unread_start s :
  unread s None (split_runes (length s) s).1 (split_runes (length s) s).2.
Proof. simpl. by apply split_runes_decodes. Qed.

(** The run of the compiler on a whole pattern. *)
Lemma Run_translate_pattern s :
  Z.of_nat (length s) < 2 ^ 64 ->
  ends_as (Run (2 * length s + 2) (Reset s)) [94] (translate_pattern s)
          (undecoded s).
Proof.
  intros Hlen. unfold translate_pattern, undecoded.
  pose proof (unread_start s) as Hrem.
  destruct (split_runes (length s) s) as [rs tail]. cbn [fst snd] in *.
  pose proof (decodes_to_length _ _ _ Hrem) as Hl.
  change (Reset s) with (cfg stateReady (Z.of_nat 0) [94] s None).
  apply (Run_translate (length rs) rs); [done|done|lia|lia].
Qed.

Section Compile.

Variable NFD : list Z -> list Z.

(** X16. What [Compile] returns for a pattern that is not taken as a
    raw expression: when [translate_pattern] spells out an expression
    for it, rune by rune, [Compile] returns that expression after a
    [^]; when it names an error, [Compile] returns that error. *)
Theorem Compile_translates (input : list Z) :
  HasPrefix_caret (NFD input) = false ->
  Z.of_nat (length (NFD input)) < 2 ^ 64 ->
  (forall text, translate_pattern (NFD input) = Expr text ->
                Compile NFD input = Ret (FromRegexp (94 :: text)))
  /\ (forall e, translate_pattern (NFD input) = Rejected e ->
                Compile NFD input = Ret (Failed e)).
Proof.
  intros Hraw Hlen.
  pose proof (Run_translate_pattern (NFD input) Hlen) as Hrun.
  unfold Compile. cbv zeta. rewrite Hraw.
  split; [intros text Ht|intros e Ht]; rewrite Ht in Hrun;
    cbn [ends_as] in Hrun.
  - destruct Hrun as (final & -> & He & Ho). cbn [bindR].
    unfold Compiler_Compile. by rewrite He, Ho.
  - destruct Hrun as (Hne & final & -> & He). cbn [bindR].
    unfold Compiler_Compile. rewrite He. by destruct e.
Qed.

(** X17. Bytes that are not UTF-8, met between two tokens of a pattern:
    with eight bytes or more left from there on, [Compile] returns the
    error for invalid UTF-8; with fewer, the slice [gc.input[:8]] of
    the error message is out of range and [Compile] panics. *)
Theorem Compile_invalid_UTF8 (input : list Z) :
  HasPrefix_caret (NFD input) = false ->
  Z.of_nat (length (NFD input)) < 2 ^ 64 ->
  translate_pattern (NFD input) = BadUTF8 ->
  Compile NFD input
  = if (length (undecoded (NFD input)) <? 8)%nat then Panicked
    else Ret (Failed errInvalidUTF8).
Proof.
  intros Hraw Hlen Hbad.
  pose proof (Run_translate_pattern (NFD input) Hlen) as Hrun.
  unfold Compile. cbv zeta. rewrite Hraw. rewrite Hbad in Hrun.
  cbn [ends_as] in Hrun. destruct (_ <? 8)%nat.
  - by rewrite Hrun.
  - destruct Hrun as (final & -> & He). cbn [bindR].
    unfold Compiler_Compile. by rewrite He.
Qed.

End Compile.

End GlobTranslation.

Module GlobErrors.
Import Utf8 Glob GlobSpec GlobGrammar GlobTranslation Samples.

Lemma emit_refusal out r clean :
  r <> EndOfInput 0 -> emit out (refusal r clean) = refusal r clean.
Proof. destruct r as [[|d]| | |]; try done. intros _. by destruct clean. Qed.

(** Where the grammar does not end outside a class with every group
    closed, the translation answers the refusal. *)
Lemma translate_refusal n : forall rs, (length rs <= n)%nat ->
  forall m d clean,
    scan (grammar_mode m) d rs true <> EndOfInput 0 ->
    translate m d rs clean = refusal (scan (grammar_mode m) d rs true) clean.
Proof.
  induction n as [|n IH]; intros rs Hn m d clean Hr.
  all: destruct rs as [|ch rs]; [|try (simpl in Hn; lia)].
  1,2: destruct m as [b| |[|]]; cbn [grammar_mode scan translate refusal] in *;
       try done;
       destruct d as [|d]; [done|]; by destruct clean.
  simpl in Hn.
  assert (HIH : forall rs' m' d' out,
    (length rs' <= length rs)%nat ->
    scan (grammar_mode m) d (ch :: rs) true = scan (grammar_mode m') d' rs' true ->
    emit out (translate m' d' rs' clean)
    = refusal (scan (grammar_mode m) d (ch :: rs) true) clean
    /\ translate m' d' rs' clean
       = refusal (scan (grammar_mode m) d (ch :: rs) true) clean).
  { intros rs' m' d' out Hl E.
    assert (Ht : translate m' d' rs' clean
                 = refusal (scan (grammar_mode m) d (ch :: rs) true) clean).
    { rewrite E. apply IH; [lia|]. by rewrite <- E. }
    split; [|done]. rewrite Ht. by apply emit_refusal. }
  destruct m as [b| |[|]]; cbn [grammar_mode] in *.
  - (* between tokens *)
    cbn [translate].
    destruct (ch =? 92) eqn:E92.
    { cbn [scan]. by rewrite E92. }
    assert (Hs92 : scan Outside d (ch :: rs) true
                   = if ch =? 91 then scan ClassFirst d rs true
                     else if ch =? 123 then scan Outside (S d) rs true
                     else if (ch =? 125) && (0 <? d)%nat
                          then scan Outside (pred d) rs true
                          else scan Outside d rs true).
    { cbn [scan]. by rewrite E92. }
    destruct (ch =? 47) eqn:E47.
    { apply Z.eqb_eq in E47. subst ch.
      destruct b; apply (HIH rs (Plain true) d rxSlash); done. }
    destruct (ch =? 42) eqn:E42.
    { apply Z.eqb_eq in E42. subst ch.
      destruct rs as [|c2 rs2].
      - apply (HIH [] (Plain false) d rxStar); done.
      - destruct (c2 =? 42) eqn:E2.
        + apply Z.eqb_eq in E2. subst c2.
          apply (HIH rs2 (Plain false) d rxStarStar); [simpl; lia|done].
        + assert (Et : match c2 :: rs2 with
                       | 42 :: rs'' => emit rxStarStar (translate (Plain false) d rs'' clean)
                       | _ => emit rxStar (translate (Plain false) d (c2 :: rs2) clean)
                       end = emit rxStar (translate (Plain false) d (c2 :: rs2) clean)).
          { destruct c2 as [|p|p]; try done.
            do 6 (try (destruct p as [p|p|]); try done). }
          rewrite Et. apply (HIH (c2 :: rs2) (Plain false) d rxStar); done. }
    destruct (ch =? 63) eqn:E63.
    { apply Z.eqb_eq in E63. subst ch.
      apply (HIH rs (Plain false) d rxQuestion); done. }
    destruct (ch =? 91) eqn:E91.
    { apply (HIH rs ClassStart d [91]); [done|]. by rewrite Hs92. }
    destruct (ch =? 123) eqn:E123.
    { apply (HIH rs (Plain false) (S d) [40; 63; 58]); [done|]. by rewrite Hs92. }
    destruct ((ch =? 44) && (0 <? d)%nat) eqn:E44.
    { apply andb_prop in E44 as [E44 _]. apply Z.eqb_eq in E44. subst ch.
      apply (HIH rs (Plain false) d [124]); done. }
    destruct ((ch =? 125) && (0 <? d)%nat) eqn:E125.
    { apply (HIH rs (Plain false) (pred d) [41]); [done|].
      by rewrite Hs92. }
    apply (HIH rs (Plain false) d (QuoteMeta (AppendRune [] ch))); [done|].
    by rewrite Hs92.
  - (* at the start of a class *)
    cbn [translate].
    destruct (ch =? 94) eqn:E94.
    { apply (HIH rs (ClassBody false) d [94]); [done|]. cbn [scan]. by rewrite E94. }
    destruct (ch =? 92) eqn:E92.
    { apply (HIH rs (ClassBody true) d []); [done|]. cbn [scan]. by rewrite E94, E92. }
    destruct (ch =? 93) eqn:E93.
    { apply (HIH rs (Plain false) d [93]); [done|].
      cbn [scan]. by rewrite E94, E92, E93. }
    apply (HIH rs (ClassBody false) d (AppendRune [] ch)); [done|].
    cbn [scan]. by rewrite E94, E92, E93.
  - (* after a backslash in a class *)
    cbn [translate].
    apply (HIH rs (ClassBody false) d (AppendRune [92] ch)); done.
  - (* in a class *)
    cbn [translate].
    destruct (ch =? 92) eqn:E92.
    { apply (HIH rs (ClassBody true) d []); [done|]. cbn [scan]. by rewrite E92. }
    destruct (ch =? 93) eqn:E93.
    { apply (HIH rs (Plain false) d [93]); [done|]. cbn [scan]. by rewrite E92, E93. }
    apply (HIH rs (ClassBody false) d (AppendRune [] ch)); [done|].
    cbn [scan]. by rewrite E92, E93.
Qed.

Lemma translate_pattern_refusal s :
  scan_runes s <> EndOfInput 0 ->
  translate_pattern s = refusal (scan_runes s) (bool_decide (undecoded s = [])).
Proof.
  unfold scan_runes, translate_pattern, undecoded.
  destruct (split_runes (length s) s) as [rs tail]. cbn [fst snd].
  apply (translate_refusal (length rs) rs (Nat.le_refl _) (Plain false) 0%nat).
Qed.


Section Compile.

Variable NFD : list Z -> list Z.


End Compile.

End GlobErrors.

Module LegacyCodec.
Import GoLib LegacyMetadata GoLibFacts Base64Facts.

(** The digits that [formatBits] writes for a positive number start
    with a digit that is not zero, and are more than one from 10 on. *)
Lemma formatBits_shape fuel : forall u acc,
  Forall (fun c => is_digit c = true) acc ->
  0 < u < 10 ^ Z.of_nat fuel ->
  exists c s, formatBits fuel u acc = c :: s
              /\ is_nonzero_digit c = true
              /\ Forall (fun c => is_digit c = true) s
              /\ (s = [] <-> u < 10 /\ acc = []).
Proof.
  induction fuel as [|k IH]; intros u acc Hacc Hu.
  - simpl in Hu. lia.
  - cbn [formatBits]. destruct (Z.ltb_spec u 10).
    + exists (48 + u), acc. split; [done|].
      split; [unfold is_nonzero_digit; lia|]. split; [done|].
      split; [done|by intros [_ ?]].
    + rewrite Nat2Z.inj_succ, Z.pow_succ_r in Hu by lia.
      pose proof (Z.mod_pos_bound u 10 ltac:(lia)).
      destruct (IH (u / 10) ((48 + u mod 10) :: acc)) as (c & s & E & Hc & Hs & Hnil).
      * constructor; [unfold is_digit; lia|done].
      * split; [apply Z.div_str_pos; lia|apply Z.div_lt_upper_bound; lia].
      * exists c, s. split; [done|]. split; [done|]. split; [done|].
        split; [|lia]. intros Es. by apply Hnil in Es as [_ ?].
Qed.

Lemma formatBits_length_le fuel : forall k u acc,
  0 <= u < 10 ^ Z.of_nat (S k) ->
  (length (formatBits (S fuel) u acc) <= S k + length acc)%nat.
Proof.
  induction fuel as [|f IH]; intros k u acc Hu.
  - simpl. destruct (u <? 10); simpl; lia.
  - cbn [formatBits]. destruct (Z.ltb_spec u 10); [simpl; lia|].
    destruct k as [|k]; [simpl in Hu; lia|].
    rewrite Nat2Z.inj_succ, Z.pow_succ_r in Hu by lia.
    change (if u / 10 <? 10 then _ else _)
      with (formatBits (S f) (u / 10) ((48 + u mod 10) :: acc)).
    etransitivity; [apply (IH k)|simpl; lia].
    split; [apply Z.div_pos; lia|apply Z.div_lt_upper_bound; lia].
Qed.

Lemma formatBits_length_ge fuel : forall k u acc,
  (k <= fuel)%nat -> 10 ^ Z.of_nat k <= u ->
  (S k + length acc <= length (formatBits (S fuel) u acc))%nat.
Proof.
  induction fuel as [|f IH]; intros k u acc Hk Hu.
  - assert (k = 0%nat) by lia. subst k. simpl.
    destruct (u <? 10); simpl; lia.
  - cbn [formatBits]. destruct (Z.ltb_spec u 10).
    + destruct k as [|k]; [simpl; lia|].
      rewrite Nat2Z.inj_succ, Z.pow_succ_r in Hu by lia.
      pose proof (Z.pow_pos_nonneg 10 (Z.of_nat k) ltac:(lia) ltac:(lia)). lia.
    + change (if u / 10 <? 10 then _ else _)
        with (formatBits (S f) (u / 10) ((48 + u mod 10) :: acc)).
      destruct k as [|k].
      * pose proof (formatBits_length_ge_0 := IH 0%nat (u / 10)
                      ((48 + u mod 10) :: acc) ltac:(lia)).
        simpl in formatBits_length_ge_0 |- *.
        assert (1 <= u / 10) by (apply Z.div_le_lower_bound; lia).
        specialize (formatBits_length_ge_0 ltac:(lia)). lia.
      * rewrite Nat2Z.inj_succ, Z.pow_succ_r in Hu by lia.
        etransitivity; [|apply (IH k); [lia|]]; [simpl; lia|].
        apply Z.div_le_lower_bound; lia.
Qed.

(** The expression [reInt] on what [EncodeInt] writes. *)
Lemma reInt_Match_EncodeInt v :
  in_int64 v -> reInt_Match (EncodeInt v) = (v =? 0) || (10 <=? v).
Proof.
  unfold in_int64, EncodeInt, AppendInt. intros Hv. rewrite app_nil_l.
  destruct (Z.ltb_spec v 0).
  - replace (v =? 0) with false by lia.
    replace (10 <=? v) with false by lia.
    by destruct (formatBits 20 (- v) []) as [|? [|? ?]].
  - destruct (decide (v = 0)) as [->|Hv0]; [done|].
    destruct (formatBits_shape 20 v []) as (c & s & E & Hc & Hs & Hnil);
      [done| |].
    { change (10 ^ Z.of_nat 20) with 100000000000000000000. lia. }
    rewrite E. replace (v =? 0) with false by lia. cbn [orb].
    destruct s as [|d s].
    + assert (v < 10) by (by apply Hnil). replace (10 <=? v) with false by lia.
      cbn. unfold is_nonzero_digit in Hc. destruct (c =? 48) eqn:E48; [lia|].
      destruct c as [|p|p]; try done;
        do 6 (try (destruct p as [p|p|]); try done).
    + assert (~ v < 10).
      { intros ?. assert (d :: s = []) by (by apply Hnil). done. }
      replace (10 <=? v) with true by lia.
      assert (Hm : reInt_Match (c :: d :: s)
                   = is_nonzero_digit c && forallb is_digit (d :: s)).
      { unfold is_nonzero_digit in Hc. destruct c as [|p|p]; try done;
          do 6 (try (destruct p as [p|p|]); try done). }
      rewrite Hm, Hc. cbn [andb]. apply forallb_forall.
      intros x Hx. apply (proj1 (Forall_forall _ _) Hs).
      by apply list_elem_of_In.
Qed.

(** Eight bytes below 128 read as a big-endian number are not
    negative. *)
Lemma BigEndian_Uint64_ascii s :
  length s = 8%nat -> Forall (fun c => 0 <= c < 128) s ->
  0 <= to_int64 (BigEndian_Uint64 s).
Proof.
  intros Hl Hs.
  do 8 (destruct s as [|? s]; [done|]). destruct s; [|done].
  repeat match goal with
         | H : Forall _ (_ :: _) |- _ => apply Forall_cons in H as [? H]
         end.
  unfold BigEndian_Uint64. cbn [take foldl].
  rewrite Z.shiftl_0_l, Z.lor_0_l.
  rewrite !lor_shiftl_add by lia.
  unfold to_int64. case_match; lia.
Qed.

(** The length of what [EncodeInt] writes for a negative number. *)
Lemma EncodeInt_negative_length v :
  - 2 ^ 63 <= v < 0 ->
  (length (EncodeInt v) =? 8)%nat = (-9999999 <=? v) && (v <=? -1000000).
Proof.
  intros Hv. unfold EncodeInt, AppendInt. rewrite app_nil_l.
  replace (v <? 0) with true by lia. cbn [length].
  set (n := length (formatBits 20 (- v) [])).
  assert (Hle : forall k, - v < 10 ^ Z.of_nat (S k) -> (n <= S k)%nat).
  { intros k Hk. pose proof (formatBits_length_le 19 k (- v) []) as H1.
    cbn [length] in H1. fold n in H1. lia. }
  assert (Hge : forall k, (k <= 19)%nat -> 10 ^ Z.of_nat k <= - v -> (S k <= n)%nat).
  { intros k Hk Hu. pose proof (formatBits_length_ge 19 k (- v) [] Hk Hu) as H2.
    cbn [length] in H2. fold n in H2. lia. }
  destruct (Z.leb_spec (-9999999) v); destruct (Z.leb_spec v (-1000000));
    cbn [andb].
  - apply Nat.eqb_eq.
    assert (n <= 7)%nat by (apply (Hle 6%nat); change (10 ^ Z.of_nat 7) with 10000000; lia).
    assert (7 <= n)%nat by (apply (Hge 6%nat); [lia|]; change (10 ^ Z.of_nat 6) with 1000000; lia).
    lia.
  - apply Nat.eqb_neq.
    assert (n <= 6)%nat by (apply (Hle 5%nat); change (10 ^ Z.of_nat 6) with 1000000; lia).
    lia.
  - apply Nat.eqb_neq.
    assert (8 <= n)%nat by (apply (Hge 7%nat); [lia|]; change (10 ^ Z.of_nat 7) with 10000000; lia).
    lia.
  - lia.
Qed.

Lemma EncodeInt_ascii v : Forall (fun c => 0 <= c < 128) (EncodeInt v).
Proof.
  unfold EncodeInt, AppendInt. rewrite app_nil_l.
  assert (H : forall u, 0 <= u ->
            Forall (fun c => 0 <= c < 128) (formatBits 20 u [])).
  { intros u Hu. eapply Forall_impl; [apply formatBits_digits; [done|constructor]|].
    unfold is_digit. intros c Hc. simpl in Hc. lia. }
  destruct (Z.ltb_spec v 0).
  - constructor; [lia|]. apply H. lia.
  - by apply H.
Qed.

(** What [DecodeInt] makes of the text that [EncodeInt] writes. *)
Lemma DecodeInt_EncodeInt v :
  in_int64 v ->
  DecodeInt (EncodeInt v)
  = if (v =? 0) || (10 <=? v) then Some v
    else if (-9999999 <=? v) && (v <=? -1000000)
         then Some (to_int64 (BigEndian_Uint64 (EncodeInt v)))
         else None.
Proof.
  intros Hv. unfold DecodeInt. rewrite reInt_Match_EncodeInt by done.
  destruct ((v =? 0) || (10 <=? v)) eqn:E.
  - unfold EncodeInt. by rewrite ParseInt_AppendInt.
  - apply orb_false_elim in E as [E0 E10].
    unfold in_int64 in Hv.
    destruct (Z.ltb_spec v 0).
    + by rewrite EncodeInt_negative_length by lia.
    + replace ((-9999999 <=? v) && (v <=? -1000000)) with false by lia.
      assert (Hl : (length (EncodeInt v) <= 1)%nat).
      { unfold EncodeInt, AppendInt. rewrite app_nil_l.
        replace (v <? 0) with false by lia.
        pose proof (formatBits_length_le 19 0 v []) as H1.
        simpl in H1. apply H1. lia. }
      replace (length (EncodeInt v) =? 8)%nat with false
        by (symmetry; apply Nat.eqb_neq; lia).
      done.
Qed.

(** X18. The integers of the first version of the codec: [DecodeInt]
    reads back what [EncodeInt] wrote exactly for zero and for the
    numbers from 10 on.  It refuses the numbers from 1 to 9 and most
    negative numbers; a negative number of seven digits, whose text has
    eight bytes, it accepts as eight raw bytes and answers a number
    that is not negative. *)
Theorem DecodeInt_reads_EncodeInt (v : Z) :
  in_int64 v ->
  (DecodeInt (EncodeInt v) = Some v <-> v = 0 \/ 10 <= v)
  /\ (1 <= v <= 9 -> DecodeInt (EncodeInt v) = None)
  /\ (-9999999 <= v <= -1000000 ->
      exists w, DecodeInt (EncodeInt v) = Some w /\ 0 <= w).
Proof.
  intros Hv. rewrite DecodeInt_EncodeInt by done.
  assert (Hneg : -9999999 <= v <= -1000000 ->
                 0 <= to_int64 (BigEndian_Uint64 (EncodeInt v))).
  { intros Hr. apply BigEndian_Uint64_ascii; [|apply EncodeInt_ascii].
    apply Nat.eqb_eq. unfold in_int64 in Hv.
    rewrite EncodeInt_negative_length by lia. lia. }
  split; [|split].
  - destruct ((v =? 0) || (10 <=? v)) eqn:E.
    + split; [lia|done].
    + destruct ((-9999999 <=? v) && (v <=? -1000000)) eqn:E7.
      * split; [|lia]. intros [= Hw]. specialize (Hneg ltac:(lia)). lia.
      * split; [done|lia].
  - intros Hr. replace ((v =? 0) || (10 <=? v)) with false by lia.
    by replace ((-9999999 <=? v) && (v <=? -1000000)) with false by lia.
  - intros Hr. replace ((v =? 0) || (10 <=? v)) with false by lia.
    replace ((-9999999 <=? v) && (v <=? -1000000)) with true by lia.
    eauto.
Qed.

(** *** The stamp of the first version *)

Lemma std_letter s :
  0 <= s < 64 -> rxB64StdLetter (table_at encodeStd s) = true.
Proof.
  intros Hs.
  assert (H : forallb (fun s => rxB64StdLetter (table_at encodeStd s))
                      (seqZ 0 64) = true) by (vm_compute; reflexivity).
  rewrite forallb_forall in H. apply H.
  apply list_elem_of_In, elem_of_seqZ. lia.
Qed.

(** The expression [reB64Std] lets through what [EncodeHash] writes. *)
Lemma reB64Std_Match_EncodeHash d : reB64Std_Match (EncodeHash d) = true.
Proof.
  unfold reB64Std_Match, EncodeHash.
  assert (Hs : forall x, rxB64StdLetter (table_at encodeStd (Z.land x 63)) = true)
    by (intros x; apply std_letter, sextet_range).
  remember (length d) as n eqn:Hn.
  revert d Hn. induction (lt_wf n) as [n _ IH]. intros d Hn.
  destruct d as [|b0 [|b1 [|b2 d]]]; cbn [b64_Encode rxB64_Match].
  - done.
  - rewrite !Hs. by rewrite !Z.eqb_refl.
  - rewrite !Hs. by rewrite !Z.eqb_refl, orb_true_r.
  - rewrite !Hs. cbn [andb orb].
    rewrite (IH (length d)) by (simpl in Hn; lia || done).
    by destruct (b64_Encode encodeStd d).
Qed.

(** [DecodeHash] reads a digest of one of the three widths back from
    the text that [EncodeHash] wrote, whatever the field held. *)
Lemma DecodeHash_EncodeHash n output d :
  n = 16%nat \/ n = 20%nat \/ n = 32%nat ->
  length output = n -> Metadata.digest_ok n d = true ->
  DecodeHash output (EncodeHash d) = Ret (true, d).
Proof.
  intros Hn Ho Hd. apply MetadataFacts.digest_ok_spec in Hd as [Hl Hb].
  assert (E : b64_Decode encodeStd n (b64_Encode encodeStd d) = DecOk d)
    by (rewrite <- Hl; apply b64_Decode_Encode_exact; [apply alphabet_ok_std|done]).
  assert (Ea : attempt (DecOk d) output = Ret (true, d)).
  { unfold attempt, written. rewrite Hl, Ho, Nat.eqb_refl.
    rewrite drop_ge by lia. by rewrite app_nil_r. }
  unfold DecodeHash. cbv zeta.
  rewrite reB64Std_Match_EncodeHash. unfold EncodeHash.
  rewrite (b64_Encode_length encodeStd), Ho, Hl.
  destruct Hn as [-> | [-> | ->]];
    (change ((b64_EncodedLen _ =? _)%nat) with false;
     change ((hex_EncodedLen _ <=? b64_EncodedLen _)%nat) with false;
     change ((b64_EncodedLen _ <=? b64_EncodedLen _)%nat) with true;
     cbn [andb bindR]; cbv iota; by rewrite E, Ea).
Qed.

Lemma Encode_pieces md :
  Encode md [] =
  Metadata.piece kSize (EncodeInt (Size md)) ++ kSplit ::
  Metadata.piece kModTime (EncodeInt (ModTime md)) ++ kSplit ::
  Metadata.piece kMD5 (EncodeHash (MD5 md)) ++ kSplit ::
  Metadata.piece kSHA1 (EncodeHash (SHA1 md)) ++ kSplit ::
  Metadata.piece kSHA256 (EncodeHash (SHA256 md)).
Proof.
  unfold Encode, Metadata.piece. rewrite app_nil_l.
  repeat rewrite <- app_assoc. reflexivity.
Qed.

Section Stamp.

Variable foldUnicode : list Z -> list Z -> bool.

Lemma piece_Cut k v :
  forallb (fun c => negb (c =? kCut)) k = true ->
  Cut (Metadata.piece k v) kCut = (k, v, true).
Proof.
  intros Hk. unfold Metadata.piece. apply MetadataFacts.Cut_app_sep.
  apply List.Forall_forall. rewrite forallb_forall in Hk.
  intros c Hin. specialize (Hk c Hin). unfold kCut in *. lia.
Qed.

(** X19. The stamp of the first version of the scanner: for a record
    whose size and time are each zero or at least 10, [Decode] reads
    back the stamp that [Encode] wrote and reports it complete. *)
Theorem Decode_reads_Encode (md : Metadata) :
  Size md = 0 \/ 10 <= Size md < 2 ^ 63 ->
  ModTime md = 0 \/ 10 <= ModTime md < 2 ^ 63 ->
  Metadata.digest_ok 16 (MD5 md) = true ->
  Metadata.digest_ok 20 (SHA1 md) = true ->
  Metadata.digest_ok 32 (SHA256 md) = true ->
  Decode foldUnicode (Encode md []) = Ret (md, true).
Proof.
  intros HS HT H1 H2 H3.
  destruct (MetadataFacts.digest_ok_spec _ _ H1) as [_ B1].
  destruct (MetadataFacts.digest_ok_spec _ _ H2) as [_ B2].
  destruct (MetadataFacts.digest_ok_spec _ _ H3) as [_ B3].
  assert (ES : DecodeInt (EncodeInt (Size md)) = Some (Size md)).
  { rewrite DecodeInt_EncodeInt by (unfold in_int64; lia).
    by replace ((Size md =? 0) || (10 <=? Size md)) with true by lia. }
  assert (ET : DecodeInt (EncodeInt (ModTime md)) = Some (ModTime md)).
  { rewrite DecodeInt_EncodeInt by (unfold in_int64; lia).
    by replace ((ModTime md =? 0) || (10 <=? ModTime md)) with true by lia. }
  unfold Decode. rewrite Encode_pieces.
  rewrite !MetadataFacts.Split_app_sep, MetadataFacts.Split_no_sep
    by (apply MetadataFacts.piece_no_split;
        [reflexivity
        |first [apply MetadataFacts.AppendInt_chars
               |by apply MetadataFacts.b64_chars]]).
  cbn [foldl bindR].
  unfold decode_piece at 1. rewrite piece_Cut by done.
  change (EqualFold foldUnicode kSize kSize) with true.
  cbn [andb]. cbv iota. rewrite ES. cbn [bindR].
  unfold decode_piece at 1. rewrite piece_Cut by done.
  change (EqualFold foldUnicode kModTime kSize) with false.
  change (EqualFold foldUnicode kModTime kModTime) with true.
  cbn [andb]. cbv iota. rewrite ET. cbn [bindR].
  unfold decode_piece at 1. rewrite piece_Cut by done.
  change (EqualFold foldUnicode kMD5 kSize) with false.
  change (EqualFold foldUnicode kMD5 kModTime) with false.
  change (EqualFold foldUnicode kMD5 kMD5) with true.
  cbn [andb]. cbv iota.
  rewrite (DecodeHash_EncodeHash 16) by (auto || reflexivity). cbn [bindR].
  unfold decode_piece at 1. rewrite piece_Cut by done.
  change (EqualFold foldUnicode kSHA1 kSize) with false.
  change (EqualFold foldUnicode kSHA1 kModTime) with false.
  change (EqualFold foldUnicode kSHA1 kMD5) with false.
  change (EqualFold foldUnicode kSHA1 kSHA1) with true.
  cbn [andb]. cbv iota.
  rewrite (DecodeHash_EncodeHash 20) by (auto || reflexivity). cbn [bindR].
  unfold decode_piece at 1. rewrite piece_Cut by done.
  change (EqualFold foldUnicode kSHA256 kSize) with false.
  change (EqualFold foldUnicode kSHA256 kModTime) with false.
  change (EqualFold foldUnicode kSHA256 kMD5) with false.
  change (EqualFold foldUnicode kSHA256 kSHA1) with false.
  change (EqualFold foldUnicode kSHA256 kSHA256) with true.
  cbn [andb]. cbv iota.
  rewrite (DecodeHash_EncodeHash 32) by (auto || reflexivity). cbn [bindR].
  by destruct md.
Qed.

End Stamp.

End LegacyCodec.

Module StampFirst.
Import GoLib Metadata GoLibFacts MetadataFacts.

Section Load.

Variable foldUnicode : list Z -> list Z -> bool.

(** X20. The stamp comes first: when the stamp attribute of a file
    holds what [Append] writes for a complete metadata value, [Load]
    into a fresh value answers that value and reports it complete,
    under any attribute names and whatever the attributes of the
    single fields hold; they are not decoded. *)
Theorem Load_stamp_first (names : Names) (file : xattrs) (m : Metadata) :
  file !! nStamp names = Some (Append m []) ->
  well_formed m = true -> Bits m = AllBits ->
  Load foldUnicode zero file names = Ret (m, true).
Proof.
  intros Hst Hwf Hbits.
  unfold Load, MaybeFGet. rewrite Hst.
  rewrite (Decode_Append_roundtrip foldUnicode) by done.
  cbn [bindR fst]. cbv zeta.
  rewrite ?Hbits. change (negb (Has AllBits SizeBit)) with false. cbv iota.
  rewrite ?Hbits. change (negb (Has AllBits TimeBit)) with false. cbv iota.
  rewrite ?Hbits. change (negb (Has AllBits MD5Bit)) with false. cbv iota.
  cbn [bindR].
  rewrite ?Hbits. change (negb (Has AllBits SHA1Bit)) with false. cbv iota.
  cbn [bindR].
  rewrite ?Hbits. change (negb (Has AllBits SHA256Bit)) with false. cbv iota.
  cbn [bindR]. by rewrite Hbits.
Qed.

End Load.

End StampFirst.

Module FurtherWitnesses.

Import Samples Fixtures.
Import GoLib Metadata FindDuplicateFiles ScanByInode.

Lemma decodeInt_reads_appendInt_witness :
  decodeInt (appendInt [] (-42)) = Some (-42).
Proof.
  apply (CodecFacts.decodeInt_reads_appendInt (-42)).
  unfold in_int64. lia.
Defined.

Lemma decodeHash_reads_every_encoding_witness :
  decodeHash 16 (MD5 meta1) = Ret (Some (MD5 meta1))
  /\ decodeHash 16 (hex_Encode (MD5 meta1)) = Ret (Some (MD5 meta1))
  /\ decodeHash 16 (b64_Encode encodeStd (MD5 meta1)) = Ret (Some (MD5 meta1))
  /\ decodeHash 16 (b64_Encode encodeURL (MD5 meta1)) = Ret (Some (MD5 meta1)).
Proof.
  apply (CodecFacts.decodeHash_reads_every_encoding 16 (MD5 meta1)).
  - left. reflexivity.
  - reflexivity.
Defined.

Lemma Load_after_Save_witness :
  Load (fun _ _ => false) zero (Save meta1 ∅ (gNames "user.dedupe."))
       (gNames "user.dedupe.")
  = Ret (meta1, true).
Proof.
  apply (XattrFacts.Load_after_Save (fun _ _ => false) "user.dedupe." meta1 ∅);
    reflexivity.
Defined.

Lemma Load_without_stamp_witness :
  Load (fun _ _ => false) zero
       (delete (nStamp (gNames "user.dedupe."))
               (Save meta1 ∅ (gNames "user.dedupe.")))
       (gNames "user.dedupe.")
  = Ret (meta1, true).
Proof.
  apply (XattrFacts.Load_without_stamp (fun _ _ => false) "user.dedupe." meta1 ∅);
    reflexivity.
Defined.

Import ScanByDigest.

Lemma results_of_scan_witness :
  exists hashes,
    ScanByDigest.main_results merge_sort_by (recorded recorded3)
    = (fun h => paths_with h recorded3) <$> hashes
    /\ StronglySorted (fun a b => SHA256List_Less a b = true) hashes
    /\ forall h, h ∈ hashes <-> (2 <= length (paths_with h recorded3))%nat.
Proof.
  apply (DigestGroups.results_of_scan merge_sort_by
           SortFacts.merge_sort_by_contract recorded3).
Defined.

Lemma ScanFile_memoizes_witness :
  exists hash,
    SHA256Sum_of_list (SHA256 meta3) = Some hash
    /\ ScanFile (fun _ _ => false) flat_md5 flat_sha1 flat_sha256 same_bytes
         bytes_of_string flags1 ∅ item3 ∅ reads3
       = Ret (record_path ∅ hash (ItemPkg.Path item3),
              Save meta3 ∅ (gNames (flagNS flags1)))
    /\ forall (flags' : Flags (list Z)) seen' data',
         flagNS flags' = flagNS flags1 -> flagRules flags' = flagRules flags1 ->
         flagRescan flags' = false -> flagMinSize flags' <= ItemPkg.Size item3 ->
         ScanFile (fun _ _ => false) flat_md5 flat_sha1 flat_sha256 same_bytes
           bytes_of_string flags' seen' item3
           (Save meta3 ∅ (gNames (flagNS flags1))) data'
         = Ret (record_path seen' hash (ItemPkg.Path item3),
                Save meta3 ∅ (gNames (flagNS flags1))).
Proof.
  apply (ScanFileFacts.ScanFile_memoizes (fun _ _ => false) flat_md5 flat_sha1
           flat_sha256 same_bytes bytes_of_string
           (fun _ => eq_refl) (fun _ => eq_refl) (fun _ => eq_refl)
           flags1 ∅ item3 ∅ reads3 (zero, false) meta3).
  - unfold in_int64. simpl. lia.
  - unfold in_int64. simpl. lia.
  - simpl. lia.
  - reflexivity.
  - reflexivity.
  - reflexivity.
  - reflexivity.
Defined.

Lemma ScanFile_records_checked_witness :
  let result := ScanFile (fun _ _ => false) flat_md5 flat_sha1 flat_sha256
                  same_bytes bytes_of_string flags1 ∅ item3 ∅ reads3 in
  result = Panicked
  \/ result = Ret (∅, ∅)
  \/ exists m,
       HasAll (Bits m) AllBits = true
       /\ Check m (ItemPkg.Size item3) (ItemPkg.Time item3) = true
       /\ flagMinSize flags1 <= ItemPkg.Size item3
       /\ ((exists hash,
              SHA256Sum_of_list (SHA256 m) = Some hash
              /\ result = Ret (record_path ∅ hash (ItemPkg.Path item3),
                               Save m ∅ (gNames (flagNS flags1))))).
Proof.
  apply (ScanFileInvariant.ScanFile_records_checked (fun _ _ => false)
           flat_md5 flat_sha1 flat_sha256 same_bytes bytes_of_string
           (fun _ => eq_refl) flags1 ∅ item3 ∅ reads3).
Defined.

Lemma reported_iff_two_inodes_witness :
  exists gs,
    main_groups merge_sort_by (scan [fileA; fileD; fileB; fileC]) = Ret gs
    /\ (forall h, (exists paths, (h, paths) ∈ gs) <->
          exists f g, f ∈ [fileA; fileD; fileB; fileC]
                      /\ g ∈ [fileA; fileD; fileB; fileC]
                      /\ sHash f = h /\ sHash g = h
                      /\ (sDev f, sIno f) <> (sDev g, sIno g))
    /\ (forall h paths p, (h, paths) ∈ gs -> p ∈ paths ->
          exists f, f ∈ [fileA; fileD; fileB; fileC]
                    /\ sHash f = h /\ sPath f = p).
Proof.
  apply (InodeGroups.reported_iff_two_inodes merge_sort_by
           SortFacts.merge_sort_by_contract [fileA; fileD; fileB; fileC]).
Defined.

Import ItemPkg CleanDuplicateFiles Replacement.

Lemma processBatch_replaces_witness :
  let cands := candidates itemB 0 (merge_sort_by Item Items_Less [itemA; itemB]) 0 in
  let result := processBatch merge_sort_by _ open_two link_ok link_ok
                  ["/a"; "/b"]%string [] in
  (result.1 = Returned (Some itemB) cands
   /\ replaced_from _ link_ok link_ok (Path itemB) cands [] result.2)
  \/ exists done failed rest fs1 fs2,
       cands = done ++ failed :: rest
       /\ result.1 = Fatal itemB done failed
       /\ replaced_from _ link_ok link_ok (Path itemB) done [] fs1
       /\ link_ok (Path itemB) failed fs1 = (false, fs2)
       /\ link_ok (Path itemB) failed fs2 = (false, result.2).
Proof.
  apply (ReplacementFacts.processBatch_replaces merge_sort_by _ open_two
           link_ok link_ok ["/a"; "/b"]%string [itemA; itemB] [] 0%nat itemB).
  - simpl. lia.
  - reflexivity.
  - reflexivity.
Defined.

Import Glob GlobSpec.

(** The pattern [a*]. *)
Lemma Compile_translates_witness :
  (forall text, translate_pattern [97; 42] = Expr text ->
                Compile (fun s => s) [97; 42] = Ret (FromRegexp (94 :: text)))
  /\ (forall e, translate_pattern [97; 42] = Rejected e ->
                Compile (fun s => s) [97; 42] = Ret (Failed e)).
Proof.
  apply (GlobTranslation.Compile_translates (fun s => s) [97; 42]).
  - reflexivity.
  - simpl. lia.
Defined.

(** The pattern [a] followed by a byte that is not UTF-8. *)
Lemma Compile_invalid_UTF8_witness :
  Compile (fun s => s) [97; 255]
  = if Nat.ltb (length (undecoded [97; 255])) 8 then Panicked
    else Ret (Failed errInvalidUTF8).
Proof.
  apply (GlobTranslation.Compile_invalid_UTF8 (fun s => s) [97; 255]).
  - reflexivity.
  - simpl. lia.
  - reflexivity.
Defined.

Lemma DecodeInt_reads_EncodeInt_witness :
  (LegacyMetadata.DecodeInt (LegacyMetadata.EncodeInt (-1234567))
   = Some (-1234567) <-> -1234567 = 0 \/ 10 <= -1234567)
  /\ (1 <= -1234567 <= 9 ->
      LegacyMetadata.DecodeInt (LegacyMetadata.EncodeInt (-1234567)) = None)
  /\ (-9999999 <= -1234567 <= -1000000 ->
      exists w, LegacyMetadata.DecodeInt (LegacyMetadata.EncodeInt (-1234567))
                = Some w /\ 0 <= w).
Proof.
  apply (LegacyCodec.DecodeInt_reads_EncodeInt (-1234567)).
  unfold in_int64. lia.
Defined.

Lemma Decode_reads_Encode_witness :
  LegacyMetadata.Decode (fun _ _ => false) (LegacyMetadata.Encode legacy12 [])
  = Ret (legacy12, true).
Proof.
  apply (LegacyCodec.Decode_reads_Encode (fun _ _ => false) legacy12).
  - right. simpl. lia.
  - right. simpl. lia.
  - reflexivity.
  - reflexivity.
  - reflexivity.
Defined.

Lemma Load_stamp_first_witness :
  Metadata.Load (fun _ _ => false) Metadata.zero stamped1
    (FindDuplicateFiles.gNames "user.dedupe.")
  = Ret (meta1, true).
Proof.
  apply (StampFirst.Load_stamp_first (fun _ _ => false)
           (FindDuplicateFiles.gNames "user.dedupe.") stamped1 meta1);
    reflexivity.
Defined.


End FurtherWitnesses.
